(** * rss_bot: the feed-polling, deduplication and filtering pipeline, the
      store and the commands of the bot

    A shallow embedding of the Go packages [model], [filter], [fetcher],
    [storage] (the SQLite store), [scheduler], [config] and [bot] (the
    parsers of the arguments, the texts, the handlers of the commands and of
    the buttons, the loop over the updates), followed by their properties.

    Conventions.
    - A Go [string] is a sequence of bytes: it is a [string] of Rocq, whose
      characters ([ascii]) are the bytes.  [len(s)] is [String.length s].
    - [int], [int64] are [Z]; none of the modelled code does arithmetic that
      could wrap.
    - A [time.Time] is the number of nanoseconds since the Unix epoch, in UTC.
    - A Go [error] is its message; [(T, error)] is [result T] and a lone
      [error] is [option string] ([None] is [nil]).
    - Functions of the Go standard library and of third-party packages whose
      code is not part of the repository ([strings.ToLower], [regexp.Compile],
      [url.Parse], [gofeed]'s parser) are the fields of the class [GoLib];
      [strconv.Quote] and [time.Format] those of the class [GoFmt].
    - What the parsers of the commands rest on is written out after the Go
      sources: the decoding of UTF-8 ([utf8]), [unicode.IsSpace],
      [strings.Fields], [strings.TrimSpace], [strings.SplitN],
      [strings.Join] and [strconv.ParseInt].
    - A handler of the bot is a function of the world that returns or
      panics ([outcome]); the pointers of an update ([Message], [From],
      [Chat]) are taken to be there. *)

From Stdlib Require Import Bool Arith ZArith Lia List Permutation Sorted Ascii String
  DecimalString DecimalPos.
Import ListNotations.

Local Open Scope string_scope.
Local Open Scope Z_scope.

(** ** Errors *)

Inductive result (A : Type) : Type :=
| Ok (a : A)
| Err (msg : string).
Arguments Ok {A} a.
Arguments Err {A} msg.

Definition error := option string.

(** [fmt.Errorf("<ctx>: %w", err)] *)
Definition wrap (ctx msg : string) : string := ctx ++ ": " ++ msg.

(** [%d] of [fmt]. *)
Definition itoa (z : Z) : string := NilEmpty.string_of_int (Z.to_int z).

(** ** Package unicode/utf8

    A rune is its code point; a byte is a number below 256. *)

Module utf8.

Definition RuneError : Z := 0xFFFD.
Definition RuneSelf : Z := 0x80.
Definition UTFMax : Z := 4.

Definition byte (c : ascii) : Z := Z.of_N (N_of_ascii c).

(** [s[i]] *)
Definition nth_byte (s : string) (i : Z) : Z :=
  match String.get (Z.to_nat i) s with
  | Some c => byte c
  | None => 0
  end.

(** [s[i:j]] *)
Definition slice (s : string) (i j : Z) : string :=
  substring (Z.to_nat i) (Z.to_nat (j - i)) s.

Definition len (s : string) : Z := Z.of_nat (String.length s).

(** The tables [first] and [acceptRanges]: for the first byte of a
    sequence, its length and the bounds of its second byte; nothing for a
    byte that starts no sequence of more than one byte. *)
Definition first (b : Z) : option (Z * Z * Z) :=
  if b <? 0xC2 then None
  else if b <=? 0xDF then Some (2, 0x80, 0xBF)
  else if b =? 0xE0 then Some (3, 0xA0, 0xBF)
  else if b <=? 0xEC then Some (3, 0x80, 0xBF)
  else if b =? 0xED then Some (3, 0x80, 0x9F)
  else if b <=? 0xEF then Some (3, 0x80, 0xBF)
  else if b =? 0xF0 then Some (4, 0x90, 0xBF)
  else if b <=? 0xF3 then Some (4, 0x80, 0xBF)
  else if b =? 0xF4 then Some (4, 0x80, 0x8F)
  else None.

(** A continuation byte: between [locb] and [hicb]. *)
Definition continuation (b : Z) : bool := (0x80 <=? b) && (b <=? 0xBF).

(** [DecodeRuneInString]: the first rune of [s] and its width in bytes;
    [(RuneError, 1)] where the encoding is not valid. *)
Definition DecodeRuneInString (s : string) : Z * Z :=
  if len s <? 1 then (RuneError, 0)
  else
    let s0 := nth_byte s 0 in
    if s0 <? RuneSelf then (s0, 1)
    else
      match first s0 with
      | None => (RuneError, 1)
      | Some (sz, lo, hi) =>
        if len s <? sz then (RuneError, 1)
        else
          let s1 := nth_byte s 1 in
          if (s1 <? lo) || (hi <? s1) then (RuneError, 1)
          else if sz <=? 2 then
            (Z.lor (Z.shiftl (Z.land s0 0x1F) 6) (Z.land s1 0x3F), 2)
          else
            let s2 := nth_byte s 2 in
            if negb (continuation s2) then (RuneError, 1)
            else if sz <=? 3 then
              (Z.lor (Z.lor (Z.shiftl (Z.land s0 0x0F) 12) (Z.shiftl (Z.land s1 0x3F) 6))
                     (Z.land s2 0x3F), 3)
            else
              let s3 := nth_byte s 3 in
              if negb (continuation s3) then (RuneError, 1)
              else
                (Z.lor (Z.lor (Z.lor (Z.shiftl (Z.land s0 0x07) 18)
                                     (Z.shiftl (Z.land s1 0x3F) 12))
                              (Z.shiftl (Z.land s2 0x3F) 6))
                       (Z.land s3 0x3F), 4)
      end.

(** [RuneStart]: the byte is not a continuation byte. *)
Definition RuneStart (b : Z) : bool := negb (Z.land b 0xC0 =? 0x80).

(** The loop of [DecodeLastRuneInString] that steps back to the start of
    the last rune, at most to [lim]; it runs [UTFMax] times at most. *)
Fixpoint backtrack (s : string) (start lim : Z) (n : nat) : Z :=
  match n with
  | O => start
  | S k =>
    if start <? lim then start
    else if RuneStart (nth_byte s start) then start
    else backtrack s (start - 1) lim k
  end.

(** [DecodeLastRuneInString]: the last rune of [s] and its width. *)
Definition DecodeLastRuneInString (s : string) : Z * Z :=
  let e := len s in
  if e =? 0 then (RuneError, 0)
  else
    let r := nth_byte s (e - 1) in
    if r <? RuneSelf then (r, 1)
    else
      let lim := Z.max (e - UTFMax) 0 in
      let start := backtrack s (e - 2) lim (Z.to_nat UTFMax) in
      let start := if start <? 0 then 0 else start in
      let '(r, size) := DecodeRuneInString (slice s start e) in
      if negb (start + size =? e) then (RuneError, 1) else (r, size).

(** [for _, r := range s]: the runes of [s] in order, each with the bytes
    it was decoded from; [skip] is the number of bytes still to pass of the
    rune decoded last. *)
Fixpoint runes_from (s : string) (skip : nat) : list (Z * string) :=
  match s with
  | EmptyString => []
  | String _ rest =>
    match skip with
    | S k => runes_from rest k
    | O =>
      let '(r, size) := DecodeRuneInString s in
      (r, slice s 0 size) :: runes_from rest (Z.to_nat size - 1)
    end
  end.

Definition runes (s : string) : list (Z * string) := runes_from s 0.

(** The bytes of a sequence of runes. *)
Definition bytes (rs : list (Z * string)) : string :=
  fold_right (fun r s => snd r ++ s) EmptyString rs.

End utf8.

(** ** Package unicode *)

Module unicode.

Definition MaxLatin1 : Z := 0xFF.

(** [IsSpace]: within Latin-1 the characters of the switch, beyond it the
    ranges of the table [White_Space]. *)
Definition IsSpace (r : Z) : bool :=
  if (0 <=? r) && (r <=? MaxLatin1) then
    (r =? 9) || (r =? 10) || (r =? 11) || (r =? 12) || (r =? 13) || (r =? 32)
    || (r =? 0x85) || (r =? 0xA0)
  else
    (r =? 0x1680) || ((0x2000 <=? r) && (r <=? 0x200A)) || (r =? 0x2028) || (r =? 0x2029)
    || (r =? 0x202F) || (r =? 0x205F) || (r =? 0x3000).

End unicode.

(** ** Package strings *)

Module strings.

Fixpoint HasPrefix (s prefix : string) : bool :=
  match prefix, s with
  | EmptyString, _ => true
  | String _ _, EmptyString => false
  | String p ps, String c cs => Ascii.eqb c p && HasPrefix cs ps
  end.

Fixpoint Contains (s substr : string) : bool :=
  HasPrefix s substr ||
  match s with
  | EmptyString => false
  | String _ cs => Contains cs substr
  end.


(** [Cut]: the text before and after the first instance of [sep]. *)
Fixpoint Cut (s sep : string) : option (string * string) :=
  if HasPrefix s sep then Some (EmptyString, substring (String.length sep) (String.length s) s)
  else
    match s with
    | EmptyString => None
    | String c rest =>
      match Cut rest sep with
      | Some (before, after) => Some (String c before, after)
      | None => None
      end
    end.

(** [Count], for a separator that is not empty: the instances of [sep]
    that do not overlap. *)
Fixpoint Count_loop (s sep : string) (fuel : nat) : Z :=
  match fuel with
  | O => 0
  | S k =>
    match Cut s sep with
    | Some (_, after) => 1 + Count_loop after sep k
    | None => 0
    end
  end.

Definition Count (s sep : string) : Z := Count_loop s sep (String.length s).

(** The loop of [genSplit]: [n] more cuts may be made. *)
Fixpoint genSplit_loop (s sep : string) (n : nat) : list string :=
  match n with
  | O => [s]
  | S k =>
    match Cut s sep with
    | Some (before, after) => before :: genSplit_loop after sep k
    | None => [s]
    end
  end.

(** [SplitN], for a separator that is not empty (every call of the program
    passes a literal of one character). *)
Definition SplitN (s sep : string) (n : Z) : list string :=
  if n =? 0 then []
  else
    let n := if n <? 0 then Count s sep + 1 else n in
    let n := Z.min n (utf8.len s + 1) in
    genSplit_loop s sep (Z.to_nat (n - 1)).

Definition Split (s sep : string) : list string := SplitN s sep (-1).

Fixpoint Join (elems : list string) (sep : string) : string :=
  match elems with
  | [] => EmptyString
  | [a] => a
  | a :: rest => a ++ sep ++ Join rest sep
  end.

(** The loop of [FieldsFunc] over the runes: [field] is the field that is
    open, if one is ([start >= 0]). *)
Fixpoint FieldsFunc_loop (f : Z -> bool) (rs : list (Z * string)) (field : option string)
    : list string :=
  match rs with
  | [] =>
    match field with
    | Some w => [w]
    | None => []
    end
  | (r, b) :: rest =>
    if f r then
      match field with
      | Some w => w :: FieldsFunc_loop f rest None
      | None => FieldsFunc_loop f rest None
      end
    else
      FieldsFunc_loop f rest
        (Some match field with
              | Some w => w ++ b
              | None => b
              end)
  end.

Definition FieldsFunc (s : string) (f : Z -> bool) : list string :=
  FieldsFunc_loop f (utf8.runes s) None.

(** [Fields]: for ASCII text the code has a loop of its own, which
    computes what [FieldsFunc] does with [unicode.IsSpace]. *)
Definition Fields (s : string) : list string := FieldsFunc s unicode.IsSpace.

(** [TrimLeftFunc]: [s] from its first rune that [f] does not hold of,
    nothing when there is none. *)
Fixpoint TrimLeftFunc_loop (f : Z -> bool) (rs : list (Z * string)) : list (Z * string) :=
  match rs with
  | [] => []
  | (r, b) :: rest => if f r then TrimLeftFunc_loop f rest else rs
  end.

Definition TrimLeftFunc (s : string) (f : Z -> bool) : string :=
  utf8.bytes (TrimLeftFunc_loop f (utf8.runes s)).

(** [lastIndexFunc]: the index of the last rune [r] with [f(r) == truth],
    or -1. *)
Fixpoint lastIndexFunc_loop (s : string) (f : Z -> bool) (truth : bool) (i : Z) (fuel : nat)
    : Z :=
  match fuel with
  | O => -1
  | S k =>
    if i <=? 0 then -1
    else
      let '(r, size) := utf8.DecodeLastRuneInString (utf8.slice s 0 i) in
      let i := i - size in
      if Bool.eqb (f r) truth then i else lastIndexFunc_loop s f truth i k
  end.

Definition lastIndexFunc (s : string) (f : Z -> bool) (truth : bool) : Z :=
  lastIndexFunc_loop s f truth (utf8.len s) (String.length s).

Definition TrimRightFunc (s : string) (f : Z -> bool) : string :=
  let i := lastIndexFunc s f false in
  let i :=
    if (0 <=? i) && (utf8.RuneSelf <=? utf8.nth_byte s i) then
      i + snd (utf8.DecodeRuneInString (utf8.slice s i (utf8.len s)))
    else i + 1 in
  utf8.slice s 0 i.

Definition TrimFunc (s : string) (f : Z -> bool) : string :=
  TrimRightFunc (TrimLeftFunc s f) f.

(** [TrimSpace]: the code tries the ASCII characters first and falls back
    to [TrimFunc] with [unicode.IsSpace], which gives the same. *)
Definition TrimSpace (s : string) : string := TrimFunc s unicode.IsSpace.

End strings.

(** ** Package strconv: numbers in base 10 of 64 bits *)

Module strconv.

Inductive NumError := ErrSyntax | ErrRange.

Inductive parsed :=
| Parsed (n : Z)
| Failed (e : NumError).

Definition maxUint64 : Z := 18446744073709551615.

Definition isdigit (c : ascii) : bool :=
  (48 <=? utf8.byte c) && (utf8.byte c <=? 57).

(** The loop of [ParseUint] for base 10: a character that is no digit is a
    syntax error (a letter stands for a digit above the base); the checks of
    overflow come before the next character is looked at. *)
Fixpoint ParseUint_loop (s : string) (n : Z) : parsed :=
  match s with
  | EmptyString => Parsed n
  | String c rest =>
    if negb (isdigit c) then Failed ErrSyntax
    else
      let d := utf8.byte c - 48 in
      if maxUint64 / 10 + 1 <=? n then Failed ErrRange
      else
        let n1 := n * 10 + d in
        if maxUint64 <? n1 then Failed ErrRange
        else ParseUint_loop rest n1
  end.

(** [ParseUint(s, 10, 64)] *)
Definition ParseUint (s : string) : parsed :=
  match s with
  | EmptyString => Failed ErrSyntax
  | _ => ParseUint_loop s 0
  end.

(** [ParseInt(s, 10, 64)] *)
Definition ParseInt (s : string) : parsed :=
  match s with
  | EmptyString => Failed ErrSyntax
  | String c rest =>
    let '(neg, digits) :=
      if Ascii.eqb c "+" then (false, rest)
      else if Ascii.eqb c "-" then (true, rest)
      else (false, s) in
    match ParseUint digits with
    | Failed ErrSyntax => Failed ErrSyntax
    | Failed ErrRange => Failed ErrRange
    | Parsed un =>
      let cutoff := 2 ^ 63 in
      if negb neg && (cutoff <=? un) then Failed ErrRange
      else if neg && (cutoff <? un) then Failed ErrRange
      else Parsed (if neg then - un else un)
    end
  end.

(** [Atoi]: [int] has 64 bits; the short strings the code reads by a loop
    of its own give what [ParseInt] gives. *)
Definition Atoi (s : string) : parsed := ParseInt s.

(** The text of the error, [Quote] being [strconv.Quote]. *)
Definition NumError_Error (Quote : string -> string) (func num : string) (e : NumError)
    : string :=
  "strconv." ++ func ++ ": parsing " ++ Quote num ++ ": " ++
  match e with
  | ErrSyntax => "invalid syntax"
  | ErrRange => "value out of range"
  end.

End strconv.

(** ** Package model *)

Module model.

Definition Time := Z.

Record Feed := mkFeed {
  Feed_ID : Z;
  Feed_ChatID : Z;
  Feed_Name : string;
  Feed_URL : string;
  Feed_IntervalMinutes : Z;
  Feed_IsActive : bool;
  Feed_LastCheckAt : option Time;
  Feed_CreatedAt : Time
}.

Definition FilterKind := string.
Definition FilterInclude : FilterKind := "include".
Definition FilterExclude : FilterKind := "exclude".
Definition FilterIncludeRe : FilterKind := "include_re".
Definition FilterExcludeRe : FilterKind := "exclude_re".

Definition FilterScope := string.
Definition ScopeTitle : FilterScope := "title".
Definition ScopeContent : FilterScope := "content".
Definition ScopeAll : FilterScope := "all".

Record Filter := mkFilter {
  Filter_ID : Z;
  Filter_FeedID : Z;
  Filter_Kind : FilterKind;
  Filter_Scope : FilterScope;
  Filter_Value : string;
  Filter_CreatedAt : Time
}.

End model.
Import model.

(** ** Package gofeed (third party): the parsed feed, as far as the code reads it *)

Module gofeed.

Record Item := mkItem {
  Item_Title : string;
  Item_Description : string;
  Item_Link : string;
  Item_GUID : string
}.

Record Feed := mkFeed {
  Feed_Title : string;
  Feed_Items : list Item
}.

End gofeed.

(** ** The library functions the code calls *)

(** A compiled [*regexp.Regexp] is its [MatchString]. *)
Definition Regexp := string -> bool.

Class GoLib := {
  (** [strings.ToLower] *)
  strings_ToLower : string -> string;
  (** [regexp.Compile] *)
  regexp_Compile : string -> result Regexp;
  (** [url.Parse], as [http.NewRequestWithContext] uses it: the error, if any *)
  url_Parse : string -> error;
  (** [gofeed.NewParser().ParseString] *)
  gofeed_ParseString : string -> result gofeed.Feed
}.

(** What the bot calls besides: [strconv.Quote], which the verb [%q] of
    [fmt] applies to a string (it escapes the characters that
    [unicode.IsPrint] rejects, a property given by tables), and
    [time.Time.Format]. *)
Class GoFmt := {
  strconv_Quote : string -> string;
  time_Format : Time -> string -> string
}.

(** What a call comes to: it returns, or it panics. *)
Inductive outcome (A : Type) : Type :=
| Returns (a : A)
| Panics (msg : string).
Arguments Returns {A} a.
Arguments Panics {A} msg.

(** ** Package config *)

Module config.

Record Config := mkConfig {
  TelegramBotToken : string;
  DatabasePath : string;
  LogLevel : string;
  AllowedUsers : list Z
}.

Section WithFmt.

Context {fmtlib : GoFmt}.

(** The loop of [Load] over the parts of ALLOWED_USERS. *)
Fixpoint Load_users (parts : list string) (allowedUsers : list Z) : result (list Z) :=
  match parts with
  | [] => Ok allowedUsers
  | s :: rest =>
    let s := strings.TrimSpace s in
    if String.eqb s EmptyString then Load_users rest allowedUsers
    else
      match strconv.ParseInt s with
      | strconv.Failed e =>
        Err ("invalid user ID " ++ strconv_Quote s ++ " in ALLOWED_USERS: "
             ++ strconv.NumError_Error strconv_Quote "ParseInt" s e)
      | strconv.Parsed uid => Load_users rest (allowedUsers ++ [uid])%list
      end
  end.

(** [Load], [Getenv] being [os.Getenv]: the value of a variable, empty
    when the variable is not set. *)
Definition Load (Getenv : string -> string) : result Config :=
  let token := Getenv "TELEGRAM_BOT_TOKEN" in
  if String.eqb token EmptyString then Err "TELEGRAM_BOT_TOKEN is required"
  else
    let dbPath := Getenv "DATABASE_PATH" in
    let dbPath := if String.eqb dbPath EmptyString then "./data/bot.db" else dbPath in
    let logLevel := Getenv "LOG_LEVEL" in
    let logLevel := if String.eqb logLevel EmptyString then "info" else logLevel in
    let raw := Getenv "ALLOWED_USERS" in
    match (if negb (String.eqb raw EmptyString) then Load_users (strings.Split raw ",") []
           else Ok []) with
    | Err e => Err e
    | Ok allowedUsers => Ok (mkConfig token dbPath logLevel allowedUsers)
    end.

End WithFmt.

Definition IsUserAllowed (c : Config) (userID : Z) : bool :=
  match AllowedUsers c with
  | [] => true
  | _ => existsb (fun id => id =? userID) (AllowedUsers c)
  end.

End config.

(** ** Package filter *)

Module filter.

Record FeedItem := mkFeedItem {
  Title : string;
  Description : string
}.

Section WithLib.
Context {lib : GoLib}.

Definition textForScope (item : FeedItem) (scope : FilterScope) : string :=
  if String.eqb scope ScopeTitle then strings_ToLower (Title item)
  else if String.eqb scope ScopeContent then strings_ToLower (Description item)
  else strings_ToLower (Title item ++ " " ++ Description item).

Definition matchesFilter (item : FeedItem) (f : Filter) : bool :=
  let text := textForScope item (Filter_Scope f) in
  if String.eqb (Filter_Kind f) FilterInclude || String.eqb (Filter_Kind f) FilterExclude then
    strings.Contains text (strings_ToLower (Filter_Value f))
  else if String.eqb (Filter_Kind f) FilterIncludeRe || String.eqb (Filter_Kind f) FilterExcludeRe then
    match regexp_Compile ("(?i)" ++ Filter_Value f) with
    | Err _ => false
    | Ok re => re text
    end
  else false.

(** The [for] loop of [Match]: the two flags are threaded through, and [None]
    is the [return false] from inside the loop. *)
Fixpoint Match_loop (item : FeedItem) (filters : list Filter)
    (hasIncludes anyIncludeMatched : bool) : option (bool * bool) :=
  match filters with
  | [] => Some (hasIncludes, anyIncludeMatched)
  | f :: rest =>
    if String.eqb (Filter_Kind f) FilterInclude || String.eqb (Filter_Kind f) FilterIncludeRe then
      Match_loop item rest true
        (if matchesFilter item f then true else anyIncludeMatched)
    else if String.eqb (Filter_Kind f) FilterExclude || String.eqb (Filter_Kind f) FilterExcludeRe then
      if matchesFilter item f then None
      else Match_loop item rest hasIncludes anyIncludeMatched
    else Match_loop item rest hasIncludes anyIncludeMatched
  end.

Definition Match (item : FeedItem) (filters : list Filter) : bool :=
  if (List.length filters =? 0)%nat then true
  else
    match Match_loop item filters false false with
    | None => false
    | Some (hasIncludes, anyIncludeMatched) =>
      if hasIncludes && negb anyIncludeMatched then false else true
    end.

Definition ValidateRegex (pattern : string) : error :=
  match regexp_Compile ("(?i)" ++ pattern) with
  | Err msg => Some (wrap "invalid regex" msg)
  | Ok _ => None
  end.

End WithLib.

(** The two classes of filter kinds that [Match] distinguishes. *)
Definition isInclude (f : Filter) : bool :=
  String.eqb (Filter_Kind f) FilterInclude || String.eqb (Filter_Kind f) FilterIncludeRe.

Definition isExclude (f : Filter) : bool :=
  String.eqb (Filter_Kind f) FilterExclude || String.eqb (Filter_Kind f) FilterExcludeRe.

Definition knownKind (f : Filter) : bool := isInclude f || isExclude f.

End filter.

(** ** Package crypto/sha256 (FIPS 180-4), on bytes as numbers [0..255] *)

Module sha256.

Definition w32 (x : Z) : Z := x mod 4294967296.
Definition add32 (x y : Z) : Z := w32 (x + y).
Definition rotr (n x : Z) : Z := Z.lor (Z.shiftr x n) (w32 (Z.shiftl x (32 - n))).
Definition not32 (x : Z) : Z := Z.lxor x 4294967295.

Definition Ch (x y z : Z) : Z := Z.lxor (Z.land x y) (Z.land (not32 x) z).
Definition Maj (x y z : Z) : Z := Z.lxor (Z.lxor (Z.land x y) (Z.land x z)) (Z.land y z).
Definition bsig0 (x : Z) : Z := Z.lxor (Z.lxor (rotr 2 x) (rotr 13 x)) (rotr 22 x).
Definition bsig1 (x : Z) : Z := Z.lxor (Z.lxor (rotr 6 x) (rotr 11 x)) (rotr 25 x).
Definition ssig0 (x : Z) : Z := Z.lxor (Z.lxor (rotr 7 x) (rotr 18 x)) (Z.shiftr x 3).
Definition ssig1 (x : Z) : Z := Z.lxor (Z.lxor (rotr 17 x) (rotr 19 x)) (Z.shiftr x 10).

(** The constants are defined as the standard defines them: the first 32
    bits of the fractional parts of the cube roots of the first 64 primes,
    and for the initial hash value of the square roots of the first 8. *)
Definition is_prime (n : nat) : bool :=
  (1 <? n)%nat && forallb (fun d => negb (n mod d =? 0)%nat) (seq 2 (n - 2)).

Definition primes : list Z :=
  map Z.of_nat (List.filter is_prime (seq 2 310)).

(** The integer cube root, bit by bit from bit [k-1] down. *)
Fixpoint cbrt_bits (k : nat) (n r : Z) : Z :=
  match k with
  | O => r
  | S k' =>
    let c := r + 2 ^ Z.of_nat k' in
    cbrt_bits k' n (if c * c * c <=? n then c else r)
  end.

Definition frac_cbrt (p : Z) : Z := w32 (cbrt_bits 40 (p * 2 ^ 96) 0).
Definition frac_sqrt (p : Z) : Z := w32 (Z.sqrt (p * 2 ^ 64)).

Definition K : list Z := map frac_cbrt primes.

(** The eight working variables [a..h], also the hash value between blocks. *)
Definition state : Type := Z * Z * Z * Z * Z * Z * Z * Z.

Definition init : state :=
  match map frac_sqrt (firstn 8 primes) with
  | [a; b; c; d; e; f; g; h] => (a, b, c, d, e, f, g, h)
  | _ => (0, 0, 0, 0, 0, 0, 0, 0)
  end.

(** Big-endian words of a block of bytes. *)
Fixpoint words (bytes : list Z) : list Z :=
  match bytes with
  | b0 :: b1 :: b2 :: b3 :: rest =>
    (b0 * 16777216 + b1 * 65536 + b2 * 256 + b3) :: words rest
  | _ => []
  end.

(** The message schedule, most recent word first: from [W_(t-1) .. W_0] the
    next [n] words. *)
Fixpoint schedule (n : nat) (rev_w : list Z) : list Z :=
  match n with
  | O => rev_w
  | S n' =>
    let w := add32 (add32 (ssig1 (nth 1 rev_w 0)) (nth 6 rev_w 0))
                   (add32 (ssig0 (nth 14 rev_w 0)) (nth 15 rev_w 0)) in
    schedule n' (w :: rev_w)
  end.

Definition round (s : state) (kw : Z * Z) : state :=
  let '(a, b, c, d, e, f, g, h) := s in
  let t1 := add32 (add32 (add32 h (bsig1 e)) (add32 (Ch e f g) (fst kw))) (snd kw) in
  let t2 := add32 (bsig0 a) (Maj a b c) in
  (add32 t1 t2, a, b, c, add32 d t1, e, f, g).

Definition compress (hv : state) (block : list Z) : state :=
  let w := rev (schedule 48 (rev (words block))) in
  let '(a, b, c, d, e, f, g, h) := fold_left round (combine K w) hv in
  let '(a0, b0, c0, d0, e0, f0, g0, h0) := hv in
  (add32 a0 a, add32 b0 b, add32 c0 c, add32 d0 d, add32 e0 e, add32 f0 f, add32 g0 g, add32 h0 h).

(** Bytes are consumed one at a time; a block is compressed when its 64th
    byte arrives. *)
Definition absorb_byte (st : state * list Z) (b : Z) : state * list Z :=
  let block' := (snd st ++ [b])%list in
  if (List.length block' =? 64)%nat then (compress (fst st) block', [])
  else (fst st, block').

Definition absorb (bytes : list Z) : state :=
  fst (fold_left absorb_byte bytes (init, [])).

Definition be_bytes (n : nat) (x : Z) : list Z :=
  map (fun i => Z.shiftr x (8 * Z.of_nat i) mod 256) (rev (seq 0 n)).

Definition pad (msg : list Z) : list Z :=
  let len := Z.of_nat (List.length msg) in
  let zeros := Z.to_nat ((55 - len) mod 64) in
  (msg ++ [128] ++ repeat 0 zeros ++ be_bytes 8 (8 * len))%list.

Definition digest (hv : state) : list Z :=
  let '(a, b, c, d, e, f, g, h) := hv in
  (be_bytes 4 a ++ be_bytes 4 b ++ be_bytes 4 c ++ be_bytes 4 d ++
   be_bytes 4 e ++ be_bytes 4 f ++ be_bytes 4 g ++ be_bytes 4 h)%list.

Definition bytes_of_string (s : string) : list Z :=
  map (fun c => Z.of_N (N_of_ascii c)) (list_ascii_of_string s).

(** [sha256.Sum256]: the 32 bytes of the digest. *)
Definition Sum256 (data : string) : list Z :=
  digest (absorb (pad (bytes_of_string data))).

End sha256.

(** ** Package fmt: the verb [%x] on a byte slice *)

Module fmt.

Definition hexdigit (n : Z) : ascii :=
  match String.get (Z.to_nat n) "0123456789abcdef" with
  | Some c => c
  | None => "0"%char
  end.

Fixpoint hex (bytes : list Z) : string :=
  match bytes with
  | [] => EmptyString
  | b :: rest => String (hexdigit (b / 16)) (String (hexdigit (b mod 16)) (hex rest))
  end.

End fmt.

(** ** Packages net/http and io, as far as [Fetch] uses them *)

Module http.

Definition MethodGet : string := "GET".
Definition StatusOK : Z := 200.

Record Request := mkRequest {
  Method : string;
  Request_URL : string;
  Header : list (string * string)
}.

(** A response body is a stream: the bytes it yields, and how it ends
    ([None] is [io.EOF], [Some e] a read error after the bytes). *)
Record Body := mkBody {
  Body_data : string;
  Body_err : error
}.

Record Response := mkResponse {
  StatusCode : Z;
  Response_Body : Body
}.

End http.

Module io.

Fixpoint take (n : N) (s : string) : string :=
  match s with
  | EmptyString => EmptyString
  | String c rest => if (n =? 0)%N then EmptyString else String c (take (N.pred n) rest)
  end.

(** [io.ReadAll(io.LimitReader(r, n))]: the limited reader reports the end
    after [n] bytes, so the stream's own end is reached only when it is
    shorter than that. *)
Definition ReadAll_LimitReader (r : http.Body) (n : N) : result string :=
  if (N.of_nat (String.length (http.Body_data r)) <? n)%N then
    match http.Body_err r with
    | Some e => Err e
    | None => Ok (http.Body_data r)
    end
  else Ok (take n (http.Body_data r)).

End io.

(** ** The interfaces the pipeline is written against

    [fetcher.HTTPClient], [storage.Storage], [scheduler.Sender], the logger,
    the context and the clock: one operation per method the code calls.  A
    program is a tree of calls; an implementation answers them (see
    [harness]). *)

Inductive Op : Type -> Type :=
| ctx_Err : Op bool
| slog (level msg : string) (attrs : list (string * string)) : Op unit
| client_Do (req : http.Request) : Op (result http.Response)
| store_ListDueFeeds : Op (result (list Feed))
| store_ListFilters (feedID : Z) : Op (result (list Filter))
| store_UpdateFeed (feed : Feed) : Op error
| store_IsSeen (feedID : Z) (guid : string) : Op (result bool)
| store_MarkSeen (feedID : Z) (guid : string) : Op error
| sender_SendMessage (chatID : Z) (text : string) : Op unit
| time_Now : Op Time
| time_Sleep (d : Z) : Op unit.

Inductive Prog (A : Type) : Type :=
| Ret (a : A)
| Do {X : Type} (op : Op X) (k : X -> Prog A).
Arguments Ret {A} a.
Arguments Do {A X} op k.

Fixpoint bind {A B : Type} (p : Prog A) (f : A -> Prog B) : Prog B :=
  match p with
  | Ret a => f a
  | Do op k => Do op (fun x => bind (k x) f)
  end.

Definition call {X : Type} (op : Op X) : Prog X := Do op Ret.

Declare Scope prog_scope.
Delimit Scope prog_scope with prog.
Notation "x <- p ;; q" := (bind p (fun x => q))
  (at level 61, p at next level, right associativity) : prog_scope.
Notation "p ;; q" := (bind p (fun _ => q))
  (at level 61, right associativity) : prog_scope.

(** ** Package fetcher *)

Module fetcher.

Record MatchedItem := mkMatchedItem {
  Title : string;
  Description : string;
  Link : string;
  GUID : string
}.

Definition ItemGUID (item : gofeed.Item) : string :=
  if negb (String.eqb (gofeed.Item_GUID item) "") then gofeed.Item_GUID item
  else
    let h := sha256.Sum256 (gofeed.Item_Title item ++ "|" ++ gofeed.Item_Link item) in
    "sha256:" ++ fmt.hex (firstn 16 h).

Section WithLib.
Context {lib : GoLib}.

(** [Fetch]: the request is created (which fails when the URL does not
    parse), sent through the client, and the response checked and parsed.
    The deferred [resp.Body.Close()] has no effect that the code observes
    and is left out. *)
Definition Fetch (url : string) : Prog (result gofeed.Feed) :=
  match url_Parse url with
  | Some e => Ret (Err (wrap "create request" e))
  | None =>
    let req := http.mkRequest http.MethodGet url [("User-Agent", "RSSNotifyBot/1.0")] in
    (r <- call (client_Do req) ;;
     match r with
     | Err e => Ret (Err (wrap "http get" e))
     | Ok resp =>
       if negb (http.StatusCode resp =? http.StatusOK) then
         Ret (Err ("unexpected status " ++ itoa (http.StatusCode resp)))
       else
         match io.ReadAll_LimitReader (http.Response_Body resp) (5 * 1024 * 1024) with
         | Err e => Ret (Err (wrap "read body" e))
         | Ok body =>
           match gofeed_ParseString body with
           | Err e => Ret (Err (wrap "parse feed" e))
           | Ok feed => Ret (Ok feed)
           end
         end
     end)%prog
  end.

Fixpoint FilterItems (items : list gofeed.Item) (filters : list Filter) : list MatchedItem :=
  match items with
  | [] => []
  | item :: rest =>
    let fi := filter.mkFeedItem (gofeed.Item_Title item) (gofeed.Item_Description item) in
    if filter.Match fi filters then
      let desc := gofeed.Item_Description item in
      let desc := if (300 <? String.length desc)%nat
                  then substring 0 300 desc ++ "..." else desc in
      mkMatchedItem (gofeed.Item_Title item) desc (gofeed.Item_Link item) (ItemGUID item)
        :: FilterItems rest filters
    else FilterItems rest filters
  end.

End WithLib.

End fetcher.

(** ** Package bot: the formatting the scheduler calls *)

Module bot.

Definition nl : string := String (ascii_of_nat 10) EmptyString.

Definition FormatNotification (feedName : string) (item : fetcher.MatchedItem) : string :=
  let b := "[" ++ feedName ++ "]" ++ nl ++ nl in
  let b := b ++ fetcher.Title item in
  let b := if String.eqb (fetcher.Description item) "" then b
           else b ++ nl ++ nl ++ fetcher.Description item in
  let b := if String.eqb (fetcher.Link item) "" then b
           else b ++ nl ++ nl ++ fetcher.Link item in
  b.

(** *** The arguments of the commands *)

Record FilterArgs := mkFilterArgs {
  FilterArgs_FeedID : Z;
  FilterArgs_Scope : FilterScope;
  FilterArgs_Value : string
}.

Section WithQuote.

Context {fmtlib : GoFmt}.

(** The scope flag of [ParseFilterCommand]: what is left of the words
    after the feed ID, and the scope they ask for. *)
Definition scope_flag (rest : list string) : result (FilterScope * list string) :=
  match rest with
  | r0 :: r1 :: rest' =>
    if String.eqb r0 "-s" then
      if String.eqb r1 "title" then Ok (ScopeTitle, rest')
      else if String.eqb r1 "content" then Ok (ScopeContent, rest')
      else if String.eqb r1 "all" then Ok (ScopeAll, rest')
      else Err ("invalid scope " ++ strconv_Quote r1 ++ ", use: title, content, all")
    else Ok (ScopeAll, rest)
  | _ => Ok (ScopeAll, rest)
  end.

Definition ParseFilterCommand (args : string) : result FilterArgs :=
  match strings.Fields args with
  | p0 :: (_ :: _) as rest =>
    match strconv.ParseInt p0 with
    | strconv.Failed _ => Err ("invalid feed ID " ++ strconv_Quote p0)
    | strconv.Parsed feedID =>
      match scope_flag rest with
      | Err e => Err e
      | Ok (scope, []) => Err "filter value is required"
      | Ok (scope, rest) => Ok (mkFilterArgs feedID scope (strings.Join rest " "))
      end
    end
  | _ => Err "usage: <feed_id> [-s title|content|all] <value>"
  end.

(** [strings.Fields(s)[0]] panics when there is no field. *)
Definition ParseIDArg (args : string) : outcome (result Z) :=
  let s := strings.TrimSpace args in
  if String.eqb s EmptyString then Returns (Err "feed ID is required")
  else
    match strings.Fields s with
    | [] => Panics "runtime error: index out of range [0] with length 0"
    | p0 :: _ =>
      match strconv.ParseInt p0 with
      | strconv.Failed _ => Returns (Err ("invalid feed ID " ++ strconv_Quote s))
      | strconv.Parsed id => Returns (Ok id)
      end
    end.

Definition ParseRenameArgs (args : string) : result (Z * string) :=
  match strings.SplitN (strings.TrimSpace args) " " 2 with
  | p0 :: p1 :: _ =>
    match strconv.ParseInt p0 with
    | strconv.Failed _ => Err ("invalid feed ID " ++ strconv_Quote p0)
    | strconv.Parsed id =>
      let name := strings.TrimSpace p1 in
      if String.eqb name EmptyString then Err "new name cannot be empty"
      else Ok (id, name)
    end
  | _ => Err "usage: /rename <id> <new_name>"
  end.

Definition ParseIntervalArgs (args : string) : result (Z * Z) :=
  match strings.Fields args with
  | p0 :: p1 :: _ =>
    match strconv.ParseInt p0 with
    | strconv.Failed _ => Err ("invalid feed ID " ++ strconv_Quote p0)
    | strconv.Parsed id =>
      match strconv.Atoi p1 with
      | strconv.Parsed mins =>
        if (mins <? 1) || (1440 <? mins) then
          Err "interval must be between 1 and 1440 minutes"
        else Ok (id, mins)
      | strconv.Failed _ => Err "interval must be between 1 and 1440 minutes"
      end
    end
  | _ => Err "usage: /interval <id> <minutes>"
  end.

End WithQuote.

(** *** The texts of the replies (format.go) *)

Definition statusActive : string := "active".
Definition statusPaused : string := "paused".

(** The double quotation mark. *)
Definition dq : string := String (ascii_of_nat 34) EmptyString.

Definition scopeLabel (s : FilterScope) : string :=
  if String.eqb s ScopeTitle then "title only"
  else if String.eqb s ScopeContent then "content only"
  else "title+content".

(** [filterCounts[id]]: a map from feed IDs to the numbers of include and
    exclude filters, as the list of its assignments, the last one first; a
    key without entry has the zero value. *)
Fixpoint lookup_counts (filterCounts : list (Z * (Z * Z))) (id : Z) : Z * Z :=
  match filterCounts with
  | [] => (0, 0)
  | (k, v) :: rest => if k =? id then v else lookup_counts rest id
  end.

Definition status_of (f : Feed) : string :=
  if negb (Feed_IsActive f) then statusPaused else statusActive.

Fixpoint FormatFeedList_loop (feeds : list Feed) (filterCounts : list (Z * (Z * Z))) : string :=
  match feeds with
  | [] => EmptyString
  | f :: rest =>
    nl ++ "#" ++ itoa (Feed_ID f) ++ " " ++ Feed_Name f ++ "  (every "
       ++ itoa (Feed_IntervalMinutes f) ++ " min) [" ++ status_of f ++ "]" ++ nl
    ++ (let '(inc, exc) := lookup_counts filterCounts (Feed_ID f) in
        if (inc =? 0) && (exc =? 0) then "   no filters" ++ nl
        else "   " ++ itoa inc ++ " include, " ++ itoa exc ++ " exclude filters" ++ nl)
    ++ FormatFeedList_loop rest filterCounts
  end.

Definition FormatFeedList (feeds : list Feed) (filterCounts : list (Z * (Z * Z))) : string :=
  match feeds with
  | [] => "You have no feeds yet. Use /add <url> to add one."
  | _ => "Your feeds:" ++ nl ++ FormatFeedList_loop feeds filterCounts
  end.

Definition group (filters : list Filter) (kind : FilterKind) : list Filter :=
  List.filter (fun f => String.eqb (Filter_Kind f) kind) filters.

Fixpoint FormatFilterList_lines (fs : list Filter) : string :=
  match fs with
  | [] => EmptyString
  | f :: rest =>
    "  F" ++ itoa (Filter_ID f) ++ ": " ++ Filter_Value f ++ " ("
      ++ scopeLabel (Filter_Scope f) ++ ")" ++ nl
    ++ FormatFilterList_lines rest
  end.

Definition FormatFilterList_group (groupName : string) (fs : list Filter) : string :=
  match fs with
  | [] => EmptyString
  | _ => nl ++ groupName ++ ":" ++ nl ++ FormatFilterList_lines fs
  end.

Definition FormatFilterList (feed : Feed) (filters : list Filter) : string :=
  match filters with
  | [] =>
    "No filters for #" ++ itoa (Feed_ID feed) ++ " " ++ dq ++ Feed_Name feed ++ dq ++ "." ++ nl
    ++ "Use /include, /exclude, /include_re, /exclude_re to add filters."
  | _ =>
    "Filters for #" ++ itoa (Feed_ID feed) ++ " " ++ dq ++ Feed_Name feed ++ dq ++ ":" ++ nl
    ++ FormatFilterList_group "Include (word)" (group filters FilterInclude)
    ++ FormatFilterList_group "Include (regex)" (group filters FilterIncludeRe)
    ++ FormatFilterList_group "Exclude (word)" (group filters FilterExclude)
    ++ FormatFilterList_group "Exclude (regex)" (group filters FilterExcludeRe)
  end.

Section WithFmt.

Context {fmtlib : GoFmt}.

Definition FormatFeedInfo (feed : Feed) (filters : list Filter) : string :=
  "#" ++ itoa (Feed_ID feed) ++ " " ++ Feed_Name feed ++ " [" ++ status_of feed ++ "]" ++ nl
  ++ "URL: " ++ Feed_URL feed ++ nl
  ++ "Interval: every " ++ itoa (Feed_IntervalMinutes feed) ++ " min" ++ nl
  ++ match Feed_LastCheckAt feed with
     | Some t => "Last check: " ++ time_Format t "2006-01-02 15:04 UTC" ++ nl
     | None => EmptyString
     end
  ++ nl
  ++ FormatFilterList feed filters.

End WithFmt.

End bot.

(** ** SQLite, as far as the store's statements use it *)

Module sqlite.

(** A stored timestamp is text in the layout [2006-01-02T15:04:05Z]: a UTC
    instant with second precision.  It is represented by the number of
    seconds since the Unix epoch that the text denotes; the layout has four
    digits for the year, so the text exists for the years 0000 to 9999. *)
Definition Timestamp := Z.

Definition min_timestamp : Timestamp := -62167219200.   (* 0000-01-01T00:00:00Z *)
Definition max_timestamp : Timestamp := 253402300799.   (* 9999-12-31T23:59:59Z *)

Definition representable (t : Timestamp) : Prop :=
  min_timestamp <= t <= max_timestamp.

(** SQL truth values: [None] is NULL. *)
Definition tri := option bool.

Definition sql_and (a b : tri) : tri :=
  match a, b with
  | Some false, _ | _, Some false => Some false
  | Some true, Some true => Some true
  | _, _ => None
  end.

Definition sql_or (a b : tri) : tri :=
  match a, b with
  | Some true, _ | _, Some true => Some true
  | Some false, Some false => Some false
  | _, _ => None
  end.

Definition sql_is_null {A : Type} (a : option A) : tri :=
  Some (match a with None => true | Some _ => false end).

Definition sql_eq (a b : option Z) : tri :=
  match a, b with
  | Some x, Some y => Some (x =? y)
  | _, _ => None
  end.

Definition sql_le (a b : option Z) : tri :=
  match a, b with
  | Some x, Some y => Some (x <=? y)
  | _, _ => None
  end.

(** A row is selected when the WHERE clause is true (not false, not NULL). *)
Definition selected (t : tri) : bool :=
  match t with Some true => true | _ => false end.

(** [CAST(n AS TEXT)], which [||] applies to an integer operand. *)
Definition text_of_int (n : Z) : string := itoa n.

(** *** Date modifiers of the form [NNN unit]

    [parseModifier] of SQLite's date.c for a modifier that starts with a
    sign or a digit: the number runs to the first blank, must be read whole
    by [sqlite3AtoF], and is followed by a unit name with an optional
    plural [s].  The fragment modelled has integer numbers and the units of
    fixed length; [None] is a malformed modifier. *)

Definition isdigit (c : ascii) : bool :=
  (48 <=? nat_of_ascii c)%nat && (nat_of_ascii c <=? 57)%nat.

Definition isspace (c : ascii) : bool :=
  Ascii.eqb c " " || ((9 <=? nat_of_ascii c)%nat && (nat_of_ascii c <=? 13)%nat).

(** The characters up to the first blank, and the rest. *)
Fixpoint span_number (z : string) : string * string :=
  match z with
  | EmptyString => (EmptyString, EmptyString)
  | String c rest =>
    if isspace c then (EmptyString, z)
    else let '(num, tl) := span_number rest in (String c num, tl)
  end.

Fixpoint skip_spaces (z : string) : string :=
  match z with
  | String c rest => if isspace c then skip_spaces rest else z
  | EmptyString => EmptyString
  end.

(** [sqlite3AtoF] on an integer literal: an optional sign, then one or more
    digits and nothing else. *)
Definition atof_int (z : string) : option Z :=
  let '(neg, digits) :=
    match z with
    | String "+" rest => (false, rest)
    | String "-" rest => (true, rest)
    | _ => (false, z)
    end in
  match digits with
  | EmptyString => None
  | _ =>
    match NilEmpty.uint_of_string digits with
    | Some d => Some (if neg then - Z.of_uint d else Z.of_uint d)
    | None => None
    end
  end.

(** Seconds per unit, and the bound on [NNN] ([aXformType]). *)
Definition unit_seconds (name : string) : option (Z * Z) :=
  if String.eqb name "second" then Some (1, 464270000000000)
  else if String.eqb name "minute" then Some (60, 7737900000000)
  else if String.eqb name "hour" then Some (3600, 128970000000)
  else if String.eqb name "day" then Some (86400, 5373485)
  else None.

Definition strip_plural (name : string) : string :=
  let n := String.length name in
  match String.get (n - 1) name with
  | Some "s"%char => substring 0 (n - 1) name
  | _ => name
  end.

(** The shift, in seconds, that the modifier asks for. *)
Definition parseModifier (z : string) : option Z :=
  let '(num, rest) := span_number z in
  match atof_int num with
  | None => None
  | Some r =>
    let name := skip_spaces rest in
    let n := String.length name in
    if ((n <? 3) || (10 <? n))%nat then None
    else
      match unit_seconds (strip_plural name) with
      | Some (secs, limit) =>
        if (- limit <? r) && (r <? limit) then Some (r * secs) else None
      | None => None
      end
  end.

(** The instants SQLite's date functions accept ([validJulianDay]): from
    noon of -4713-11-24 to the end of 9999-12-31. *)
Definition validJulianDay (t : Z) : bool :=
  (-210866760000 <=? t) && (t <=? 253402300799).

Fixpoint apply_modifiers (t : Z) (mods : list string) : option Z :=
  match mods with
  | [] => Some t
  | m :: rest =>
    match parseModifier m with
    | Some shift => apply_modifiers (t + shift) rest
    | None => None
    end
  end.

(** [datetime(timevalue, modifier...)]: NULL for a NULL argument, a malformed
    modifier or a result out of range.  Its text, [YYYY-MM-DD HH:MM:SS], is
    again represented by the seconds it denotes; between texts of the years
    0000 to 9999 the comparison of the texts is the comparison of the
    instants. *)
Definition datetime (t : option Timestamp) (mods : list string) : option Timestamp :=
  match t with
  | None => None
  | Some t0 =>
    match apply_modifiers t0 mods with
    | Some t1 => if validJulianDay t1 then Some t1 else None
    | None => None
    end
  end.

(** What a statement does when a row to insert has the key of a row of the
    table: the default aborts the statement, [OR IGNORE] skips the row. *)
Inductive conflict := Abort | Ignore.

End sqlite.

(** ** Package storage: the SQLite store *)

Module storage.

Import sqlite.

(** [t.UTC().Format(timeLayout)] and [time.Parse(timeLayout, s)]. *)
Definition Format (t : Time) : Timestamp := t / 1000000000.
Definition Parse (s : Timestamp) : Time := s * 1000000000.

(** The tables of migrations/00001_init.sql. *)
Record feeds_row := mk_feeds_row {
  feeds_id : Z;
  feeds_chat_id : Z;
  feeds_name : string;
  feeds_url : string;
  feeds_interval_minutes : Z;
  feeds_is_active : Z;
  feeds_last_check_at : option Timestamp;
  feeds_created_at : Timestamp
}.

Record filters_row := mk_filters_row {
  filters_id : Z;
  filters_feed_id : Z;
  filters_kind : string;
  filters_scope : string;
  filters_value : string;
  filters_created_at : Timestamp
}.

Record seen_items_row := mk_seen_items_row {
  seen_feed_id : Z;
  seen_guid : string;
  seen_at : Timestamp
}.

Record DB := mkDB {
  feeds : list feeds_row;
  filters : list filters_row;
  seen_items : list seen_items_row
}.

Definition boolToInt (b : bool) : Z := if b then 1 else 0.

Definition scanFeed (r : feeds_row) : Feed :=
  {| Feed_ID := feeds_id r;
     Feed_ChatID := feeds_chat_id r;
     Feed_Name := feeds_name r;
     Feed_URL := feeds_url r;
     Feed_IntervalMinutes := feeds_interval_minutes r;
     Feed_IsActive := feeds_is_active r =? 1;
     Feed_LastCheckAt := option_map Parse (feeds_last_check_at r);
     Feed_CreatedAt := Parse (feeds_created_at r) |}.

Definition scanFeeds (rows : list feeds_row) : list Feed := map scanFeed rows.

Definition scanFilter (r : filters_row) : Filter :=
  {| Filter_ID := filters_id r;
     Filter_FeedID := filters_feed_id r;
     Filter_Kind := filters_kind r;
     Filter_Scope := filters_scope r;
     Filter_Value := filters_value r;
     Filter_CreatedAt := Parse (filters_created_at r) |}.

(** The WHERE clause of [ListDueFeeds], [now] being the bound parameter:
<<
   is_active = 1
   AND (last_check_at IS NULL
        OR datetime(last_check_at, '+' || interval_minutes || ' minutes') <= datetime(?))
>> *)
Definition due_where (now : Timestamp) (r : feeds_row) : tri :=
  sql_and
    (sql_eq (Some (feeds_is_active r)) (Some 1))
    (sql_or
      (sql_is_null (feeds_last_check_at r))
      (sql_le
        (datetime (feeds_last_check_at r)
                  ["+" ++ text_of_int (feeds_interval_minutes r) ++ " minutes"])
        (datetime (Some now) []))).

Definition ListDueFeeds (db : DB) (now : Time) : list Feed :=
  scanFeeds (List.filter (fun r => selected (due_where (Format now) r)) (feeds db)).

(** [UPDATE feeds SET name = ?, url = ?, interval_minutes = ?, is_active = ?,
    last_check_at = ? WHERE id = ?] *)
Definition UpdateFeed (db : DB) (feed : Feed) : DB :=
  let lastCheck := option_map Format (Feed_LastCheckAt feed) in
  let set (r : feeds_row) :=
    if feeds_id r =? Feed_ID feed then
      {| feeds_id := feeds_id r;
         feeds_chat_id := feeds_chat_id r;
         feeds_name := Feed_Name feed;
         feeds_url := Feed_URL feed;
         feeds_interval_minutes := Feed_IntervalMinutes feed;
         feeds_is_active := boolToInt (Feed_IsActive feed);
         feeds_last_check_at := lastCheck;
         feeds_created_at := feeds_created_at r |}
    else r in
  {| feeds := map set (feeds db); filters := filters db; seen_items := seen_items db |}.

(** [ORDER BY id] *)
Fixpoint insert_by_id (r : filters_row) (rows : list filters_row) : list filters_row :=
  match rows with
  | [] => [r]
  | r' :: rest =>
    if filters_id r <=? filters_id r' then r :: rows else r' :: insert_by_id r rest
  end.

Definition order_by_id (rows : list filters_row) : list filters_row :=
  fold_right insert_by_id [] rows.

(** [SELECT ... FROM filters WHERE feed_id = ? ORDER BY id] *)
Definition ListFilters (db : DB) (feedID : Z) : list Filter :=
  map scanFilter
    (order_by_id (List.filter (fun r => filters_feed_id r =? feedID) (filters db))).

(** The primary key of seen_items is (feed_id, guid). *)
Definition seen_key (feedID : Z) (guid : string) (r : seen_items_row) : bool :=
  (seen_feed_id r =? feedID) && String.eqb (seen_guid r) guid.

(** [INSERT [OR IGNORE] INTO seen_items (feed_id, guid) VALUES (?, ?)];
    seen_at takes its default, the time of the statement. *)
Definition insert_seen (on_conflict : conflict) (rows : list seen_items_row)
    (feedID : Z) (guid : string) (now : Timestamp) : result (list seen_items_row) :=
  if existsb (seen_key feedID guid) rows then
    match on_conflict with
    | Abort => Err "UNIQUE constraint failed: seen_items.feed_id, seen_items.guid"
    | Ignore => Ok rows
    end
  else Ok (rows ++ [mk_seen_items_row feedID guid now])%list.

Definition MarkSeen (db : DB) (feedID : Z) (guid : string) (now : Time) : error * DB :=
  match insert_seen Ignore (seen_items db) feedID guid (Format now) with
  | Err e => (Some (wrap "mark seen" e), db)
  | Ok rows => (None, {| feeds := feeds db; filters := filters db; seen_items := rows |})
  end.

(** [SELECT COUNT( * ) FROM seen_items WHERE feed_id = ? AND guid = ?] *)
Definition IsSeen (db : DB) (feedID : Z) (guid : string) : bool :=
  (0 <? List.length (List.filter (seen_key feedID guid) (seen_items db)))%nat.

(** The key constraints of the schema. *)
Definition feeds_pk (db : DB) : Prop := NoDup (map feeds_id (feeds db)).

Definition seen_items_pk (db : DB) : Prop :=
  NoDup (map (fun r => (seen_feed_id r, seen_guid r)) (seen_items db)).

End storage.

(** ** Package storage, continued: creating, reading and deleting

    The tables with an AUTOINCREMENT key keep, in sqlite_sequence, the
    largest rowid they ever held; a store is the database with these two
    counters. *)

Module crud.

Import sqlite storage.

Record Store := mkStore {
  tables : DB;
  feeds_seq : Z;
  filters_seq : Z
}.

Definition with_tables (s : Store) (d : DB) : Store :=
  mkStore d (feeds_seq s) (filters_seq s).

(** The largest of the rowids of a table and of its counter. *)
Definition largest (ids : list Z) (seq : Z) : Z := fold_right Z.max seq ids.

Definition max_rowid : Z := 9223372036854775807.

(** The rowid an AUTOINCREMENT key gives a new row: one more than the
    largest ever used; when that was the largest possible rowid the insert
    fails (SQLITE_FULL). *)
Definition next_rowid (ids : list Z) (seq : Z) : result Z :=
  if largest ids seq <? max_rowid then Ok (largest ids seq + 1)
  else Err "database or disk is full".

(** [CreateFeed]:
<<
   INSERT INTO feeds (chat_id, name, url, interval_minutes, is_active, created_at)
   VALUES (?, ?, ?, ?, ?, ?)
>>
    last_check_at is not among the columns and takes its default, NULL.
    The result is the feed as the method leaves it behind the pointer: ID
    and CreatedAt set, the other fields as the caller gave them. *)
Definition CreateFeed (s : Store) (feed : Feed) (now : Time) : result Feed * Store :=
  match next_rowid (map feeds_id (feeds (tables s))) (feeds_seq s) with
  | Err e => (Err (wrap "insert feed" e), s)
  | Ok id =>
    let r := mk_feeds_row id (Feed_ChatID feed) (Feed_Name feed) (Feed_URL feed)
               (Feed_IntervalMinutes feed) (boolToInt (Feed_IsActive feed)) None
               (Format now) in
    (Ok (mkFeed id (Feed_ChatID feed) (Feed_Name feed) (Feed_URL feed)
           (Feed_IntervalMinutes feed) (Feed_IsActive feed) (Feed_LastCheckAt feed)
           (Parse (Format now))),
     mkStore (mkDB (feeds (tables s) ++ [r]) (filters (tables s)) (seen_items (tables s)))
             id (filters_seq s))
  end.

(** [GetFeed]: [SELECT ... FROM feeds WHERE id = ?], the first row scanned;
    without a row [Scan] gives [sql.ErrNoRows]. *)
Definition GetFeed (d : DB) (id : Z) : result Feed :=
  match find (fun r => feeds_id r =? id) (feeds d) with
  | Some r => Ok (scanFeed r)
  | None => Err (wrap "scan feed" "sql: no rows in result set")
  end.

Fixpoint insert_feed_by_id (r : feeds_row) (rows : list feeds_row) : list feeds_row :=
  match rows with
  | [] => [r]
  | r' :: rest =>
    if feeds_id r <=? feeds_id r' then r :: rows else r' :: insert_feed_by_id r rest
  end.

(** [ListFeeds]: [SELECT ... FROM feeds WHERE chat_id = ? ORDER BY id] *)
Definition ListFeeds (d : DB) (chatID : Z) : list Feed :=
  scanFeeds
    (fold_right insert_feed_by_id []
       (List.filter (fun r => feeds_chat_id r =? chatID) (feeds d))).

(** [DeleteFeed]: in one transaction,
<<
   DELETE FROM seen_items WHERE feed_id = ?
   DELETE FROM filters WHERE feed_id = ?
   DELETE FROM feeds WHERE id = ?
>> *)
Definition DeleteFeed (d : DB) (id : Z) : DB :=
  {| feeds := List.filter (fun r => negb (feeds_id r =? id)) (feeds d);
     filters := List.filter (fun r => negb (filters_feed_id r =? id)) (filters d);
     seen_items := List.filter (fun r => negb (seen_feed_id r =? id)) (seen_items d) |}.

(** The CHECK constraints of the table filters. *)
Definition check_kind (kind : string) : bool :=
  String.eqb kind "include" || String.eqb kind "exclude" ||
  String.eqb kind "include_re" || String.eqb kind "exclude_re".

Definition check_scope (scope : string) : bool :=
  String.eqb scope "title" || String.eqb scope "content" || String.eqb scope "all".

(** [CreateFilter]:
    [INSERT INTO filters (feed_id, kind, scope, value, created_at) VALUES (?, ?, ?, ?, ?)].
    A row that violates a CHECK constraint is refused (the driver's message
    goes on to name the constraint). *)
Definition CreateFilter (s : Store) (f : Filter) (now : Time) : result Filter * Store :=
  if negb (check_kind (Filter_Kind f) && check_scope (Filter_Scope f)) then
    (Err (wrap "insert filter" "CHECK constraint failed"), s)
  else
    match next_rowid (map filters_id (filters (tables s))) (filters_seq s) with
    | Err e => (Err (wrap "insert filter" e), s)
    | Ok id =>
      let r := mk_filters_row id (Filter_FeedID f) (Filter_Kind f) (Filter_Scope f)
                 (Filter_Value f) (Format now) in
      (Ok (mkFilter id (Filter_FeedID f) (Filter_Kind f) (Filter_Scope f) (Filter_Value f)
             (Parse (Format now))),
       mkStore (mkDB (feeds (tables s)) (filters (tables s) ++ [r]) (seen_items (tables s)))
               (feeds_seq s) id)
    end.

(** [GetFilter]: [SELECT ... FROM filters WHERE id = ?] *)
Definition GetFilter (d : DB) (id : Z) : result Filter :=
  match find (fun r => filters_id r =? id) (filters d) with
  | Some r => Ok (scanFilter r)
  | None => Err (wrap "scan filter" "sql: no rows in result set")
  end.

(** [DeleteFilter]: [DELETE FROM filters WHERE id = ?] *)
Definition DeleteFilter (d : DB) (id : Z) : DB :=
  {| feeds := feeds d;
     filters := List.filter (fun r => negb (filters_id r =? id)) (filters d);
     seen_items := seen_items d |}.

(** The store of a new database, after the migration. *)
Definition empty : Store := mkStore (mkDB [] [] []) 0 0.

End crud.

(** ** Assignments to one field of a feed ([feed.Name = name] and the like) *)

Module assign.

Definition Name (feed : Feed) (name : string) : Feed :=
  mkFeed (Feed_ID feed) (Feed_ChatID feed) name (Feed_URL feed)
    (Feed_IntervalMinutes feed) (Feed_IsActive feed) (Feed_LastCheckAt feed)
    (Feed_CreatedAt feed).

Definition IntervalMinutes (feed : Feed) (mins : Z) : Feed :=
  mkFeed (Feed_ID feed) (Feed_ChatID feed) (Feed_Name feed) (Feed_URL feed)
    mins (Feed_IsActive feed) (Feed_LastCheckAt feed) (Feed_CreatedAt feed).

Definition IsActive (feed : Feed) (active : bool) : Feed :=
  mkFeed (Feed_ID feed) (Feed_ChatID feed) (Feed_Name feed) (Feed_URL feed)
    (Feed_IntervalMinutes feed) active (Feed_LastCheckAt feed) (Feed_CreatedAt feed).

Definition LastCheckAt (feed : Feed) (t : Time) : Feed :=
  mkFeed (Feed_ID feed) (Feed_ChatID feed) (Feed_Name feed) (Feed_URL feed)
    (Feed_IntervalMinutes feed) (Feed_IsActive feed) (Some t) (Feed_CreatedAt feed).

End assign.

(** ** The states a store goes through

    One step is one successful call of a method that writes; a store is
    reachable when such steps lead to it from the store of a new database. *)

Module history.

Import sqlite storage crud.

Inductive step : Store -> Store -> Prop :=
| step_CreateFeed (s s' : Store) (feed feed' : Feed) (now : Time) :
    CreateFeed s feed now = (Ok feed', s') -> step s s'
| step_UpdateFeed (s : Store) (feed : Feed) :
    step s (with_tables s (UpdateFeed (tables s) feed))
| step_DeleteFeed (s : Store) (id : Z) :
    step s (with_tables s (DeleteFeed (tables s) id))
| step_CreateFilter (s s' : Store) (f f' : Filter) (now : Time) :
    CreateFilter s f now = (Ok f', s') -> step s s'
| step_DeleteFilter (s : Store) (id : Z) :
    step s (with_tables s (DeleteFilter (tables s) id))
| step_MarkSeen (s : Store) (feedID : Z) (guid : string) (now : Time) :
    step s (with_tables s (snd (MarkSeen (tables s) feedID guid now))).

Inductive reachable : Store -> Prop :=
| reachable_empty : reachable empty
| reachable_step (s s' : Store) : reachable s -> step s s' -> reachable s'.

Definition filters_pk (d : DB) : Prop := NoDup (map filters_id (filters d)).

(** What the schema and the methods keep true of a store: the keys are
    unique; the rowids are positive and not above their counter; the filters
    pass their CHECK constraints; is_active is 0 or 1. *)
Record consistent (s : Store) : Prop := mkConsistent {
  unique_feeds : feeds_pk (tables s);
  unique_filters : filters_pk (tables s);
  unique_seen_items : seen_items_pk (tables s);
  feeds_counter : 0 <= feeds_seq s;
  filters_counter : 0 <= filters_seq s;
  feeds_in_range : forall r, In r (feeds (tables s)) -> 0 < feeds_id r <= feeds_seq s;
  filters_in_range : forall r, In r (filters (tables s)) -> 0 < filters_id r <= filters_seq s;
  filters_checked : forall r, In r (filters (tables s)) ->
    check_kind (filters_kind r) = true /\ check_scope (filters_scope r) = true;
  feeds_flag : forall r, In r (feeds (tables s)) ->
    feeds_is_active r = 0 \/ feeds_is_active r = 1
}.

End history.

(** ** Package scheduler

    One cycle, [checkAll], and what it calls.  [Run], which repeats the
    cycle on every tick until the context is cancelled, is not embedded. *)

Module scheduler.

Section WithLib.
Context {lib : GoLib}.

Local Open Scope prog_scope.

Definition millisecond : Z := 1000000.

Definition updateLastCheck (feed : Feed) : Prog unit :=
  now <- call time_Now ;;
  let feed :=
    {| Feed_ID := Feed_ID feed;
       Feed_ChatID := Feed_ChatID feed;
       Feed_Name := Feed_Name feed;
       Feed_URL := Feed_URL feed;
       Feed_IntervalMinutes := Feed_IntervalMinutes feed;
       Feed_IsActive := Feed_IsActive feed;
       Feed_LastCheckAt := Some now;
       Feed_CreatedAt := Feed_CreatedAt feed |} in
  err <- call (store_UpdateFeed feed) ;;
  match err with
  | Some e => call (slog "ERROR" "update last check" [("feed_id", itoa (Feed_ID feed)); ("error", e)])
  | None => Ret tt
  end.

(** The loop over the matched items of [processFeed]; [sent] is threaded
    through. *)
Fixpoint deliver (feed : Feed) (matched : list fetcher.MatchedItem) (sent : Z) : Prog Z :=
  match matched with
  | [] => Ret sent
  | item :: rest =>
    r <- call (store_IsSeen (Feed_ID feed) (fetcher.GUID item)) ;;
    match r with
    | Err e =>
      call (slog "ERROR" "check seen"
              [("feed_id", itoa (Feed_ID feed)); ("guid", fetcher.GUID item); ("error", e)]) ;;
      deliver feed rest sent
    | Ok true => deliver feed rest sent
    | Ok false =>
      let msg := bot.FormatNotification (Feed_Name feed) item in
      call (sender_SendMessage (Feed_ChatID feed) msg) ;;
      err <- call (store_MarkSeen (Feed_ID feed) (fetcher.GUID item)) ;;
      match err with
      | Some e =>
        call (slog "ERROR" "mark seen"
                [("feed_id", itoa (Feed_ID feed)); ("guid", fetcher.GUID item); ("error", e)])
      | None => Ret tt
      end ;;
      call (time_Sleep (50 * millisecond)) ;;
      deliver feed rest (sent + 1)
    end
  end.

Definition processFeed (feed : Feed) : Prog unit :=
  call (slog "DEBUG" "checking feed" [("feed_id", itoa (Feed_ID feed)); ("name", Feed_Name feed)]) ;;
  r <- fetcher.Fetch (Feed_URL feed) ;;
  match r with
  | Err e =>
    call (slog "ERROR" "fetch feed"
            [("feed_id", itoa (Feed_ID feed)); ("url", Feed_URL feed); ("error", e)]) ;;
    updateLastCheck feed
  | Ok rssFeed =>
    fr <- call (store_ListFilters (Feed_ID feed)) ;;
    match fr with
    | Err e =>
      call (slog "ERROR" "list filters" [("feed_id", itoa (Feed_ID feed)); ("error", e)])
    | Ok filters =>
      let matched := fetcher.FilterItems (gofeed.Feed_Items rssFeed) filters in
      sent <- deliver feed matched 0 ;;
      (if 0 <? sent then
         call (slog "INFO" "sent notifications"
                 [("feed_id", itoa (Feed_ID feed)); ("name", Feed_Name feed); ("count", itoa sent)])
       else Ret tt) ;;
      updateLastCheck feed
    end
  end.

(** The loop over the due feeds of [checkAll]. *)
Fixpoint checkAll_loop (feeds : list Feed) : Prog unit :=
  match feeds with
  | [] => Ret tt
  | feed :: rest =>
    cancelled <- call ctx_Err ;;
    if cancelled then Ret tt
    else processFeed feed ;; checkAll_loop rest
  end.

Definition checkAll : Prog unit :=
  r <- call store_ListDueFeeds ;;
  match r with
  | Err e => call (slog "ERROR" "list due feeds" [("error", e)])
  | Ok feeds => checkAll_loop feeds
  end.

End WithLib.

End scheduler.

(** ** An implementation of the interfaces

    The SQLite store over a database value, a transport that answers each
    request by a fixed function (as the mock transports of the tests do), a
    sender that records what it is given, a clock that [time.Sleep] advances,
    and a context with an optional deadline.  A call of the store may fail:
    [store_fault n] is the error, if any, of the store's [n]-th call, and a
    failed call leaves the database as it was. *)

Module harness.

Record World := mkWorld {
  db : storage.DB;
  clock : Time;
  deadline : option Time;
  transport : http.Request -> result http.Response;
  outbox : list (Z * string);
  logs : list (string * string * list (string * string));
  store_calls : nat;
  store_fault : nat -> option string
}.

Definition set_db (w : World) (d : storage.DB) : World :=
  mkWorld d (clock w) (deadline w) (transport w) (outbox w) (logs w) (store_calls w) (store_fault w).

Definition set_clock (w : World) (t : Time) : World :=
  mkWorld (db w) t (deadline w) (transport w) (outbox w) (logs w) (store_calls w) (store_fault w).

Definition push_outbox (w : World) (m : Z * string) : World :=
  mkWorld (db w) (clock w) (deadline w) (transport w) (outbox w ++ [m]) (logs w)
          (store_calls w) (store_fault w).

Definition push_log (w : World) (l : string * string * list (string * string)) : World :=
  mkWorld (db w) (clock w) (deadline w) (transport w) (outbox w) (logs w ++ [l])
          (store_calls w) (store_fault w).

Definition count_store_call (w : World) : World :=
  mkWorld (db w) (clock w) (deadline w) (transport w) (outbox w) (logs w)
          (S (store_calls w)) (store_fault w).

(** One call of the store: it fails as [store_fault] says, with the message
    the method wraps the driver's error in, or runs its statement. *)
Definition store_call {X : Type} (w : World) (fail : string -> X)
    (stmt : storage.DB -> X * storage.DB) : X * World :=
  match store_fault w (store_calls w) with
  | Some e => (fail e, count_store_call w)
  | None =>
    let '(x, d) := stmt (db w) in
    (x, set_db (count_store_call w) d)
  end.

Definition handle {X : Type} (op : Op X) (w : World) : X * World :=
  match op in Op X return X * World with
  | ctx_Err =>
    (match deadline w with Some d => d <=? clock w | None => false end, w)
  | slog level msg attrs => (tt, push_log w (level, msg, attrs))
  | client_Do req => (transport w req, w)
  | store_ListDueFeeds =>
    store_call w (fun e => Err (wrap "query due feeds" e))
      (fun d => (Ok (storage.ListDueFeeds d (clock w)), d))
  | store_ListFilters feedID =>
    store_call w (fun e => Err (wrap "query filters" e))
      (fun d => (Ok (storage.ListFilters d feedID), d))
  | store_UpdateFeed feed =>
    store_call w (fun e => Some (wrap "update feed" e))
      (fun d => (None, storage.UpdateFeed d feed))
  | store_IsSeen feedID guid =>
    store_call w (fun e => Err (wrap "check seen" e))
      (fun d => (Ok (storage.IsSeen d feedID guid), d))
  | store_MarkSeen feedID guid =>
    store_call w (fun e => Some (wrap "mark seen" e))
      (fun d => storage.MarkSeen d feedID guid (clock w))
  | sender_SendMessage chatID text => (tt, push_outbox w (chatID, text))
  | time_Now => (clock w, w)
  | time_Sleep d => (tt, set_clock w (clock w + d))
  end.

Fixpoint run {A : Type} (p : Prog A) (w : World) : A * World :=
  match p with
  | Ret a => (a, w)
  | Do op k => let '(x, w') := handle op w in run (k x) w'
  end.

Definition exec {A : Type} (p : Prog A) (w : World) : World := snd (run p w).

End harness.

(** ** Package bot: the commands (bot.go, handlers.go, callbacks.go)

    The bot answers one update at a time.  Its world is the world of the
    pipeline together with the two counters of the store and with the
    Telegram API: [harness.outbox] holds the messages given to the API, in
    order; [keyboards] the inline keyboards sent, each with the number of
    its message and its buttons (label and callback data); [api_fault n] is
    the error, if any, of the [n]-th call of [Send].  A handler is a
    function of the world that returns or panics. *)

Module handlers.

Record World := mkWorld {
  base : harness.World;
  feeds_seq : Z;
  filters_seq : Z;
  keyboards : list (nat * list (string * string));
  api_calls : nat;
  api_fault : nat -> option string
}.

Definition with_base (w : World) (b : harness.World) : World :=
  mkWorld b (feeds_seq w) (filters_seq w) (keyboards w) (api_calls w) (api_fault w).

Definition store (w : World) : crud.Store :=
  crud.mkStore (harness.db (base w)) (feeds_seq w) (filters_seq w).

Definition M (A : Type) : Type := World -> outcome (A * World).

Definition ret {A : Type} (a : A) : M A := fun w => Returns (a, w).

Definition bind {A B : Type} (m : M A) (k : A -> M B) : M B :=
  fun w =>
    match m w with
    | Returns (a, w') => k a w'
    | Panics msg => Panics msg
    end.

Definition lift {A : Type} (o : outcome A) : M A :=
  fun w =>
    match o with
    | Returns a => Returns (a, w)
    | Panics msg => Panics msg
    end.

Declare Scope bot_scope.
Delimit Scope bot_scope with bot.
Notation "x <- m ;; k" := (bind m (fun x => k))
  (at level 61, m at next level, right associativity) : bot_scope.
Notation "m ;; k" := (bind m (fun _ => k))
  (at level 61, right associativity) : bot_scope.

Local Open Scope bot_scope.

(** *** The logger, the API and the store *)

Definition slog (level msg : string) (attrs : list (string * string)) : M unit :=
  fun w => Returns (tt, with_base w (harness.push_log (base w) (level, msg, attrs))).

(** [b.api.Send]: the error of the call. *)
Definition api_Send : M error :=
  fun w =>
    Returns (api_fault w (api_calls w),
             mkWorld (base w) (feeds_seq w) (filters_seq w) (keyboards w)
                     (S (api_calls w)) (api_fault w)).

Definition to_outbox (chatID : Z) (text : string) : M unit :=
  fun w => Returns (tt, with_base w (harness.push_outbox (base w) (chatID, text))).

Definition SendMessage (chatID : Z) (text : string) : M unit :=
  to_outbox chatID text ;;
  err <- api_Send ;;
  match err with
  | Some e => slog "ERROR" "send message" [("chat_id", itoa chatID); ("error", e)]
  | None => ret tt
  end.

Definition reply (chatID : Z) (text : string) : M unit := SendMessage chatID text.

(** One call of the store, as [harness.store_call]: it fails as
    [store_fault] says and then changes nothing, or runs its statement. *)
Definition store_call {X : Type} (fail : string -> X)
    (stmt : Time -> crud.Store -> X * crud.Store) : M X :=
  fun w =>
    let b := harness.count_store_call (base w) in
    match harness.store_fault (base w) (harness.store_calls (base w)) with
    | Some e => Returns (fail e, with_base w b)
    | None =>
      let '(x, s) := stmt (harness.clock (base w)) (store w) in
      Returns (x, mkWorld (harness.set_db b (crud.tables s)) (crud.feeds_seq s)
                          (crud.filters_seq s) (keyboards w) (api_calls w) (api_fault w))
    end.

(** A statement that reads. *)
Definition query {X : Type} (q : storage.DB -> X) : Time -> crud.Store -> X * crud.Store :=
  fun _ s => (q (crud.tables s), s).

(** A statement that writes the tables. *)
Definition exec {X : Type} (x : X) (f : storage.DB -> storage.DB)
    : Time -> crud.Store -> X * crud.Store :=
  fun _ s => (x, crud.with_tables s (f (crud.tables s))).

Definition CreateFeed (feed : Feed) : M (result Feed) :=
  store_call (fun e => Err (wrap "insert feed" e)) (fun now s => crud.CreateFeed s feed now).

Definition GetFeed (id : Z) : M (result Feed) :=
  store_call (fun e => Err (wrap "scan feed" e)) (query (fun d => crud.GetFeed d id)).

Definition ListFeeds (chatID : Z) : M (result (list Feed)) :=
  store_call (fun e => Err (wrap "query feeds" e)) (query (fun d => Ok (crud.ListFeeds d chatID))).

Definition UpdateFeed (feed : Feed) : M error :=
  store_call (fun e => Some (wrap "update feed" e))
    (exec None (fun d => storage.UpdateFeed d feed)).

(** The transaction of [DeleteFeed] is one call: a failure, of whichever
    statement, leaves the tables as they were (the message is that of the
    first, [BeginTx]). *)
Definition DeleteFeed (id : Z) : M error :=
  store_call (fun e => Some (wrap "begin tx" e)) (exec None (fun d => crud.DeleteFeed d id)).

Definition CreateFilter (f : Filter) : M (result Filter) :=
  store_call (fun e => Err (wrap "insert filter" e)) (fun now s => crud.CreateFilter s f now).

Definition ListFilters (feedID : Z) : M (result (list Filter)) :=
  store_call (fun e => Err (wrap "query filters" e))
    (query (fun d => Ok (storage.ListFilters d feedID))).

Definition GetFilter (id : Z) : M (result Filter) :=
  store_call (fun e => Err (wrap "scan filter" e)) (query (fun d => crud.GetFilter d id)).

Definition DeleteFilter (id : Z) : M error :=
  store_call (fun e => Some (wrap "delete filter" e))
    (exec None (fun d => crud.DeleteFilter d id)).

Definition MarkSeen (feedID : Z) (guid : string) : M error :=
  store_call (fun e => Some (wrap "mark seen" e))
    (fun now s =>
       let '(err, d) := storage.MarkSeen (crud.tables s) feedID guid now in
       (err, crud.with_tables s d)).

Definition IsSeen (feedID : Z) (guid : string) : M (result bool) :=
  store_call (fun e => Err (wrap "check seen" e))
    (query (fun d => Ok (storage.IsSeen d feedID guid))).

Section WithLib.

Context {lib : GoLib} {fmtlib : GoFmt}.

(** [b.fetcher.Fetch], over the transport of the world. *)
Definition Fetch (url : string) : M (result gofeed.Feed) :=
  fun w =>
    let '(r, b) := harness.run (fetcher.Fetch url) (base w) in
    Returns (r, with_base w b).

(** *** handlers.go *)

Definition handleStart (chatID : Z) : M unit :=
  reply chatID "Welcome to RSS Notify Bot!

Subscribe to RSS feeds and get filtered notifications.

Quick start:
1. /add <url> — add an RSS feed
2. /include <id> <word> — add a whitelist filter
3. /exclude <id> <word> — add a blacklist filter

Use /help for the full command reference.".

Definition handleHelp (chatID : Z) : M unit :=
  reply chatID "Feed management:
/add <url> — add a new RSS feed
/list — show all feeds
/info <id> — feed details
/remove <id> — delete a feed
/rename <id> <name> — rename a feed
/interval <id> <min> — set check interval (1-1440)
/pause <id> — pause checking
/resume <id> — resume checking
/check <id> — force check now

Filter management:
/filters <id> — show filters for a feed
/include <id> [-s scope] <word> — whitelist word/phrase
/exclude <id> [-s scope] <word> — blacklist word/phrase
/include_re <id> [-s scope] <regex> — whitelist regex
/exclude_re <id> [-s scope] <regex> — blacklist regex
/rmfilter <filter_id> — remove a filter

Scope flag: -s title | content | all (default: all)".

(** The zero value of [time.Time]: the first instant of the year 1. *)
Definition zero_time : Time := -62135596800 * 1000000000.

Definition handleAdd (chatID : Z) (args : string) : M unit :=
  if String.eqb args EmptyString then reply chatID "Usage: /add <url>"
  else
    r <- Fetch args ;;
    match r with
    | Err e => reply chatID ("Failed to fetch feed: " ++ e)
    | Ok feed =>
      let name :=
        if String.eqb (gofeed.Feed_Title feed) EmptyString then args
        else gofeed.Feed_Title feed in
      let f := mkFeed 0 chatID name args 15 true None zero_time in
      r <- CreateFeed f ;;
      match r with
      | Err e => reply chatID ("Failed to save feed: " ++ e)
      | Ok f =>
        reply chatID
          ("Feed added successfully!" ++ bot.nl ++ "#" ++ itoa (Feed_ID f) ++ " "
           ++ Feed_Name f ++ " (every " ++ itoa (Feed_IntervalMinutes f) ++ " min)" ++ bot.nl
           ++ "URL: " ++ Feed_URL f ++ bot.nl
           ++ "No filters yet. Use /include, /exclude to add filters.")
      end
    end.

(** The numbers of include and of exclude filters among [filters]. *)
Fixpoint count_kinds (filters : list Filter) (inc exc : Z) : Z * Z :=
  match filters with
  | [] => (inc, exc)
  | fl :: rest =>
    if String.eqb (Filter_Kind fl) FilterInclude || String.eqb (Filter_Kind fl) FilterIncludeRe
    then count_kinds rest (inc + 1) exc
    else if String.eqb (Filter_Kind fl) FilterExclude
            || String.eqb (Filter_Kind fl) FilterExcludeRe
    then count_kinds rest inc (exc + 1)
    else count_kinds rest inc exc
  end.

(** The loop of [handleList] that fills the map [counts]. *)
Fixpoint handleList_counts (feeds : list Feed) (counts : list (Z * (Z * Z)))
    : M (list (Z * (Z * Z))) :=
  match feeds with
  | [] => ret counts
  | f :: rest =>
    r <- ListFilters (Feed_ID f) ;;
    match r with
    | Err _ => handleList_counts rest counts
    | Ok filters => handleList_counts rest ((Feed_ID f, count_kinds filters 0 0) :: counts)
    end
  end.

Definition handleList (chatID : Z) : M unit :=
  r <- ListFeeds chatID ;;
  match r with
  | Err e => reply chatID ("Error: " ++ e)
  | Ok feeds =>
    counts <- handleList_counts feeds [] ;;
    reply chatID (bot.FormatFeedList feeds counts)
  end.

Definition not_found (id : Z) : string := "Feed #" ++ itoa id ++ " not found.".

(** [filters, _ := b.store.ListFilters(ctx, id)] *)
Definition ListFilters_or_nil (feedID : Z) : M (list Filter) :=
  r <- ListFilters feedID ;;
  ret match r with
      | Ok filters => filters
      | Err _ => []
      end.

Definition handleInfo (chatID : Z) (args : string) : M unit :=
  r <- lift (bot.ParseIDArg args) ;;
  match r with
  | Err _ => reply chatID "Usage: /info <id>"
  | Ok id =>
    r <- GetFeed id ;;
    match r with
    | Err _ => reply chatID (not_found id)
    | Ok feed =>
      if negb (Feed_ChatID feed =? chatID) then reply chatID (not_found id)
      else
        filters <- ListFilters_or_nil (Feed_ID feed) ;;
        reply chatID (bot.FormatFeedInfo feed filters)
    end
  end.

(** [feed, err := b.store.GetFeed(ctx, id); if err != nil || feed.ChatID != chatID]:
    the feed, when there is one and it is of the chat. *)
Definition GetFeed_of (chatID id : Z) : M (option Feed) :=
  r <- GetFeed id ;;
  ret match r with
      | Err _ => None
      | Ok feed => if negb (Feed_ChatID feed =? chatID) then None else Some feed
      end.

Definition handleRemove (chatID : Z) (args : string) : M unit :=
  r <- lift (bot.ParseIDArg args) ;;
  match r with
  | Err _ => reply chatID "Usage: /remove <id>"
  | Ok id =>
    o <- GetFeed_of chatID id ;;
    match o with
    | None => reply chatID (not_found id)
    | Some feed =>
      err <- DeleteFeed id ;;
      match err with
      | Some e => reply chatID ("Error deleting feed: " ++ e)
      | None =>
        reply chatID ("Feed #" ++ itoa id ++ " " ++ bot.dq ++ Feed_Name feed ++ bot.dq
                      ++ " deleted.")
      end
    end
  end.

Definition handleRename (chatID : Z) (args : string) : M unit :=
  match bot.ParseRenameArgs args with
  | Err e => reply chatID e
  | Ok (id, name) =>
    o <- GetFeed_of chatID id ;;
    match o with
    | None => reply chatID (not_found id)
    | Some feed =>
      let feed := assign.Name feed name in
      err <- UpdateFeed feed ;;
      match err with
      | Some e => reply chatID ("Error: " ++ e)
      | None =>
        reply chatID ("Feed #" ++ itoa id ++ " renamed to " ++ bot.dq ++ name ++ bot.dq ++ ".")
      end
    end
  end.

Definition handleInterval (chatID : Z) (args : string) : M unit :=
  match bot.ParseIntervalArgs args with
  | Err e => reply chatID e
  | Ok (id, mins) =>
    o <- GetFeed_of chatID id ;;
    match o with
    | None => reply chatID (not_found id)
    | Some feed =>
      let feed := assign.IntervalMinutes feed mins in
      err <- UpdateFeed feed ;;
      match err with
      | Some e => reply chatID ("Error: " ++ e)
      | None =>
        reply chatID ("Feed #" ++ itoa id ++ " interval set to " ++ itoa mins ++ " min.")
      end
    end
  end.

(** [handlePause] and [handleResume] differ in the value given to
    [IsActive] and in their words. *)
Definition set_active (usage word : string) (active : bool) (chatID : Z) (args : string)
    : M unit :=
  r <- lift (bot.ParseIDArg args) ;;
  match r with
  | Err _ => reply chatID usage
  | Ok id =>
    o <- GetFeed_of chatID id ;;
    match o with
    | None => reply chatID (not_found id)
    | Some feed =>
      let feed := assign.IsActive feed active in
      err <- UpdateFeed feed ;;
      match err with
      | Some e => reply chatID ("Error: " ++ e)
      | None =>
        reply chatID ("Feed #" ++ itoa id ++ " " ++ bot.dq ++ Feed_Name feed ++ bot.dq
                      ++ " " ++ word ++ ".")
      end
    end
  end.

Definition handlePause : Z -> string -> M unit := set_active "Usage: /pause <id>" "paused" false.

Definition handleResume : Z -> string -> M unit :=
  set_active "Usage: /resume <id>" "resumed" true.

(** The first loop of [handleCheck]: the items not seen; an error of
    [IsSeen] counts as not seen. *)
Fixpoint handleCheck_new (feedID : Z) (matched : list fetcher.MatchedItem)
    : M (list fetcher.MatchedItem) :=
  match matched with
  | [] => ret []
  | item :: rest =>
    r <- IsSeen feedID (fetcher.GUID item) ;;
    let seen :=
      match r with
      | Ok seen => seen
      | Err _ => false
      end in
    newItems <- handleCheck_new feedID rest ;;
    ret (if negb seen then item :: newItems else newItems)
  end.

(** The second loop: each new item is sent, then marked. *)
Fixpoint handleCheck_send (chatID : Z) (feed : Feed) (newItems : list fetcher.MatchedItem)
    : M unit :=
  match newItems with
  | [] => ret tt
  | item :: rest =>
    reply chatID (bot.FormatNotification (Feed_Name feed) item) ;;
    _ <- MarkSeen (Feed_ID feed) (fetcher.GUID item) ;;
    handleCheck_send chatID feed rest
  end.

Definition handleCheck (chatID : Z) (args : string) : M unit :=
  r <- lift (bot.ParseIDArg args) ;;
  match r with
  | Err _ => reply chatID "Usage: /check <id>"
  | Ok id =>
    o <- GetFeed_of chatID id ;;
    match o with
    | None => reply chatID (not_found id)
    | Some feed =>
      r <- Fetch (Feed_URL feed) ;;
      match r with
      | Err e => reply chatID ("Failed to fetch: " ++ e)
      | Ok rssFeed =>
        filters <- ListFilters_or_nil (Feed_ID feed) ;;
        let matched := fetcher.FilterItems (gofeed.Feed_Items rssFeed) filters in
        newItems <- handleCheck_new (Feed_ID feed) matched ;;
        match newItems with
        | [] =>
          reply chatID ("No new matching items in #" ++ itoa (Feed_ID feed) ++ " "
                        ++ bot.dq ++ Feed_Name feed ++ bot.dq ++ ".")
        | _ =>
          handleCheck_send chatID feed newItems ;;
          reply chatID ("Found " ++ itoa (Z.of_nat (List.length newItems))
                        ++ " new item(s) in #" ++ itoa (Feed_ID feed) ++ " "
                        ++ bot.dq ++ Feed_Name feed ++ bot.dq ++ ".")
        end
      end
    end
  end.

Definition handleFilters (chatID : Z) (args : string) : M unit :=
  r <- lift (bot.ParseIDArg args) ;;
  match r with
  | Err _ => reply chatID "Usage: /filters <id>"
  | Ok id =>
    o <- GetFeed_of chatID id ;;
    match o with
    | None => reply chatID (not_found id)
    | Some feed =>
      filters <- ListFilters_or_nil (Feed_ID feed) ;;
      reply chatID (bot.FormatFilterList feed filters)
    end
  end.

Definition handleAddFilter (chatID : Z) (args : string) (kind : string) : M unit :=
  match bot.ParseFilterCommand args with
  | Err e => reply chatID e
  | Ok parsed =>
    o <- GetFeed_of chatID (bot.FilterArgs_FeedID parsed) ;;
    match o with
    | None => reply chatID (not_found (bot.FilterArgs_FeedID parsed))
    | Some feed =>
      match
        (if String.eqb kind FilterIncludeRe || String.eqb kind FilterExcludeRe
         then filter.ValidateRegex (bot.FilterArgs_Value parsed) else None)
      with
      | Some e => reply chatID ("Invalid regex: " ++ e)
      | None =>
        let f := mkFilter 0 (bot.FilterArgs_FeedID parsed) kind (bot.FilterArgs_Scope parsed)
                   (bot.FilterArgs_Value parsed) zero_time in
        r <- CreateFilter f ;;
        match r with
        | Err e => reply chatID ("Error: " ++ e)
        | Ok f =>
          reply chatID ("Filter F" ++ itoa (Filter_ID f) ++ " added to #" ++ itoa (Feed_ID feed)
                        ++ " " ++ bot.dq ++ Feed_Name feed ++ bot.dq ++ ": " ++ kind ++ " "
                        ++ bot.FilterArgs_Value parsed ++ " ("
                        ++ bot.scopeLabel (bot.FilterArgs_Scope parsed) ++ ")")
        end
      end
    end
  end.

Definition filter_not_found (id : Z) : string := "Filter F" ++ itoa id ++ " not found.".

Definition handleRmFilter (chatID : Z) (args : string) : M unit :=
  r <- lift (bot.ParseIDArg args) ;;
  match r with
  | Err _ => reply chatID "Usage: /rmfilter <filter_id>"
  | Ok id =>
    r <- GetFilter id ;;
    match r with
    | Err _ => reply chatID (filter_not_found id)
    | Ok f =>
      o <- GetFeed_of chatID (Filter_FeedID f) ;;
      match o with
      | None => reply chatID (filter_not_found id)
      | Some feed =>
        err <- DeleteFilter id ;;
        match err with
        | Some e => reply chatID ("Error: " ++ e)
        | None =>
          reply chatID ("Filter F" ++ itoa id ++ " removed from #" ++ itoa (Feed_ID feed)
                        ++ " " ++ bot.dq ++ Feed_Name feed ++ bot.dq ++ ".")
        end
      end
    end
  end.

(** *** bot.go: a command

    [cmd] and [arguments] are what [msg.Command()] and
    [msg.CommandArguments()] return. *)

Definition cmdCheck : string := "check".
Definition cmdFilters : string := "filters".
Definition cmdRmFilter : string := "rmfilter".

Definition handleCommand (cmd arguments : string) (chatID : Z) : M unit :=
  let args := strings.TrimSpace arguments in
  slog "DEBUG" "command" [("cmd", cmd); ("args", args); ("chat_id", itoa chatID)] ;;
  if String.eqb cmd "start" then handleStart chatID
  else if String.eqb cmd "help" then handleHelp chatID
  else if String.eqb cmd "add" then handleAdd chatID args
  else if String.eqb cmd "list" then handleList chatID
  else if String.eqb cmd "info" then handleInfo chatID args
  else if String.eqb cmd "remove" then handleRemove chatID args
  else if String.eqb cmd "rename" then handleRename chatID args
  else if String.eqb cmd "interval" then handleInterval chatID args
  else if String.eqb cmd "pause" then handlePause chatID args
  else if String.eqb cmd "resume" then handleResume chatID args
  else if String.eqb cmd cmdCheck then handleCheck chatID args
  else if String.eqb cmd cmdFilters then handleFilters chatID args
  else if String.eqb cmd "include" then handleAddFilter chatID args "include"
  else if String.eqb cmd "exclude" then handleAddFilter chatID args "exclude"
  else if String.eqb cmd "include_re" then handleAddFilter chatID args "include_re"
  else if String.eqb cmd "exclude_re" then handleAddFilter chatID args "exclude_re"
  else if String.eqb cmd cmdRmFilter then handleRmFilter chatID args
  else reply chatID "Unknown command. Use /help for a list of commands.".

(** *** callbacks.go

    A callback query, as far as the code reads it; [Callback_ChatID] is
    [cb.Message.Chat.ID]. *)

Record CallbackQuery := mkCallbackQuery {
  Callback_ID : string;
  Callback_Data : string;
  Callback_ChatID : Z;
  Callback_FromID : Z;
  Callback_UserName : string
}.

(** The message that asks to confirm a removal, with its keyboard. *)
Definition send_confirmation (chatID id : Z) (feed : Feed) : M unit :=
  (fun w =>
     Returns (tt, mkWorld (base w) (feeds_seq w) (filters_seq w)
                    (keyboards w ++
                     [(List.length (harness.outbox (base w)),
                       [("Yes, delete", ("delete:" ++ itoa id)%string); ("Cancel", "noop:0")])])%list
                    (api_calls w) (api_fault w))) ;;
  to_outbox chatID ("Delete #" ++ itoa id ++ " " ++ bot.dq ++ Feed_Name feed ++ bot.dq
                    ++ "? This cannot be undone.") ;;
  err <- api_Send ;;
  match err with
  | Some e => slog "ERROR" "send delete confirmation" [("error", e)]
  | None => ret tt
  end.

Definition handleCallback (cb : CallbackQuery) : M unit :=
  let data := Callback_Data cb in
  let chatID := Callback_ChatID cb in
  err <- api_Send ;;
  match err with
  | Some e => slog "ERROR" "send callback ack" [("error", e)]
  | None => ret tt
  end ;;
  match strings.SplitN data ":" 2 with
  | [action; idStr] =>
    match strconv.ParseInt idStr with
    | strconv.Failed _ => ret tt
    | strconv.Parsed id =>
      slog "INFO" "callback"
        [("action", action); ("id", itoa id); ("chat_id", itoa chatID);
         ("user_id", itoa (Callback_FromID cb)); ("username", Callback_UserName cb)] ;;
      if String.eqb action cmdFilters then handleFilters chatID idStr
      else if String.eqb action cmdCheck then handleCheck chatID idStr
      else if String.eqb action "delete_confirm" then
        o <- GetFeed_of chatID id ;;
        match o with
        | None => reply chatID (not_found id)
        | Some feed => send_confirmation chatID id feed
        end
      else if String.eqb action "delete" then handleRemove chatID idStr
      else if String.eqb action cmdRmFilter then handleRmFilter chatID idStr
      else ret tt
    end
  | _ => ret tt
  end.

(** *** bot.go: one update

    An update, as far as [Run] reads it: [Message_IsCommand],
    [Message_Command] and [Message_CommandArguments] are what the methods of
    the message return. *)

Record Message := mkMessage {
  Message_IsCommand : bool;
  Message_Command : string;
  Message_CommandArguments : string;
  Message_FromID : Z;
  Message_ChatID : Z
}.

Record Update := mkUpdate {
  Update_CallbackQuery : option CallbackQuery;
  Update_Message : option Message
}.

(** The body of the loop of [Run] for an update received. *)
Definition Run_update (cfg : config.Config) (update : Update) : M unit :=
  match Update_CallbackQuery update with
  | Some cb => handleCallback cb
  | None =>
    match Update_Message update with
    | None => ret tt
    | Some msg =>
      if negb (Message_IsCommand msg) then ret tt
      else if negb (config.IsUserAllowed cfg (Message_FromID msg)) then
        reply (Message_ChatID msg) "Access denied."
      else
        handleCommand (Message_Command msg) (Message_CommandArguments msg)
          (Message_ChatID msg)
    end
  end.

End WithLib.

End handlers.

(** ** A library instance to run the code on

    The theorems below hold for every [GoLib].  To evaluate the code on
    concrete inputs, this instance gives: lower-casing of the ASCII letters,
    a regular-expression engine for a fragment of the RE2 syntax (literals,
    [.], classes, groups, [|], [*], [+], [?], under the flag [(?i)]), the
    control-character check of [url.Parse], and a feed parser that knows a
    table of documents, in the manner of the fixtures of the tests. *)

Module testlib.

Definition lower (c : ascii) : ascii :=
  let n := nat_of_ascii c in
  if ((65 <=? n) && (n <=? 90))%nat then ascii_of_nat (n + 32) else c.

Fixpoint ToLower (s : string) : string :=
  match s with
  | EmptyString => EmptyString
  | String c rest => String (lower c) (ToLower rest)
  end.

Inductive re : Type :=
| Nothing
| Eps
| Chr (c : ascii)
| Any
| Class (cs : list ascii)
| Cat (a b : re)
| Alt (a b : re)
| Star (a : re).

Fixpoint nullable (r : re) : bool :=
  match r with
  | Nothing | Chr _ | Any | Class _ => false
  | Eps | Star _ => true
  | Cat a b => nullable a && nullable b
  | Alt a b => nullable a || nullable b
  end.

(** The derivative of [r] by the character [x] (letters compare without
    case). *)
Fixpoint deriv (x : ascii) (r : re) : re :=
  match r with
  | Nothing | Eps => Nothing
  | Chr c => if Ascii.eqb (lower x) (lower c) then Eps else Nothing
  | Any => if Ascii.eqb x (ascii_of_nat 10) then Nothing else Eps
  | Class cs => if existsb (fun c => Ascii.eqb (lower x) (lower c)) cs then Eps else Nothing
  | Cat a b =>
    if nullable a then Alt (Cat (deriv x a) b) (deriv x b) else Cat (deriv x a) b
  | Alt a b => Alt (deriv x a) (deriv x b)
  | Star a => Cat (deriv x a) (Star a)
  end.

(** Some prefix of [s] matches [r]. *)
Fixpoint match_prefix (r : re) (s : string) : bool :=
  nullable r ||
  match s with
  | EmptyString => false
  | String c rest => match_prefix (deriv c r) rest
  end.

(** [MatchString]: some substring of [s] matches [r]. *)
Fixpoint search (r : re) (s : string) : bool :=
  match_prefix r s ||
  match s with
  | EmptyString => false
  | String _ rest => search r rest
  end.

Fixpoint parse_class (s : string) (acc : list ascii) : result (re * string) :=
  match s with
  | EmptyString => Err "missing closing ]"
  | String "]" rest => Ok (Class acc, rest)
  | String c rest => parse_class rest (acc ++ [c])%list
  end.

Definition is_repeat (c : ascii) : bool :=
  Ascii.eqb c "*" || Ascii.eqb c "+" || Ascii.eqb c "?".

Definition repeat_of (c : ascii) (r : re) : re :=
  if Ascii.eqb c "*" then Star r
  else if Ascii.eqb c "+" then Cat r (Star r)
  else Alt Eps r.

Definition parse_repeat (r : re) (s : string) : result (re * string) :=
  match s with
  | String c rest =>
    if is_repeat c then
      match rest with
      | String c' _ =>
        if Ascii.eqb c' "*" || Ascii.eqb c' "+" then Err "invalid nested repetition operator"
        else Ok (repeat_of c r, rest)
      | EmptyString => Ok (repeat_of c r, rest)
      end
    else Ok (r, s)
  | EmptyString => Ok (r, s)
  end.

Fixpoint parse_alt (fuel : nat) (s : string) : result (re * string) :=
  match fuel with
  | O => Err "expression nests too deeply"
  | S fuel' =>
    match parse_cat fuel' s with
    | Err e => Err e
    | Ok (r, String "|" rest) =>
      match parse_alt fuel' rest with
      | Err e => Err e
      | Ok (r', rest') => Ok (Alt r r', rest')
      end
    | Ok (r, rest) => Ok (r, rest)
    end
  end
with parse_cat (fuel : nat) (s : string) : result (re * string) :=
  match fuel with
  | O => Err "expression nests too deeply"
  | S fuel' =>
    match s with
    | EmptyString | String "|" _ | String ")" _ => Ok (Eps, s)
    | _ =>
      match parse_atom fuel' s with
      | Err e => Err e
      | Ok (r, rest) =>
        match parse_repeat r rest with
        | Err e => Err e
        | Ok (r1, rest1) =>
          match parse_cat fuel' rest1 with
          | Err e => Err e
          | Ok (r2, rest2) => Ok (Cat r1 r2, rest2)
          end
        end
      end
    end
  end
with parse_atom (fuel : nat) (s : string) : result (re * string) :=
  match fuel with
  | O => Err "expression nests too deeply"
  | S fuel' =>
    match s with
    | EmptyString => Err "unexpected end"
    | String "(" rest =>
      match parse_alt fuel' rest with
      | Err e => Err e
      | Ok (r, String ")" rest') => Ok (r, rest')
      | Ok _ => Err "missing closing )"
      end
    | String "[" rest => parse_class rest []
    | String "." rest => Ok (Any, rest)
    | String "\" (String c rest) => Ok (Chr c, rest)
    | String "\" EmptyString => Err "trailing backslash at end of expression"
    | String c rest =>
      if is_repeat c then Err "missing argument to repetition operator"
      else Ok (Chr c, rest)
    end
  end.

Definition Compile (expr : string) : result Regexp :=
  if strings.HasPrefix expr "(?i)" then
    let body := substring 4 (String.length expr - 4) expr in
    match parse_alt (4 * String.length body + 4) body with
    | Err e => Err ("error parsing regexp: " ++ e)
    | Ok (r, EmptyString) => Ok (search r)
    | Ok (_, _) => Err "error parsing regexp: unexpected )"
    end
  else Err "error parsing regexp: flags other than (?i) are not supported".

Definition iscntrl (c : ascii) : bool :=
  ((nat_of_ascii c <? 32) || (nat_of_ascii c =? 127))%nat.

Definition ParseURL (u : string) : error :=
  if existsb iscntrl (list_ascii_of_string u)
  then Some ("parse: net/url: invalid control character in URL") else None.

Fixpoint lookup (docs : list (string * gofeed.Feed)) (body : string) : result gofeed.Feed :=
  match docs with
  | [] => Err "Failed to detect feed type"
  | (doc, feed) :: rest => if String.eqb doc body then Ok feed else lookup rest body
  end.

Definition lib (docs : list (string * gofeed.Feed)) : GoLib :=
  {| strings_ToLower := ToLower;
     regexp_Compile := Compile;
     url_Parse := ParseURL;
     gofeed_ParseString := lookup docs |}.

(** [strconv.Quote], taking the characters beyond ASCII that are encoded
    well for printable. *)
Definition hex2 (b : Z) : string :=
  String (fmt.hexdigit (b / 16)) (String (fmt.hexdigit (b mod 16)) EmptyString).

Definition quote_rune (c : Z * string) : string :=
  let '(r, b) := c in
  let bs := String (ascii_of_nat 92) EmptyString in
  if (r =? utf8.RuneError) && (utf8.len b =? 1) then bs ++ "x" ++ hex2 (utf8.nth_byte b 0)
  else if (r =? 34) || (r =? 92) then bs ++ b
  else if r =? 7 then bs ++ "a"
  else if r =? 8 then bs ++ "b"
  else if r =? 12 then bs ++ "f"
  else if r =? 10 then bs ++ "n"
  else if r =? 13 then bs ++ "r"
  else if r =? 9 then bs ++ "t"
  else if r =? 11 then bs ++ "v"
  else if (r <? 32) || (r =? 127) then bs ++ "x" ++ hex2 r
  else b.

Definition Quote (s : string) : string :=
  bot.dq ++ fold_right (fun c acc => quote_rune c ++ acc) EmptyString (utf8.runes s) ++ bot.dq.

(** The date of a day counted from 1970-01-01, in the proleptic Gregorian
    calendar: year, month, day. *)
Definition civil (days : Z) : Z * Z * Z :=
  let z := days + 719468 in
  let era := z / 146097 in
  let doe := z - era * 146097 in
  let yoe := (doe - doe / 1460 + doe / 36524 - doe / 146096) / 365 in
  let doy := doe - (365 * yoe + yoe / 4 - yoe / 100) in
  let mp := (5 * doy + 2) / 153 in
  let d := doy - (153 * mp + 2) / 5 + 1 in
  let m := if mp <? 10 then mp + 3 else mp - 9 in
  (yoe + era * 400 + (if m <=? 2 then 1 else 0), m, d).

Fixpoint zeros (n : nat) : string :=
  match n with
  | O => EmptyString
  | S k => String "0" (zeros k)
  end.

Definition pad (width : nat) (n : Z) : string :=
  let s := itoa n in
  zeros (width - String.length s) ++ s.

(** [t.Format(layout)] for the layout of [FormatFeedInfo], the only one the
    code formats with; another layout is returned as it is. *)
Definition Format (t : Time) (layout : string) : string :=
  if String.eqb layout "2006-01-02 15:04 UTC" then
    let secs := t / 1000000000 in
    let '(y, m, d) := civil (secs / 86400) in
    let rest := secs mod 86400 in
    pad 4 y ++ "-" ++ pad 2 m ++ "-" ++ pad 2 d ++ " "
    ++ pad 2 (rest / 3600) ++ ":" ++ pad 2 (rest mod 3600 / 60) ++ " UTC"
  else layout.

Definition fmtlib : GoFmt := {| strconv_Quote := Quote; time_Format := Format |}.

End testlib.

(** * Definitions for the statements

    The properties of the specification in its own words, and the inputs
    the code is evaluated on. *)

Module spec.

Import filter sqlite storage harness.

(** ** The matcher *)

(** The composition law in the words of the specification. *)
Definition noIncludesOrAnyIncludeMatches {lib : GoLib} (item : FeedItem) (filters : list Filter) : bool :=
  negb (existsb isInclude filters) ||
  existsb (fun f => isInclude f && matchesFilter item f) filters.

Definition noExcludeMatches {lib : GoLib} (item : FeedItem) (filters : list Filter) : bool :=
  negb (existsb (fun f => isExclude f && matchesFilter item f) filters).

(** ** Item identity and descriptions *)

(** The identity derivation in the words of the specification: the raw
    identifier if it is not empty, else ["sha256:"] and the first 32
    characters of the lowercase hex digest of [title + "|" + link]. *)
Definition spec_guid (rawGuid title link : string) : string :=
  if String.eqb rawGuid "" then
    "sha256:" ++ substring 0 32 (fmt.hex (sha256.Sum256 (title ++ "|" ++ link)))
  else rawGuid.

Definition is_lower_hex (c : ascii) : bool :=
  let n := nat_of_ascii c in
  ((48 <=? n) && (n <=? 57) || (97 <=? n) && (n <=? 102))%nat.

(** The description of a matched item, as [FilterItems] computes it. *)
Definition truncated (desc : string) : string :=
  if (300 <? String.length desc)%nat then substring 0 300 desc ++ "..." else desc.

(** Characters of a UTF-8 text: every byte but the continuation bytes
    [10xxxxxx] starts one. *)
Definition is_continuation (c : ascii) : bool :=
  ((128 <=? nat_of_ascii c) && (nat_of_ascii c <? 192))%nat.

Fixpoint RuneCount (s : string) : nat :=
  match s with
  | EmptyString => 0
  | String c rest => (if is_continuation c then 0 else 1) + RuneCount rest
  end.

(** A necessary condition of well-formed UTF-8: every lead byte is followed
    by as many continuation bytes as it announces. *)
Fixpoint well_formed (pending : nat) (s : string) : bool :=
  match s with
  | EmptyString => (pending =? 0)%nat
  | String c rest =>
    let n := nat_of_ascii c in
    match pending with
    | O =>
      if (n <? 128)%nat then well_formed 0 rest
      else if ((194 <=? n) && (n <? 224))%nat then well_formed 1 rest
      else if ((224 <=? n) && (n <? 240))%nat then well_formed 2 rest
      else if ((240 <=? n) && (n <? 245))%nat then well_formed 3 rest
      else false
    | S p => if is_continuation c then well_formed p rest else false
    end
  end.

Fixpoint repeat_string (s : string) (n : nat) : string :=
  match n with
  | O => EmptyString
  | S n' => s ++ repeat_string s n'
  end.

(** The Cyrillic letter U+044F, two bytes in UTF-8. *)
Definition ya : string := String (ascii_of_nat 209) (String (ascii_of_nat 143) EmptyString).

(** A description of 151 characters in 301 bytes. *)
Definition short_cyrillic : string := "a" ++ repeat_string ya 150.

(** ** The retriever *)

(** The request [Fetch] sends. *)
Definition request (url : string) : http.Request :=
  http.mkRequest http.MethodGet url [("User-Agent", "RSSNotifyBot/1.0")].

Definition body_limit : N := 5 * 1024 * 1024.

(** ** The ledger *)

Definition second : Z := 1000000000.
Definition minute : Z := 60 * second.

(** The due predicate of the specification, on a feed as the store returns
    it: active, and never checked or last checked at least its own interval
    before [now]. *)
Definition isDue (now : Time) (f : Feed) : bool :=
  Feed_IsActive f &&
  match Feed_LastCheckAt f with
  | None => true
  | Some t => t + Feed_IntervalMinutes f * minute <=? now
  end.

(** What the proof asks of a row: the interval is not negative (the command
    surface keeps it within 1..1440 minutes), and the last check is a time
    that [timeLayout] can write. *)
Definition row_ok (r : feeds_row) : Prop :=
  0 <= feeds_interval_minutes r /\
  match feeds_last_check_at r with
  | Some t => representable t
  | None => True
  end.

(** ** The poller *)

(** The row of a feed with its last check set, all else as it was. *)
Definition with_last_check (r : feeds_row) (t : Timestamp) : feeds_row :=
  {| feeds_id := feeds_id r;
     feeds_chat_id := feeds_chat_id r;
     feeds_name := feeds_name r;
     feeds_url := feeds_url r;
     feeds_interval_minutes := feeds_interval_minutes r;
     feeds_is_active := feeds_is_active r;
     feeds_last_check_at := Some t;
     feeds_created_at := feeds_created_at r |}.

Definition debug_entry (feed : Feed) : string * string * list (string * string) :=
  ("DEBUG", "checking feed", [("feed_id", itoa (Feed_ID feed)); ("name", Feed_Name feed)]).

(** A store none of whose calls fails. *)
Definition no_faults (w : World) : Prop := forall n, store_fault w n = None.

End spec.

Module fixtures.

Import sqlite storage harness spec.

(** A response with status 201 and a body that parses. *)
Definition sample_doc : string := "<rss><channel><title>DevOps Weekly</title></channel></rss>".
Definition sample_feed : gofeed.Feed := gofeed.mkFeed "DevOps Weekly" [].

Definition world_answering (status : Z) (body : string) : World :=
  {| db := storage.mkDB [] [] [];
     clock := 0;
     deadline := None;
     transport := fun _ => Ok (http.mkResponse status (http.mkBody body None));
     outbox := [];
     logs := [];
     store_calls := 0;
     store_fault := fun _ => None |}.

(** A feed of five items in the manner of the fixture of the tests. *)
Definition items : list gofeed.Item :=
  [ gofeed.mkItem "Kubernetes 1.32 Released" "Sidecar containers are stable." "https://devops.example.com/1" "item-1";
    gofeed.mkItem "Docker Desktop Update" "Faster builds." "https://devops.example.com/2" "item-2";
    gofeed.mkItem "DevOps Job Vacancy at BigCorp" "Apply now." "https://devops.example.com/3" "item-3";
    gofeed.mkItem "Helm Chart Best Practices" "Packaging for Kubernetes." "https://devops.example.com/4" "item-4";
    gofeed.mkItem "Online Course: K8s Training for Beginners" "Learn Kubernetes in a week." "https://devops.example.com/5" "item-5" ].

Definition rss_feed : gofeed.Feed := gofeed.mkFeed "DevOps Weekly" items.
Definition rss_doc : string := "<rss><channel><title>DevOps Weekly</title><item/><item/><item/><item/><item/></channel></rss>".

Definition lib : GoLib := testlib.lib [(rss_doc, rss_feed)].

(** 2026-01-01T00:00:00.5Z *)
Definition t0 : Time := 1767225600 * second + 500000000.

Definition row : feeds_row :=
  mk_feeds_row 1 100 "DevOps Weekly" "https://devops.example.com/rss" 15 1 None 1767139200.

Definition feed : Feed := scanFeed row.

Definition answer (status : Z) (body : string) : http.Request -> result http.Response :=
  fun _ => Ok (http.mkResponse status (http.mkBody body None)).

Definition world (d : DB) (tr : http.Request -> result http.Response)
    (fault : nat -> option string) : World :=
  mkWorld d t0 None tr [] [] 0 fault.

Definition no_fault : nat -> option string := fun _ => None.

Definition filter_row (id : Z) (kind value : string) : filters_row :=
  mk_filters_row id 1 kind ScopeAll value 1767139200.

Definition bad_regex : Filter := mkFilter 2 1 FilterIncludeRe ScopeAll "[invalid" 0.
Definition word_filter : Filter := mkFilter 1 1 FilterInclude ScopeAll "kubernetes" 0.
Definition k8s_item : filter.FeedItem := filter.mkFeedItem "Kubernetes 1.32 Released" "".

(** The table of the store's test: never checked, checked 30 minutes ago,
    checked 2 minutes ago, inactive. *)
Definition due_table : list feeds_row :=
  [ mk_feeds_row 1 1 "A" "https://a.com" 15 1 None 1767139200;
    mk_feeds_row 2 1 "B" "https://b.com" 15 1 (Some (1767225600 - 30 * 60)) 1767139200;
    mk_feeds_row 3 1 "C" "https://c.com" 15 1 (Some (1767225600 - 2 * 60)) 1767139200;
    mk_feeds_row 4 1 "D" "https://d.com" 15 0 None 1767139200 ].

(** The store fails on its first call. *)
Definition first_call_fails : nat -> option string :=
  fun n => if (n =? 0)%nat then Some "database is locked" else None.

Definition locked_world : World :=
  world (mkDB [row] [] []) (answer 200 rss_doc) first_call_fails.

Definition broken_world : World :=
  world (mkDB [row] [] []) (answer 503 "unavailable") no_fault.


End fixtures.

(** ** Text, for the statements about the commands *)

Module text.

(** [s] without its first [n] bytes, and its first [n] bytes. *)
Fixpoint drop (n : nat) (s : string) : string :=
  match n, s with
  | O, _ => s
  | S k, String _ rest => drop k rest
  | S _, EmptyString => EmptyString
  end.

Fixpoint take (n : nat) (s : string) : string :=
  match n, s with
  | O, _ => EmptyString
  | S k, String c rest => String c (take k rest)
  | S _, EmptyString => EmptyString
  end.

(** The first byte of [s] is no continuation byte ([s] may be empty). *)
Definition starts_rune (s : string) : Prop :=
  match s with
  | EmptyString => True
  | String c _ => utf8.continuation (utf8.byte c) = false
  end.

(** A sequence of runes without the runes at its end that [f] holds of. *)
Fixpoint trim_right (f : Z -> bool) (rs : list (Z * string)) : list (Z * string) :=
  match rs with
  | [] => []
  | (r, b) :: rest =>
    match trim_right f rest with
    | [] => if f r then [] else [(r, b)]
    | rest' => (r, b) :: rest'
    end
  end.

(** A rune that is no white space. *)
Definition is_text (c : Z * string) : Prop := unicode.IsSpace (fst c) = false.

(** A word: text that is not empty and holds no white space. *)
Definition solid (w : string) : Prop :=
  w <> EmptyString /\ Forall is_text (utf8.runes w).

(** The numbers of the type [int64]. *)
Definition int64 (n : Z) : Prop := - 2 ^ 63 <= n < 2 ^ 63.

(** Text of ASCII characters that are no white space. *)
Fixpoint plain (w : string) : bool :=
  match w with
  | EmptyString => true
  | String c rest =>
    (utf8.byte c <? utf8.RuneSelf) && negb (unicode.IsSpace (utf8.byte c)) && plain rest
  end.

End text.

(** ** What the commands may do, for the statements about them *)

Module policy.

Import storage crud.

(** The feed with this ID is of the chat. *)
Definition owns (d : DB) (chatID id : Z) : Prop :=
  exists feed, GetFeed d id = Ok feed /\ Feed_ChatID feed = chatID.

Definition has_feed (d : DB) (id : Z) : Prop := In id (map feeds_id (feeds d)).

Definition is_regex_kind (kind : string) : bool :=
  String.eqb kind FilterIncludeRe || String.eqb kind FilterExcludeRe.

(** A value as [ParseFilterCommand] returns it. *)
Definition normal (value : string) : Prop :=
  value <> EmptyString /\ strings.Join (strings.Fields value) " " = value.

Section WithLib.

Context {lib : GoLib}.

Definition compiles (kind value : string) : Prop :=
  is_regex_kind kind = true -> filter.ValidateRegex value = None.

(** The changes of the store that a command of the chat [chatID] makes. *)
Inductive change (chatID : Z) : Store -> Store -> Prop :=
| add_feed (s s' : Store) (feed feed' : Feed) (now : Time) :
    Feed_ChatID feed = chatID -> Feed_IntervalMinutes feed = 15 ->
    CreateFeed s feed now = (Ok feed', s') ->
    change chatID s s'
| update_feed (s : Store) (old feed : Feed) :
    GetFeed (tables s) (Feed_ID old) = Ok old -> Feed_ChatID old = chatID ->
    Feed_ID feed = Feed_ID old ->
    Feed_URL feed = Feed_URL old -> Feed_LastCheckAt feed = Feed_LastCheckAt old ->
    Feed_IntervalMinutes feed = Feed_IntervalMinutes old
    \/ 1 <= Feed_IntervalMinutes feed <= 1440 ->
    change chatID s (with_tables s (UpdateFeed (tables s) feed))
| delete_feed (s : Store) (id : Z) :
    owns (tables s) chatID id ->
    change chatID s (with_tables s (DeleteFeed (tables s) id))
| add_filter (s s' : Store) (f f' : Filter) (now : Time) :
    owns (tables s) chatID (Filter_FeedID f) ->
    compiles (Filter_Kind f) (Filter_Value f) -> normal (Filter_Value f) ->
    CreateFilter s f now = (Ok f', s') ->
    change chatID s s'
| delete_filter (s : Store) (id : Z) (f : Filter) :
    GetFilter (tables s) id = Ok f -> owns (tables s) chatID (Filter_FeedID f) ->
    change chatID s (with_tables s (DeleteFilter (tables s) id))
| mark_seen (s : Store) (feedID : Z) (guid : string) (now : Time) :
    owns (tables s) chatID feedID ->
    change chatID s (with_tables s (snd (MarkSeen (tables s) feedID guid now))).

(** Any number of them. *)
Inductive changes (chatID : Z) : Store -> Store -> Prop :=
| changes_none (s : Store) : changes chatID s s
| changes_more (s s' s'' : Store) :
    changes chatID s s' -> change chatID s' s'' -> changes chatID s s''.

(** What holds of the store of the bot at all times. *)
Record sound (s : Store) : Prop := mkSound {
  sound_consistent : history.consistent s;
  sound_intervals : forall r, In r (feeds (tables s)) -> 1 <= feeds_interval_minutes r <= 1440;
  sound_filters : forall r, In r (filters (tables s)) ->
    has_feed (tables s) (filters_feed_id r)
    /\ compiles (filters_kind r) (filters_value r)
    /\ normal (filters_value r);
  sound_seen_items : forall r, In r (seen_items (tables s)) ->
    has_feed (tables s) (seen_feed_id r)
}.

(** The steps of the program: the bot handles an update, the scheduler
    runs a cycle, or the world around changes (the clock, the network, the
    faults) while the store stays.  A step is a whole update or a whole
    cycle: the two goroutines are taken to run one after the other. *)
Inductive step {fmtlib : GoFmt} : handlers.World -> handlers.World -> Prop :=
| step_update (cfg : config.Config) (update : handlers.Update) (w w' : handlers.World) :
    handlers.Run_update cfg update w = Returns (tt, w') -> step w w'
| step_cycle (w : handlers.World) :
    step w (handlers.with_base w (harness.exec scheduler.checkAll (handlers.base w)))
| step_world (w w' : handlers.World) :
    handlers.store w' = handlers.store w -> step w w'.

Inductive reachable {fmtlib : GoFmt} : handlers.World -> Prop :=
| reachable_start (w : handlers.World) : handlers.store w = empty -> reachable w
| reachable_step (w w' : handlers.World) : reachable w -> step w w' -> reachable w'.

End WithLib.

(** What a chat has in [d] is in [d'] as it was: its feeds, and of each
    of them the row, the filters and the seen-entries. *)
Definition untouched (chatID : Z) (d d' : DB) : Prop :=
  List.filter (fun r => feeds_chat_id r =? chatID) (feeds d')
  = List.filter (fun r => feeds_chat_id r =? chatID) (feeds d)
  /\ forall id, owns d chatID id ->
       GetFeed d' id = GetFeed d id
       /\ List.filter (fun r => filters_feed_id r =? id) (filters d')
          = List.filter (fun r => filters_feed_id r =? id) (filters d)
       /\ List.filter (fun r => seen_feed_id r =? id) (seen_items d')
          = List.filter (fun r => seen_feed_id r =? id) (seen_items d).

(** What the scheduler may ask of the store, [ids] being the IDs of the
    feeds: an update gives an interval within the bounds, a seen-entry is of
    a feed there is. *)
Definition careful (ids : list Z) {X : Type} (op : Op X) : Prop :=
  match op with
  | store_UpdateFeed feed => 1 <= Feed_IntervalMinutes feed <= 1440
  | store_MarkSeen feedID _ => In feedID ids
  | _ => True
  end.

Fixpoint careful_prog (ids : list Z) {A : Type} (p : Prog A) : Prop :=
  match p with
  | Ret _ => True
  | Do op k => careful ids op /\ forall x, careful_prog ids (k x)
  end.

(** During a cycle: the store, whose counters are [fs] and [ls], is sound
    and its feeds are those of [ids]. *)
Definition kept {lib : GoLib} (fs ls : Z) (ids : list Z) (b : harness.World) : Prop :=
  sound (mkStore (harness.db b) fs ls) /\ map feeds_id (feeds (harness.db b)) = ids.

(** The chat an update comes from. *)
Definition chat_of (update : handlers.Update) : option Z :=
  match handlers.Update_CallbackQuery update with
  | Some cb => Some (handlers.Callback_ChatID cb)
  | None => option_map handlers.Message_ChatID (handlers.Update_Message update)
  end.

(** The messages of [w'] that [w] has not. *)
Definition sent_to (chatID : Z) (w w' : handlers.World) : Prop :=
  exists msgs,
    harness.outbox (handlers.base w') = (harness.outbox (handlers.base w) ++ msgs)%list
    /\ Forall (fun m => fst m = chatID) msgs.

(** [m] returns from [w], with a result and a world that [Q] holds of. *)
Definition returns {A : Type} (m : handlers.M A) (w : handlers.World)
    (Q : A -> handlers.World -> Prop) : Prop :=
  match m w with
  | Returns (a, w') => Q a w'
  | Panics _ => False
  end.

(** What a command of the chat has done between [w0] and [w]. *)
Definition effect {lib : GoLib} (chatID : Z) (w0 w : handlers.World) : Prop :=
  changes chatID (handlers.store w0) (handlers.store w) /\ sent_to chatID w0 w.

End policy.

(** ** Worlds of the bot to run the commands in *)

Module bot_fixtures.

Import storage harness.

(** A new database, a network that answers with the feed of five items. *)
Definition start : handlers.World :=
  handlers.mkWorld
    (fixtures.world (mkDB [] [] []) (fixtures.answer 200 fixtures.rss_doc) fixtures.no_fault)
    0 0 [] 0 fixtures.no_fault.

Definition everyone : config.Config := config.mkConfig "token" "./data/bot.db" "info" [].
Definition only_42 : config.Config := config.mkConfig "token" "./data/bot.db" "info" [42].

(** The command [/cmd arguments] sent by the user [user] in the chat [chat]. *)
Definition command (user chat : Z) (cmd arguments : string) : handlers.Update :=
  handlers.mkUpdate None (Some (handlers.mkMessage true cmd arguments user chat)).

(** A press of a button with the data [data]. *)
Definition press (user chat : Z) (data : string) : handlers.Update :=
  handlers.mkUpdate (Some (handlers.mkCallbackQuery "1" data chat user "user")) None.

(** The world after an update; the world as it is should the bot panic. *)
Definition after (cfg : config.Config) (update : handlers.Update) (w : handlers.World)
    : handlers.World :=
  match @handlers.Run_update fixtures.lib testlib.fmtlib cfg update w with
  | Returns (_, w') => w'
  | Panics _ => w
  end.

(** The chat 100 adds the feed, then a filter. *)
Definition with_feed : handlers.World :=
  after everyone (command 7 100 "add" "https://devops.example.com/rss") start.

Definition with_filter : handlers.World :=
  after everyone (command 7 100 "include" "1 -s title  kubernetes   helm") with_feed.

End bot_fixtures.

(** * Properties *)

(** ** The matcher *)

Module filter_facts.

Import filter spec.

Lemma include_not_exclude (f : Filter) : isInclude f = true -> isExclude f = false.
Proof.
  unfold isInclude, isExclude. intros H.
  apply orb_true_iff in H. destruct H as [H | H]; apply String.eqb_eq in H; rewrite H; reflexivity.
Qed.

Section WithLib.
Context {lib : GoLib}.

(** What the loop of [Match] computes, whatever the flags it starts from. *)
Lemma Match_loop_eq (item : FeedItem) (filters : list Filter) (hasIncludes anyIncludeMatched : bool) :
  Match_loop item filters hasIncludes anyIncludeMatched =
  if noExcludeMatches item filters
  then Some (hasIncludes || existsb isInclude filters,
             anyIncludeMatched || existsb (fun f => isInclude f && matchesFilter item f) filters)
  else None.
Proof.
  unfold noExcludeMatches.
  revert hasIncludes anyIncludeMatched.
  induction filters as [| f rest IH]; intros hi am; simpl.
  - now rewrite !orb_false_r.
  - fold (isInclude f). fold (isExclude f).
    destruct (isInclude f) eqn:Hi.
    + rewrite (include_not_exclude f Hi). simpl. rewrite IH.
      destruct (existsb _ rest); simpl; [reflexivity |].
      destruct (matchesFilter item f); simpl; now rewrite ?orb_true_r.
    + simpl. destruct (isExclude f) eqn:He; simpl.
      * destruct (matchesFilter item f); simpl; [reflexivity | apply IH].
      * apply IH.
Qed.

Lemma Match_eq (item : FeedItem) (filters : list Filter) :
  Match item filters =
  noIncludesOrAnyIncludeMatches item filters && noExcludeMatches item filters.
Proof.
  unfold Match. destruct filters as [| f rest]; [reflexivity |].
  cbv beta iota delta [List.length Nat.eqb].
  rewrite Match_loop_eq. unfold noIncludesOrAnyIncludeMatches.
  destruct (noExcludeMatches item (f :: rest)); [| now rewrite andb_false_r].
  rewrite andb_true_r. cbv beta iota. rewrite !orb_false_l.
  destruct (existsb isInclude (f :: rest)); cbv beta iota delta [andb negb orb]; [| reflexivity].
  now destruct (existsb _ (f :: rest)).
Qed.

(** C1. [Match] is true exactly when (there is no include filter, or some
    include filter matches the item's scoped text) and no exclude filter
    matches it.  In particular an item that an include filter and an exclude
    filter both match is rejected, and the empty filter set passes every
    item. *)
Theorem Match_composition_law (item : FeedItem) (filters : list Filter) :
  (Match item filters = true <->
     ((forall f, In f filters -> isInclude f = false) \/
      (exists f, In f filters /\ isInclude f = true /\ matchesFilter item f = true)) /\
     (forall f, In f filters -> isExclude f = true -> matchesFilter item f = false))
  /\ (forall fi fe,
        In fi filters -> isInclude fi = true -> matchesFilter item fi = true ->
        In fe filters -> isExclude fe = true -> matchesFilter item fe = true ->
        Match item filters = false)
  /\ Match item [] = true.
Proof.
  assert (Hexcl : noExcludeMatches item filters = true <->
                  forall f, In f filters -> isExclude f = true -> matchesFilter item f = false).
  { unfold noExcludeMatches. rewrite negb_true_iff. split.
    - intros H f Hin He. destruct (matchesFilter item f) eqn:Hm; [| reflexivity].
      assert (existsb (fun f => isExclude f && matchesFilter item f) filters = true) as Hx.
      { apply existsb_exists. exists f. now rewrite He, Hm. }
      congruence.
    - intros H. destruct (existsb _ filters) eqn:Hx; [| reflexivity].
      apply existsb_exists in Hx. destruct Hx as [f [Hin Hf]].
      apply andb_true_iff in Hf. destruct Hf as [He Hm].
      rewrite (H f Hin He) in Hm. discriminate. }
  assert (Hincl : noIncludesOrAnyIncludeMatches item filters = true <->
                  ((forall f, In f filters -> isInclude f = false) \/
                   (exists f, In f filters /\ isInclude f = true /\ matchesFilter item f = true))).
  { unfold noIncludesOrAnyIncludeMatches. rewrite orb_true_iff, negb_true_iff. split.
    - intros [H | H].
      + left. intros f Hin. destruct (isInclude f) eqn:Hi; [| reflexivity].
        assert (existsb isInclude filters = true) as Hx
          by (apply existsb_exists; now exists f).
        congruence.
      + right. apply existsb_exists in H. destruct H as [f [Hin Hf]].
        apply andb_true_iff in Hf. now exists f.
    - intros [H | [f [Hin [Hi Hm]]]].
      + left. destruct (existsb isInclude filters) eqn:Hx; [| reflexivity].
        apply existsb_exists in Hx. destruct Hx as [f [Hin Hi]].
        rewrite (H f Hin) in Hi. discriminate.
      + right. apply existsb_exists. exists f. now rewrite Hi, Hm. }
  split; [| split].
  - rewrite Match_eq, andb_true_iff, Hincl, Hexcl. reflexivity.
  - intros fi fe _ _ _ Hin He Hm.
    rewrite Match_eq. apply andb_false_iff. right.
    apply not_true_iff_false. intros Hn.
    rewrite (proj1 Hexcl Hn fe Hin He) in Hm. discriminate.
  - reflexivity.
Qed.

Lemma existsb_filter_known (p : Filter -> bool) (filters : list Filter) :
  (forall f, p f = true -> knownKind f = true) ->
  existsb p (List.filter knownKind filters) = existsb p filters.
Proof.
  intros Hp. induction filters as [| f rest IH]; simpl; [reflexivity |].
  destruct (knownKind f) eqn:Hk; simpl; rewrite IH; [reflexivity |].
  destruct (p f) eqn:Hpf; [| reflexivity].
  apply Hp in Hpf. congruence.
Qed.

(** C10. A filter whose kind is none of include, exclude, include_re and
    exclude_re has no effect: [Match] gives the same result with all such
    filters removed, and such a filter counts neither as an include nor as
    an exclude. *)
Theorem Match_ignores_unknown_kinds (item : FeedItem) (filters : list Filter) :
  Match item filters = Match item (List.filter knownKind filters)
  /\ (forall f, knownKind f = false -> isInclude f = false /\ isExclude f = false)
  /\ (forall f before after, knownKind f = false ->
        Match item (before ++ f :: after) = Match item (before ++ after)).
Proof.
  assert (Hdrop : forall fs, Match item fs = Match item (List.filter knownKind fs)).
  { intros fs. rewrite !Match_eq.
    unfold noIncludesOrAnyIncludeMatches, noExcludeMatches.
    rewrite !existsb_filter_known; [reflexivity | | |].
    - intros f H. apply andb_true_iff in H. unfold knownKind. destruct H as [-> _].
      now rewrite orb_true_r.
    - intros f H. apply andb_true_iff in H. unfold knownKind. now destruct H as [-> _].
    - intros f H. unfold knownKind. now rewrite H. }
  split; [apply Hdrop | split].
  - intros f H. unfold knownKind in H. now apply orb_false_iff in H.
  - intros f before after Hk.
    rewrite (Hdrop (before ++ f :: after)%list), (Hdrop (before ++ after)%list).
    rewrite !filter_app. simpl. now rewrite Hk.
Qed.

Lemma matchesFilter_uncompilable (item : FeedItem) (f : Filter) (e : string) :
  regexp_Compile ("(?i)" ++ Filter_Value f) = Err e ->
  Filter_Kind f = FilterIncludeRe \/ Filter_Kind f = FilterExcludeRe ->
  matchesFilter item f = false.
Proof.
  intros Hc Hk. unfold matchesFilter. rewrite Hc.
  destruct Hk as [-> | ->]; reflexivity.
Qed.

(** C5. A regex filter whose pattern does not compile (under [(?i)]) never
    matches, and this is no error: as an include filter it cannot make an
    item pass (if the item passes, another include filter matched it, and it
    passes without the filter too); as an exclude filter it never vetoes
    (the result is the same without it). *)
Theorem invalid_regex_never_matches (item : FeedItem) (f : Filter) (before after : list Filter)
    (e : string) :
  regexp_Compile ("(?i)" ++ Filter_Value f) = Err e ->
  Filter_Kind f = FilterIncludeRe \/ Filter_Kind f = FilterExcludeRe ->
  matchesFilter item f = false
  /\ (Filter_Kind f = FilterIncludeRe ->
        Match item [f] = false /\
        (Match item (before ++ f :: after) = true ->
           Match item (before ++ after) = true /\
           exists g, In g (before ++ after) /\ isInclude g = true /\
                     matchesFilter item g = true))
  /\ (Filter_Kind f = FilterExcludeRe ->
        Match item (before ++ f :: after) = Match item (before ++ after)).
Proof.
  intros Hc Hk.
  pose proof (matchesFilter_uncompilable item f e Hc Hk) as Hm.
  split; [exact Hm | split].
  - intros Hi.
    assert (Hinc : isInclude f = true) by (unfold isInclude; now rewrite Hi).
    split.
    + rewrite Match_eq. unfold noIncludesOrAnyIncludeMatches. simpl.
      now rewrite Hinc, Hm.
    + rewrite !Match_eq. unfold noIncludesOrAnyIncludeMatches, noExcludeMatches.
      rewrite !existsb_app. simpl. rewrite Hinc, Hm, (include_not_exclude f Hinc). simpl.
      rewrite orb_true_r. simpl. intros H.
      apply andb_true_iff in H. destruct H as [H1 H2].
      rewrite H1, H2, orb_true_r. split; [reflexivity |].
      rewrite <- existsb_app in H1. apply existsb_exists in H1.
      destruct H1 as [g [Hin Hg]]. apply andb_true_iff in Hg. now exists g.
  - intros He.
    assert (Hexc : isExclude f = true) by (unfold isExclude; now rewrite He).
    assert (Hinc : isInclude f = false) by (unfold isInclude; now rewrite He).
    rewrite !Match_eq. unfold noIncludesOrAnyIncludeMatches, noExcludeMatches.
    rewrite !existsb_app. simpl. now rewrite Hinc, Hm, Hexc.
Qed.

Lemma existsb_Permutation {A : Type} (p : A -> bool) (l l' : list A) :
  Permutation l l' -> existsb p l = existsb p l'.
Proof.
  intros H. induction H as [| x l l' H IH | x y l | l l' l'' H1 IH1 H2 IH2]; simpl.
  - reflexivity.
  - now rewrite IH.
  - now rewrite !orb_assoc, (orb_comm (p y) (p x)).
  - now rewrite IH1.
Qed.

(** The filters of a feed have no order: [Match] gives the same result on
    every arrangement of the same filters. *)
Theorem Match_order_independent (item : FeedItem) (filters filters' : list Filter) :
  Permutation filters filters' -> Match item filters = Match item filters'.
Proof.
  intros H. rewrite !Match_eq. unfold noIncludesOrAnyIncludeMatches, noExcludeMatches.
  now rewrite !(existsb_Permutation _ _ _ H).
Qed.

End WithLib.

End filter_facts.

(** ** Item identity *)

Module guid_facts.

Import fetcher spec.

Lemma be_bytes_length (n : nat) (x : Z) : List.length (sha256.be_bytes n x) = n.
Proof.
  unfold sha256.be_bytes. now rewrite length_map, length_rev, length_seq.
Qed.

Lemma be_bytes_range (n : nat) (x : Z) :
  Forall (fun b => 0 <= b < 256) (sha256.be_bytes n x).
Proof.
  unfold sha256.be_bytes. apply Forall_map, Forall_forall. intros i _.
  apply Z.mod_pos_bound. lia.
Qed.

Lemma digest_length (hv : sha256.state) : List.length (sha256.digest hv) = 32%nat.
Proof.
  destruct hv as [[[[[[[a b] c] d] e] f] g] h]. unfold sha256.digest.
  rewrite !length_app, !be_bytes_length. reflexivity.
Qed.

Lemma digest_range (hv : sha256.state) : Forall (fun b => 0 <= b < 256) (sha256.digest hv).
Proof.
  destruct hv as [[[[[[[a b] c] d] e] f] g] h]. unfold sha256.digest.
  repeat (apply Forall_app; split); apply be_bytes_range.
Qed.

Lemma Forall_firstn_of {A : Type} (P : A -> Prop) (n : nat) (l : list A) :
  Forall P l -> Forall P (firstn n l).
Proof.
  intros H. revert n. induction H as [| x l Hx Hl IH]; intros [| n]; simpl; auto.
Qed.

Lemma Sum256_length (data : string) : List.length (sha256.Sum256 data) = 32%nat.
Proof. apply digest_length. Qed.

Lemma hex_length (bytes : list Z) :
  String.length (fmt.hex bytes) = (2 * List.length bytes)%nat.
Proof.
  induction bytes as [| b rest IH]; simpl; [reflexivity |]. rewrite IH. lia.
Qed.

Lemma hex_firstn (n : nat) (bytes : list Z) :
  fmt.hex (firstn n bytes) = substring 0 (2 * n) (fmt.hex bytes).
Proof.
  revert bytes. induction n as [| n IH]; intros bytes.
  - simpl. now destruct (fmt.hex bytes).
  - destruct bytes as [| b rest]; [reflexivity |].
    replace (2 * S n)%nat with (S (S (2 * n))) by lia.
    simpl firstn. simpl fmt.hex. simpl substring. now rewrite IH.
Qed.

Lemma hexdigit_lower_hex (n : Z) : is_lower_hex (fmt.hexdigit n) = true.
Proof.
  unfold fmt.hexdigit. generalize (Z.to_nat n). intros k.
  do 16 (destruct k as [| k]; [reflexivity |]). reflexivity.
Qed.

Lemma hex_lower_hex (bytes : list Z) :
  forallb is_lower_hex (list_ascii_of_string (fmt.hex bytes)) = true.
Proof.
  induction bytes as [| b rest IH]; [reflexivity |].
  simpl. now rewrite !hexdigit_lower_hex, IH.
Qed.

(** C4. The derived GUID is the raw identifier verbatim when it is not
    empty; otherwise it is ["sha256:"] followed by the lowercase hex encoding
    of the first 16 bytes of SHA-256 of [title + "|" + link], which is 32
    hex characters, the first 32 of the hex digest. *)
Theorem ItemGUID_derivation (item : gofeed.Item) :
  (gofeed.Item_GUID item <> "" -> ItemGUID item = gofeed.Item_GUID item)
  /\ (gofeed.Item_GUID item = "" ->
        let h := sha256.Sum256 (gofeed.Item_Title item ++ "|" ++ gofeed.Item_Link item) in
        ItemGUID item = "sha256:" ++ fmt.hex (firstn 16 h)
        /\ List.length (firstn 16 h) = 16%nat
        /\ Forall (fun b => 0 <= b < 256) (firstn 16 h)
        /\ String.length (fmt.hex (firstn 16 h)) = 32%nat
        /\ forallb is_lower_hex (list_ascii_of_string (fmt.hex (firstn 16 h))) = true)
  /\ ItemGUID item =
     spec_guid (gofeed.Item_GUID item) (gofeed.Item_Title item) (gofeed.Item_Link item).
Proof.
  unfold ItemGUID, spec_guid. split; [| split].
  - intros Hne. destruct (String.eqb_spec (gofeed.Item_GUID item) ""); [contradiction | reflexivity].
  - intros ->. cbv zeta. simpl negb. cbv iota.
    assert (Hlen : List.length (firstn 16
              (sha256.Sum256 (gofeed.Item_Title item ++ "|" ++ gofeed.Item_Link item))) = 16%nat).
    { rewrite length_firstn, Sum256_length. reflexivity. }
    split; [reflexivity |]. split; [exact Hlen |]. split; [| split].
    + apply Forall_firstn_of, digest_range.
    + rewrite hex_length, Hlen. reflexivity.
    + apply hex_lower_hex.
  - destruct (String.eqb (gofeed.Item_GUID item) ""); [| reflexivity].
    simpl negb. cbv iota. now rewrite (hex_firstn 16).
Qed.

(** The embedding of SHA-256 on the test vectors of the standard. *)
Example Sum256_test_vectors :
  fmt.hex (sha256.Sum256 "abc")
    = "ba7816bf8f01cfea414140de5dae2223b00361a396177a9cb410ff61f20015ad"
  /\ fmt.hex (sha256.Sum256 "")
    = "e3b0c44298fc1c149afbf4c8996fb92427ae41e4649b934ca495991b7852b855"
  /\ fmt.hex (sha256.Sum256 "abcdbcdecdefdefgefghfghighijhijkijkljklmklmnlmnomnopnopq")
    = "248d6a61d20638b8e5c026930c3e6039a33ce45964ff2167f6ecedd419db06c1".
Proof. vm_compute. repeat split. Qed.

(** The test of the repository: an item with a GUID keeps it, one without
    gets a hash. *)
Example ItemGUID_with_guid :
  ItemGUID (gofeed.mkItem "" "" "" "abc-123") = "abc-123".
Proof. reflexivity. Qed.

Example ItemGUID_without_guid :
  ItemGUID (gofeed.mkItem "Post Without GUID" "" "https://example.com/post-1" "")
  = "sha256:d4bbeee8aeea9c892dd848225e9999b8".
Proof. vm_compute. reflexivity. Qed.

End guid_facts.

(** ** Truncation of descriptions *)

Module truncation_facts.

Import fetcher spec.

Lemma substring_length (n : nat) (s : string) :
  (n <= String.length s)%nat -> String.length (substring 0 n s) = n.
Proof.
  revert s. induction n as [| n IH]; intros s H.
  - now destruct s.
  - destruct s as [| c s]; simpl in *; [lia |]. rewrite IH; lia.
Qed.

Lemma append_length (s t : string) :
  String.length (s ++ t) = (String.length s + String.length t)%nat.
Proof. induction s as [| c s IH]; simpl; [reflexivity | now rewrite IH]. Qed.

(** In bytes, the truncation law holds. *)
Lemma truncated_bytes (desc : string) :
  (String.length (truncated desc) <= 303)%nat
  /\ ((String.length desc <= 300)%nat -> truncated desc = desc)
  /\ ((300 < String.length desc)%nat ->
        truncated desc = substring 0 300 desc ++ "..." /\
        String.length (truncated desc) = 303%nat).
Proof.
  unfold truncated. destruct (Nat.ltb_spec 300 (String.length desc)) as [H | H].
  - assert (String.length (substring 0 300 desc ++ "...") = 303%nat) as Hl.
    { rewrite append_length, substring_length by lia. reflexivity. }
    rewrite Hl. split; [lia |]. split; [lia | auto].
  - split; [lia |]. split; [reflexivity | lia].
Qed.

Section WithLib.
Context {lib : GoLib}.

(** Every matched item comes from an item that passed the filters, with its
    description truncated. *)
Lemma FilterItems_In (items : list gofeed.Item) (filters : list Filter) (m : MatchedItem) :
  In m (FilterItems items filters) ->
  exists item, In item items
    /\ filter.Match (filter.mkFeedItem (gofeed.Item_Title item) (gofeed.Item_Description item))
         filters = true
    /\ m = mkMatchedItem (gofeed.Item_Title item) (truncated (gofeed.Item_Description item))
             (gofeed.Item_Link item) (ItemGUID item).
Proof.
  induction items as [| item rest IH]; simpl; [contradiction |].
  destruct (filter.Match _ filters) eqn:Hm.
  - intros [<- | Hin].
    + exists item. auto.
    + destruct (IH Hin) as [item' [H1 H2]]. exists item'. auto.
  - intros Hin. destruct (IH Hin) as [item' [H1 H2]]. exists item'. auto.
Qed.

Lemma FilterItems_description_bytes (items : list gofeed.Item) (filters : list Filter)
    (m : MatchedItem) :
  In m (FilterItems items filters) -> (String.length (Description m) <= 303)%nat.
Proof.
  intros Hin. destruct (FilterItems_In _ _ _ Hin) as [item [_ [_ ->]]].
  apply truncated_bytes.
Qed.

(** In bytes the truncation law holds of every matched item: its
    description has at most 303 bytes, is the source description when that
    has at most 300 bytes, and is its first 300 bytes and ["..."] otherwise. *)
Theorem FilterItems_truncation_in_bytes (items : list gofeed.Item) (filters : list Filter)
    (m : MatchedItem) :
  In m (FilterItems items filters) ->
  exists item, In item items
    /\ Title m = gofeed.Item_Title item
    /\ GUID m = ItemGUID item
    /\ (String.length (Description m) <= 303)%nat
    /\ ((String.length (gofeed.Item_Description item) <= 300)%nat ->
          Description m = gofeed.Item_Description item)
    /\ ((300 < String.length (gofeed.Item_Description item))%nat ->
          Description m = substring 0 300 (gofeed.Item_Description item) ++ "...").
Proof.
  intros Hin. destruct (FilterItems_In _ _ _ Hin) as [item [Hitem [_ ->]]].
  exists item. cbn [Title GUID Description].
  destruct (truncated_bytes (gofeed.Item_Description item)) as [H1 [H2 H3]].
  repeat split; auto. intros H. now destruct (H3 H).
Qed.

(** C6, on the code: a description of 151 characters, which the specification says
    is delivered unchanged, is cut after its 300th byte, inside the last
    character; what is delivered is not the source description and is not
    well-formed UTF-8. *)
Theorem FilterItems_cuts_inside_a_character :
  let item := gofeed.mkItem "title" short_cyrillic "link" "guid" in
  RuneCount (gofeed.Item_Description item) = 151%nat
  /\ String.length (gofeed.Item_Description item) = 301%nat
  /\ well_formed 0 (gofeed.Item_Description item) = true
  /\ map Description (FilterItems [item] []) =
       ["a" ++ repeat_string ya 149 ++ String (ascii_of_nat 209) "..."]
  /\ map (fun m => String.eqb (Description m) (gofeed.Item_Description item))
         (FilterItems [item] []) = [false]
  /\ map (fun m => well_formed 0 (Description m)) (FilterItems [item] []) = [false]
  /\ map (fun m => RuneCount (Description m)) (FilterItems [item] []) = [154%nat].
Proof.
  cbv zeta. repeat split; vm_compute; reflexivity.
Qed.

End WithLib.

(** Where every byte is a character (ASCII), bytes and characters agree. *)
Lemma RuneCount_ascii (s : string) :
  forallb (fun c => (nat_of_ascii c <? 128)%nat) (list_ascii_of_string s) = true ->
  RuneCount s = String.length s.
Proof.
  induction s as [| c s IH]; simpl; [reflexivity |].
  intros H. apply andb_true_iff in H. destruct H as [Hc Hs].
  rewrite (IH Hs). unfold is_continuation.
  apply Nat.ltb_lt in Hc.
  destruct (Nat.leb_spec 128 (nat_of_ascii c)); [lia | reflexivity].
Qed.

End truncation_facts.

(** ** Running programs *)

Module run_facts.

Import harness.

Lemma run_bind {A B : Type} (p : Prog A) (f : A -> Prog B) (w : World) :
  run (bind p f) w = run (f (fst (run p w))) (snd (run p w)).
Proof.
  revert w. induction p as [a | X op k IH]; intros w; simpl; [reflexivity |].
  destruct (handle op w) as [x w']. apply IH.
Qed.

Lemma run_call {X : Type} (op : Op X) (w : World) : run (call op) w = handle op w.
Proof. unfold call. simpl. now destruct (handle op w). Qed.

End run_facts.

(** ** The retriever *)

Module fetch_facts.

Import fetcher harness run_facts spec fixtures.

Section WithLib.
Context {lib : GoLib}.

(** [Fetch] changes nothing: it only asks the transport. *)
Lemma Fetch_world (url : string) (w : World) : snd (run (Fetch url) w) = w.
Proof.
  unfold Fetch. destruct (url_Parse url); [reflexivity |].
  rewrite run_bind, run_call. simpl.
  destruct (transport w _) as [resp | e]; [| reflexivity].
  destruct (negb _); [reflexivity |].
  destruct (io.ReadAll_LimitReader _ _); [| reflexivity].
  now destruct (gofeed_ParseString _).
Qed.

(** Its result depends on the world through the transport only. *)
Lemma Fetch_transport (url : string) (w1 w2 : World) :
  transport w1 = transport w2 ->
  fst (run (Fetch url) w1) = fst (run (Fetch url) w2).
Proof.
  intros Ht. unfold Fetch. destruct (url_Parse url); [reflexivity |].
  rewrite !run_bind, !run_call. simpl. rewrite Ht.
  destruct (transport w2 _) as [resp | e]; [| reflexivity].
  destruct (negb _); [reflexivity |].
  destruct (io.ReadAll_LimitReader _ _); [| reflexivity].
  now destruct (gofeed_ParseString _).
Qed.

(** C7, as the code has it.  With the request created and answered by a
    response: a status other than 200 gives the error "unexpected status N"
    (so every non-2xx status does, and so do 201 to 299); with status 200
    and the body read, a body that does not parse gives the error
    "parse feed: ...", which is never the status error, and a body that
    parses makes [Fetch] succeed with the parsed feed. *)
Theorem Fetch_status_200_only (url : string) (w : World) (resp : http.Response) :
  url_Parse url = None ->
  transport w (request url) = Ok resp ->
  (http.StatusCode resp <> 200 ->
     fst (run (Fetch url) w) = Err ("unexpected status " ++ itoa (http.StatusCode resp)))
  /\ (http.StatusCode resp = 200 ->
      forall body, io.ReadAll_LimitReader (http.Response_Body resp) body_limit = Ok body ->
        (forall e, gofeed_ParseString body = Err e ->
           fst (run (Fetch url) w) = Err (wrap "parse feed" e))
        /\ (forall feed, gofeed_ParseString body = Ok feed ->
              fst (run (Fetch url) w) = Ok feed))
  /\ (forall code e, "unexpected status " ++ itoa code <> wrap "parse feed" e)
  /\ snd (run (Fetch url) w) = w.
Proof.
  intros Hu Hr. split; [| split; [| split]].
  - intros Hs. unfold Fetch. rewrite Hu, run_bind, run_call. simpl.
    fold (request url). rewrite Hr.
    apply Z.eqb_neq in Hs. unfold http.StatusOK. now rewrite Hs.
  - intros Hs body Hb.
    assert (Hrun : fst (run (Fetch url) w) =
                   match gofeed_ParseString body with
                   | Err e => Err (wrap "parse feed" e)
                   | Ok feed => Ok feed
                   end).
    { unfold Fetch. rewrite Hu, run_bind, run_call. cbn [handle fst snd].
      fold (request url). rewrite Hr. unfold http.StatusOK. rewrite Hs, Z.eqb_refl.
      cbn [negb]. change (5 * 1024 * 1024)%N with body_limit.
      rewrite Hb. now destruct (gofeed_ParseString body). }
    split; intros x Hx; now rewrite Hrun, Hx.
  - intros code e H. discriminate H.
  - apply Fetch_world.
Qed.

End WithLib.

(** C7 as stated fails: a 2xx response with a parsable body is refused. *)
Lemma Fetch_refuses_status_201 :
  200 <= 201 <= 299
  /\ @gofeed_ParseString (testlib.lib [(sample_doc, sample_feed)]) sample_doc = Ok sample_feed
  /\ fst (run (@Fetch (testlib.lib [(sample_doc, sample_feed)]) "https://example.com/rss")
              (world_answering 201 sample_doc))
     = Err "unexpected status 201".
Proof.
  split; [lia |]. split; vm_compute; reflexivity.
Qed.

Lemma Fetch_status_200_only_witness :
  (200 <> 200 ->
     fst (run (@Fetch (testlib.lib [(sample_doc, sample_feed)]) "https://example.com/rss")
              (world_answering 200 sample_doc)) = Err ("unexpected status " ++ itoa 200))
  /\ (200 = 200 ->
      forall body,
        io.ReadAll_LimitReader (http.mkBody sample_doc None) body_limit = Ok body ->
        (forall e, @gofeed_ParseString (testlib.lib [(sample_doc, sample_feed)]) body = Err e ->
           fst (run (@Fetch (testlib.lib [(sample_doc, sample_feed)]) "https://example.com/rss")
                    (world_answering 200 sample_doc)) = Err (wrap "parse feed" e))
        /\ (forall feed,
              @gofeed_ParseString (testlib.lib [(sample_doc, sample_feed)]) body = Ok feed ->
              fst (run (@Fetch (testlib.lib [(sample_doc, sample_feed)]) "https://example.com/rss")
                       (world_answering 200 sample_doc)) = Ok feed))
  /\ (forall code e, "unexpected status " ++ itoa code <> wrap "parse feed" e)
  /\ snd (run (@Fetch (testlib.lib [(sample_doc, sample_feed)]) "https://example.com/rss")
              (world_answering 200 sample_doc)) = world_answering 200 sample_doc.
Proof.
  apply (@Fetch_status_200_only (testlib.lib [(sample_doc, sample_feed)])
           "https://example.com/rss" (world_answering 200 sample_doc)
           (http.mkResponse 200 (http.mkBody sample_doc None))); reflexivity.
Defined.

End fetch_facts.

(** ** The ledger: due feeds *)

Module due_facts.

Import sqlite storage spec.

Lemma span_number_uint (d : Decimal.uint) (tl : string) :
  span_number (NilEmpty.string_of_uint d ++ String " " tl) =
  (NilEmpty.string_of_uint d, String " " tl).
Proof.
  induction d; simpl; try rewrite IHd; reflexivity.
Qed.

Lemma string_of_pos_nonempty (p : positive) :
  NilEmpty.string_of_uint (Pos.to_uint p) <> "".
Proof.
  intros H. pose proof (NilEmpty.usu (Pos.to_uint p)) as Hu. rewrite H in Hu.
  simpl in Hu. injection Hu as Hu.
  pose proof (DecimalPos.Unsigned.of_to p) as Hp. rewrite <- Hu in Hp. discriminate Hp.
Qed.

Lemma atof_int_plus_pos (p : positive) :
  atof_int ("+" ++ NilEmpty.string_of_uint (Pos.to_uint p)) = Some (Z.pos p).
Proof.
  unfold atof_int. simpl append. cbv iota beta.
  pose proof (string_of_pos_nonempty p) as Hne.
  destruct (NilEmpty.string_of_uint (Pos.to_uint p)) eqn:Hs; [contradiction |].
  rewrite <- Hs, NilEmpty.usu. unfold Z.of_uint.
  now rewrite DecimalPos.Unsigned.of_to.
Qed.

(** The modifier that the query builds from a non-negative interval shifts
    by that many minutes, up to the bound on the number. *)
Lemma parseModifier_minutes (n : Z) :
  0 <= n ->
  parseModifier ("+" ++ text_of_int n ++ " minutes") =
  if n <? 7737900000000 then Some (n * 60) else None.
Proof.
  intros Hn. unfold parseModifier, text_of_int, itoa.
  destruct n as [| p | p]; [reflexivity | | lia].
  simpl Z.to_int. simpl NilEmpty.string_of_int.
  change ("+" ++ NilEmpty.string_of_uint (Pos.to_uint p) ++ " minutes")
    with (String "+" (NilEmpty.string_of_uint (Pos.to_uint p) ++ String " " "minutes")).
  simpl span_number. rewrite span_number_uint.
  change (String "+" (NilEmpty.string_of_uint (Pos.to_uint p)))
    with ("+" ++ NilEmpty.string_of_uint (Pos.to_uint p)).
  rewrite atof_int_plus_pos.
  change (skip_spaces (String " " "minutes")) with "minutes".
  change (unit_seconds (strip_plural "minutes")) with (Some (60, 7737900000000)).
  change (String.length "minutes") with 7%nat. cbv beta iota zeta.
  change ((7 <? 3)%nat || (10 <? 7)%nat) with false. cbv iota.
  destruct (Z.ltb_spec (- 7737900000000) (Z.pos p)); [| lia].
  reflexivity.
Qed.

(** For a negative interval the text is [+-N minutes], which is no modifier:
    the row is never selected. *)
Lemma parseModifier_negative (p : positive) :
  parseModifier ("+" ++ text_of_int (Z.neg p) ++ " minutes") = None.
Proof.
  unfold parseModifier, text_of_int, itoa.
  simpl Z.to_int. simpl NilEmpty.string_of_int.
  change ("+" ++ String "-" (NilEmpty.string_of_uint (Pos.to_uint p)) ++ " minutes")
    with (String "+" (String "-" (NilEmpty.string_of_uint (Pos.to_uint p) ++ String " " "minutes"))).
  simpl span_number. rewrite span_number_uint.
  unfold atof_int. cbn [NilEmpty.uint_of_string]. rewrite NilEmpty.usu. reflexivity.
Qed.

Lemma seconds_floor (a n : Z) : a * second <= n <-> a <= n / second.
Proof.
  unfold second.
  pose proof (Z.div_mod n 1000000000 ltac:(lia)) as Hd.
  pose proof (Z.mod_pos_bound n 1000000000 ltac:(lia)) as Hm.
  lia.
Qed.

(** The WHERE clause selects a well-formed row exactly when the feed read
    from it is due. *)
Lemma due_where_isDue (now : Time) (r : feeds_row) :
  representable (Format now) -> row_ok r ->
  selected (due_where (Format now) r) = isDue now (scanFeed r).
Proof.
  unfold representable, min_timestamp, max_timestamp, row_ok.
  intros Hnow [Hi Hl]. unfold due_where, isDue, scanFeed.
  cbn [Feed_IsActive Feed_LastCheckAt Feed_IntervalMinutes sql_eq].
  destruct (feeds_is_active r =? 1).
  2:{ cbn [sql_and andb selected]. reflexivity. }
  destruct (feeds_last_check_at r) as [t |]; [| reflexivity].
  cbn [option_map sql_is_null datetime apply_modifiers andb].
  rewrite parseModifier_minutes by lia.
  unfold validJulianDay.
  destruct (Z.leb_spec (-210866760000) (Format now)); [| lia].
  destruct (Z.leb_spec (Format now) 253402300799) as [Hmax | Hmax]; [| lia].
  unfold representable, min_timestamp, max_timestamp in Hl.
  assert (Heq : Parse t + feeds_interval_minutes r * minute =
                (t + feeds_interval_minutes r * 60) * second)
    by (unfold Parse, minute, second; lia).
  rewrite Heq.
  destruct (Z.ltb_spec (feeds_interval_minutes r) 7737900000000) as [Hlim | Hlim].
  - destruct (Z.leb_spec (-210866760000) (t + feeds_interval_minutes r * 60)); [| lia].
    cbn [andb].
    destruct (Z.leb_spec (t + feeds_interval_minutes r * 60) 253402300799);
      cbn [sql_le sql_or sql_and selected].
    + destruct (Z.leb_spec (t + feeds_interval_minutes r * 60) (Format now)) as [Hsql | Hsql];
        destruct (Z.leb_spec ((t + feeds_interval_minutes r * 60) * second) now) as [Hgo | Hgo];
        try reflexivity; exfalso.
      * apply (proj2 (seconds_floor _ _)) in Hsql. lia.
      * apply seconds_floor in Hgo. unfold Format, second in *. lia.
    + destruct (Z.leb_spec ((t + feeds_interval_minutes r * 60) * second) now) as [Hgo | Hgo];
        [| reflexivity].
      apply seconds_floor in Hgo. unfold Format, second in *. lia.
  - cbn [sql_le sql_or sql_and selected].
    destruct (Z.leb_spec ((t + feeds_interval_minutes r * 60) * second) now) as [Hgo | Hgo];
      [| reflexivity].
    apply seconds_floor in Hgo. unfold Format, second in *. lia.
Qed.

(** C2. [ListDueFeeds] returns exactly the feeds that satisfy the due
    predicate, in the order of the table: a feed of the table is returned if
    and only if it is active and either was never checked or its last check
    plus its own interval is not after now.  Times are UTC instants, the
    stored ones with second precision; the rows have an interval that is not
    negative and times that [timeLayout] can write. *)
Theorem ListDueFeeds_exactly_due (db : DB) (now : Time) :
  representable (Format now) ->
  Forall row_ok (feeds db) ->
  ListDueFeeds db now = List.filter (isDue now) (scanFeeds (feeds db))
  /\ forall f, In f (ListDueFeeds db now) <->
       In f (scanFeeds (feeds db)) /\
       Feed_IsActive f = true /\
       (Feed_LastCheckAt f = None \/
        exists t, Feed_LastCheckAt f = Some t /\
                  t + Feed_IntervalMinutes f * (60 * second) <= now).
Proof.
  intros Hnow Hrows.
  assert (Heq : ListDueFeeds db now = List.filter (isDue now) (scanFeeds (feeds db))).
  { unfold ListDueFeeds, scanFeeds.
    induction Hrows as [| r rows Hr Hrs IH]; [reflexivity |].
    simpl. rewrite (due_where_isDue now r Hnow Hr).
    destruct (isDue now (scanFeed r)); simpl; now rewrite IH. }
  split; [exact Heq |].
  intros f. rewrite Heq, filter_In. unfold isDue, minute.
  rewrite andb_true_iff. split.
  - intros [Hin [Ha Hd]]. repeat split; auto.
    destruct (Feed_LastCheckAt f) as [t |]; [right | now left].
    exists t. split; [reflexivity | now apply Z.leb_le].
  - intros [Hin [Ha Hd]]. repeat split; auto.
    destruct Hd as [-> | [t [-> Ht]]]; [reflexivity | now apply Z.leb_le].
Qed.

End due_facts.

(** ** The ledger: the seen-set *)

Module seen_facts.

Import sqlite storage.

Lemma seen_key_spec (feedID : Z) (guid : string) (r : seen_items_row) :
  seen_key feedID guid r = true <-> seen_feed_id r = feedID /\ seen_guid r = guid.
Proof.
  unfold seen_key. now rewrite andb_true_iff, Z.eqb_eq, String.eqb_eq.
Qed.

Lemma IsSeen_exists (db : DB) (feedID : Z) (guid : string) :
  IsSeen db feedID guid = existsb (seen_key feedID guid) (seen_items db).
Proof.
  unfold IsSeen. induction (seen_items db) as [| r rows IH]; [reflexivity |].
  simpl. destruct (seen_key feedID guid r); [reflexivity | exact IH].
Qed.

(** After [MarkSeen] the pair is in the table. *)
Lemma MarkSeen_seen (db : DB) (feedID : Z) (guid : string) (now : Time) :
  fst (MarkSeen db feedID guid now) = None /\
  existsb (seen_key feedID guid) (seen_items (snd (MarkSeen db feedID guid now))) = true.
Proof.
  unfold MarkSeen, insert_seen.
  destruct (existsb (seen_key feedID guid) (seen_items db)) eqn:Hex; simpl.
  - auto.
  - split; [reflexivity |]. rewrite existsb_app. simpl.
    unfold seen_key at 2. simpl. now rewrite Z.eqb_refl, String.eqb_refl, orb_true_r.
Qed.

(** [MarkSeen] on a pair that is in the table is the identity. *)
Lemma MarkSeen_present (db : DB) (feedID : Z) (guid : string) (now : Time) :
  existsb (seen_key feedID guid) (seen_items db) = true ->
  MarkSeen db feedID guid now = (None, db).
Proof.
  intros Hex. unfold MarkSeen, insert_seen. rewrite Hex. now destruct db.
Qed.

(** The plain INSERT would fail on the duplicate; OR IGNORE is what makes
    the second call succeed. *)
Lemma insert_seen_abort_duplicate (rows : list seen_items_row) (feedID : Z) (guid : string)
    (now : Timestamp) :
  existsb (seen_key feedID guid) rows = true ->
  exists e, insert_seen Abort rows feedID guid now = Err e.
Proof.
  intros Hex. unfold insert_seen. rewrite Hex. eauto.
Qed.

Lemma count_key_absent (feedID : Z) (guid : string) (rows : list seen_items_row) :
  existsb (seen_key feedID guid) rows = false ->
  List.filter (seen_key feedID guid) rows = [].
Proof.
  induction rows as [| r rows IH]; simpl; [reflexivity |].
  destruct (seen_key feedID guid r); simpl; [discriminate | exact IH].
Qed.

Lemma NoDup_snoc {A : Type} (l : list A) (x : A) :
  NoDup l -> ~ In x l -> NoDup (l ++ [x]).
Proof.
  intros Hnd. induction Hnd as [| y l Hy Hl IH]; simpl; intros Hx.
  - constructor; [intros [] | constructor].
  - constructor.
    + rewrite in_app_iff. simpl. intros [H | [H | []]]; [contradiction | subst; tauto].
    + apply IH. tauto.
Qed.

(** [MarkSeen] keeps the primary key. *)
Lemma MarkSeen_pk (db : DB) (feedID : Z) (guid : string) (now : Time) :
  seen_items_pk db -> seen_items_pk (snd (MarkSeen db feedID guid now)).
Proof.
  unfold seen_items_pk, MarkSeen, insert_seen.
  destruct (existsb (seen_key feedID guid) (seen_items db)) eqn:Hex; simpl; [auto |].
  intros Hnd. rewrite map_app. simpl. apply NoDup_snoc; [exact Hnd |].
  intros Hin. apply in_map_iff in Hin. destruct Hin as [r [Hr Hin]].
  assert (existsb (seen_key feedID guid) (seen_items db) = true) as Hex'.
  { apply existsb_exists. exists r. split; [exact Hin |].
    apply seen_key_spec. now inversion Hr. }
  congruence.
Qed.

(** C3. Calling [MarkSeen] twice for a pair leaves the database as calling
    it once does (whatever the times of the calls); neither call fails;
    [IsSeen] is true after one call and after two; and under the table's
    primary key the pair has exactly one row after either. *)
Theorem MarkSeen_idempotent (db : DB) (feedID : Z) (guid : string) (t1 t2 : Time) :
  fst (MarkSeen db feedID guid t1) = None
  /\ MarkSeen (snd (MarkSeen db feedID guid t1)) feedID guid t2 =
       (None, snd (MarkSeen db feedID guid t1))
  /\ IsSeen (snd (MarkSeen db feedID guid t1)) feedID guid = true
  /\ IsSeen (snd (MarkSeen (snd (MarkSeen db feedID guid t1)) feedID guid t2)) feedID guid = true
  /\ (seen_items_pk db ->
        List.length (List.filter (seen_key feedID guid)
                       (seen_items (snd (MarkSeen db feedID guid t1)))) = 1%nat).
Proof.
  destruct (MarkSeen_seen db feedID guid t1) as [Herr Hin].
  pose proof (MarkSeen_present _ feedID guid t2 Hin) as Htwice.
  split; [exact Herr |]. split; [exact Htwice |].
  split; [now rewrite IsSeen_exists |].
  split; [rewrite Htwice; simpl; now rewrite IsSeen_exists |].
  intros Hpk. clear Htwice Hin Herr.
  unfold MarkSeen, insert_seen.
  destruct (existsb (seen_key feedID guid) (seen_items db)) eqn:Hex; simpl.
  - unfold seen_items_pk in Hpk. revert Hpk Hex.
    induction (seen_items db) as [| r rows IH]; simpl; [discriminate |].
    intros Hnd Hex. inversion Hnd as [| k ks Hnotin Hnd']; subst.
    destruct (seen_key feedID guid r) eqn:Hk; simpl.
    + f_equal. rewrite count_key_absent; [reflexivity |].
      destruct (existsb (seen_key feedID guid) rows) eqn:Hex'; [| reflexivity].
      exfalso. apply Hnotin. apply existsb_exists in Hex'.
      destruct Hex' as [r' [Hin' Hk']].
      apply seen_key_spec in Hk. apply seen_key_spec in Hk'.
      apply in_map_iff. exists r'. split; [| exact Hin'].
      destruct Hk as [-> ->]. now destruct Hk' as [-> ->].
    + apply IH; assumption.
  - rewrite filter_app, count_key_absent by exact Hex. simpl.
    unfold seen_key. simpl. now rewrite Z.eqb_refl, String.eqb_refl.
Qed.

End seen_facts.

(** ** The poller *)

Module scheduler_facts.

Import sqlite storage scheduler harness run_facts fetch_facts spec.

(** A due feed is read from a row of the table whose is_active is 1. *)
Lemma due_feed_row (d : DB) (now : Time) (feed : Feed) :
  In feed (ListDueFeeds d now) ->
  exists r, In r (feeds d) /\ scanFeed r = feed /\ feeds_is_active r = 1.
Proof.
  unfold ListDueFeeds, scanFeeds. intros Hin.
  apply in_map_iff in Hin. destruct Hin as [r [Hr Hin]].
  apply filter_In in Hin. destruct Hin as [Hin Hsel].
  exists r. split; [exact Hin |]. split; [exact Hr |].
  unfold due_where in Hsel. cbn [sql_eq] in Hsel.
  destruct (Z.eqb_spec (feeds_is_active r) 1) as [H1 | H1]; [exact H1 |].
  cbn [sql_and selected] in Hsel. discriminate Hsel.
Qed.

Lemma pk_unique (rows : list feeds_row) (r r' : feeds_row) :
  NoDup (map feeds_id rows) -> In r rows -> In r' rows ->
  feeds_id r = feeds_id r' -> r = r'.
Proof.
  induction rows as [| x rows IH]; simpl; [contradiction |].
  intros Hnd Hr Hr' Hid. inversion Hnd as [| k ks Hnotin Hnd']; subst.
  destruct Hr as [-> | Hr], Hr' as [-> | Hr']; auto.
  - exfalso. apply Hnotin. rewrite Hid. now apply in_map.
  - exfalso. apply Hnotin. rewrite <- Hid. now apply in_map.
Qed.

Section WithLib.
Context {lib : GoLib}.

(** [updateLastCheck] when the store accepts the update. *)
Lemma updateLastCheck_exec (feed : Feed) (w : World) :
  store_fault w (store_calls w) = None ->
  exec (updateLastCheck feed) w =
  set_db (count_store_call w)
    (UpdateFeed (db w)
       (mkFeed (Feed_ID feed) (Feed_ChatID feed) (Feed_Name feed) (Feed_URL feed)
          (Feed_IntervalMinutes feed) (Feed_IsActive feed) (Some (clock w))
          (Feed_CreatedAt feed))).
Proof.
  intros Hok. unfold exec, updateLastCheck.
  rewrite run_bind, run_call. cbn [handle fst snd].
  rewrite run_bind, run_call. cbn [handle]. unfold store_call. rewrite Hok.
  reflexivity.
Qed.

(** C8. When the feed was fetched and loading its filters fails, the feed is
    abandoned: the database is as it was (no seen-entry written, no
    last-checked advanced), nothing is sent, the store was called once (the
    failed load), the failure is logged; and the loop goes on with the next
    feeds from there. *)
Theorem processFeed_filter_load_failure (w : World) (feed : Feed) (rest : list Feed)
    (rssFeed : gofeed.Feed) (e : string) :
  fst (run (fetcher.Fetch (Feed_URL feed)) w) = Ok rssFeed ->
  store_fault w (store_calls w) = Some e ->
  db (exec (processFeed feed) w) = db w
  /\ outbox (exec (processFeed feed) w) = outbox w
  /\ store_calls (exec (processFeed feed) w) = S (store_calls w)
  /\ logs (exec (processFeed feed) w) =
       (logs w ++ [debug_entry feed] ++
        [("ERROR", "list filters",
          [("feed_id", itoa (Feed_ID feed)); ("error", wrap "query filters" e)])])%list
  /\ (fst (run (call ctx_Err) w) = false ->
        exec (checkAll_loop (feed :: rest)) w =
        exec (checkAll_loop rest) (exec (processFeed feed) w)).
Proof.
  intros Hfetch Hfault.
  assert (Hexec : exec (processFeed feed) w =
                  push_log (count_store_call (push_log w (debug_entry feed)))
                    ("ERROR", "list filters",
                     [("feed_id", itoa (Feed_ID feed)); ("error", wrap "query filters" e)])).
  { unfold exec, processFeed.
    rewrite run_bind, run_call. cbn [handle fst snd].
    fold (debug_entry feed).
    rewrite run_bind, Fetch_world.
    rewrite (Fetch_transport _ _ w) by reflexivity. rewrite Hfetch.
    rewrite run_bind, run_call. cbn [handle]. unfold store_call.
    cbn [store_fault store_calls push_log]. rewrite Hfault. cbn [fst snd].
    rewrite run_call. reflexivity. }
  rewrite Hexec. cbn [db outbox store_calls logs push_log count_store_call].
  repeat split.
  - now rewrite <- app_assoc.
  - intros Hctx. unfold exec. cbn [checkAll_loop].
    rewrite run_bind. rewrite run_call in Hctx |- *. rewrite Hctx.
    assert (Hw : snd (handle ctx_Err w) = w) by reflexivity. rewrite Hw.
    rewrite run_bind. fold (exec (processFeed feed) w). now rewrite Hexec.
Qed.

(** C9. When the fetch of a due feed fails and the store accepts the update,
    nothing is sent, no seen-entry is written, and in the table of feeds
    exactly the last check of the feed's row changes, to now (in seconds);
    every other field and every other row is as it was. *)
Theorem processFeed_fetch_failure (w : World) (feed : Feed) (e : string) (now0 : Time) :
  fst (run (fetcher.Fetch (Feed_URL feed)) w) = Err e ->
  In feed (ListDueFeeds (db w) now0) ->
  feeds_pk (db w) ->
  store_fault w (store_calls w) = None ->
  outbox (exec (processFeed feed) w) = outbox w
  /\ seen_items (db (exec (processFeed feed) w)) = seen_items (db w)
  /\ filters (db (exec (processFeed feed) w)) = filters (db w)
  /\ feeds (db (exec (processFeed feed) w)) =
       map (fun r => if feeds_id r =? Feed_ID feed
                     then with_last_check r (Format (clock w)) else r)
           (feeds (db w))
  /\ (exists r, In r (feeds (db w)) /\ scanFeed r = feed /\
                In (with_last_check r (Format (clock w)))
                   (feeds (db (exec (processFeed feed) w)))).
Proof.
  intros Hfetch Hdue Hpk Hok.
  destruct (due_feed_row _ _ _ Hdue) as [r [Hin [Hscan Hact]]].
  assert (Hexec : exec (processFeed feed) w =
                  exec (updateLastCheck feed)
                    (push_log (push_log w (debug_entry feed))
                       ("ERROR", "fetch feed",
                        [("feed_id", itoa (Feed_ID feed)); ("url", Feed_URL feed);
                         ("error", e)]))).
  { unfold exec, processFeed.
    rewrite run_bind, run_call. cbn [handle fst snd].
    fold (debug_entry feed).
    rewrite run_bind, Fetch_world.
    rewrite (Fetch_transport _ _ w) by reflexivity. rewrite Hfetch.
    rewrite run_bind, run_call. reflexivity. }
  rewrite Hexec, updateLastCheck_exec by exact Hok.
  cbn [db outbox push_log set_db count_store_call clock UpdateFeed seen_items filters feeds
       Feed_ID Feed_Name Feed_URL Feed_IntervalMinutes Feed_IsActive Feed_LastCheckAt option_map].
  assert (Hmap : map (fun r0 =>
                   if feeds_id r0 =? Feed_ID feed
                   then mk_feeds_row (feeds_id r0) (feeds_chat_id r0) (Feed_Name feed)
                          (Feed_URL feed) (Feed_IntervalMinutes feed)
                          (boolToInt (Feed_IsActive feed)) (Some (Format (clock w)))
                          (feeds_created_at r0)
                   else r0) (feeds (db w)) =
                 map (fun r0 => if feeds_id r0 =? Feed_ID feed
                                then with_last_check r0 (Format (clock w)) else r0)
                     (feeds (db w))).
  { apply map_ext_in. intros r0 Hin0.
    destruct (Z.eqb_spec (feeds_id r0) (Feed_ID feed)) as [Hid | Hid]; [| reflexivity].
    assert (r0 = r) as ->.
    { apply (pk_unique (feeds (db w))); auto. rewrite Hid, <- Hscan. reflexivity. }
    rewrite <- Hscan. unfold with_last_check, scanFeed. cbn. rewrite Hact. reflexivity. }
  split; [reflexivity |]. split; [reflexivity |]. split; [reflexivity |].
  split; [exact Hmap |].
  exists r. split; [exact Hin |]. split; [exact Hscan |].
  rewrite Hmap. apply in_map_iff. exists r. split; [| exact Hin].
  rewrite <- Hscan. cbn. now rewrite Z.eqb_refl.
Qed.


End WithLib.

End scheduler_facts.

(** ** Deduplication *)

Module dedup_facts.

Import sqlite storage scheduler harness run_facts fetch_facts seen_facts scheduler_facts spec.

Lemma IsSeen_MarkSeen (d : DB) (feedID : Z) (g g' : string) (t : Time) :
  IsSeen (snd (MarkSeen d feedID g t)) feedID g' = IsSeen d feedID g' || String.eqb g g'.
Proof.
  rewrite !IsSeen_exists. unfold MarkSeen, insert_seen.
  destruct (existsb (seen_key feedID g) (seen_items d)) eqn:Hex; cbn [snd seen_items].
  - destruct (String.eqb_spec g g') as [<- | Hne]; [| now rewrite orb_false_r].
    now rewrite Hex.
  - rewrite existsb_app. cbn [existsb]. unfold seen_key at 2.
    cbn [seen_feed_id seen_guid]. now rewrite Z.eqb_refl, orb_false_r.
Qed.

Lemma handle_config {X : Type} (op : Op X) (w : World) :
  transport (snd (handle op w)) = transport w /\
  store_fault (snd (handle op w)) = store_fault w.
Proof.
  destruct op; cbn [handle]; unfold store_call;
    try (destruct (store_fault w (store_calls w)); [now split |]);
    try (destruct (MarkSeen _ _ _ _)); now split.
Qed.

Lemma run_config {A : Type} (p : Prog A) (w : World) :
  transport (snd (run p w)) = transport w /\
  store_fault (snd (run p w)) = store_fault w.
Proof.
  revert w. induction p as [a | X op k IH]; intros w; [now split |].
  cbn [run]. destruct (handle op w) as [x w'] eqn:Hh.
  destruct (IH x w') as [H1 H2]. destruct (handle_config op w) as [H3 H4].
  rewrite Hh in H3, H4. cbn [snd] in H3, H4. split; congruence.
Qed.

Section WithLib.
Context {lib : GoLib}.

(** One turn of the loop of [processFeed] over an item, with a store that
    does not fail. *)
Lemma deliver_cons (feed : Feed) (item : fetcher.MatchedItem)
    (rest : list fetcher.MatchedItem) (sent : Z) (w : World) :
  no_faults w ->
  run (deliver feed (item :: rest) sent) w =
  if IsSeen (db w) (Feed_ID feed) (fetcher.GUID item)
  then run (deliver feed rest sent) (count_store_call w)
  else run (deliver feed rest (sent + 1))
         (set_clock
            (set_db
               (count_store_call
                  (push_outbox (count_store_call w)
                     (Feed_ChatID feed, bot.FormatNotification (Feed_Name feed) item)))
               (snd (MarkSeen (db w) (Feed_ID feed) (fetcher.GUID item) (clock w))))
            (clock w + 50 * millisecond)).
Proof.
  intros Hnf. cbn [deliver].
  rewrite run_bind, run_call. cbn [handle]. unfold store_call. rewrite (Hnf _).
  cbn [fst snd].
  assert (Hset : set_db (count_store_call w) (db w) = count_store_call w)
    by (now destruct w).
  rewrite Hset.
  destruct (IsSeen (db w) (Feed_ID feed) (fetcher.GUID item)); [reflexivity |].
  rewrite run_bind, run_call. cbn [handle fst snd].
  rewrite run_bind, run_call. cbn [handle]. unfold store_call.
  cbn [store_fault store_calls push_outbox count_store_call]. rewrite (Hnf _).
  pose proof (MarkSeen_seen (db w) (Feed_ID feed) (fetcher.GUID item) (clock w)) as [He _].
  change (db (push_outbox (count_store_call w) _)) with (db w).
  change (clock (push_outbox (count_store_call w) _)) with (clock w).
  destruct (MarkSeen (db w) (Feed_ID feed) (fetcher.GUID item) (clock w)) as [err d'].
  cbn [fst snd] in He |- *. subst err.
  rewrite run_bind. cbn [run fst snd].
  rewrite run_bind, run_call. cbn [handle fst snd]. reflexivity.
Qed.

Lemma MarkSeen_frame (d : DB) (feedID : Z) (g : string) (t : Time) :
  filters (snd (MarkSeen d feedID g t)) = filters d /\
  feeds (snd (MarkSeen d feedID g t)) = feeds d.
Proof.
  unfold MarkSeen, insert_seen. now destruct (existsb _ _).
Qed.

(** What the loop leaves: the filters and feeds as they were, what was seen
    still seen, every matched item seen; and nothing sent when every matched
    item was seen before. *)
Lemma deliver_seen (feed : Feed) (matched : list fetcher.MatchedItem) (sent : Z) (w : World) :
  no_faults w ->
  filters (db (snd (run (deliver feed matched sent) w))) = filters (db w)
  /\ feeds (db (snd (run (deliver feed matched sent) w))) = feeds (db w)
  /\ (forall g, IsSeen (db w) (Feed_ID feed) g = true ->
        IsSeen (db (snd (run (deliver feed matched sent) w))) (Feed_ID feed) g = true)
  /\ (forall m, In m matched ->
        IsSeen (db (snd (run (deliver feed matched sent) w))) (Feed_ID feed) (fetcher.GUID m)
        = true)
  /\ ((forall m, In m matched -> IsSeen (db w) (Feed_ID feed) (fetcher.GUID m) = true) ->
        outbox (snd (run (deliver feed matched sent) w)) = outbox w).
Proof.
  revert sent w. induction matched as [| item rest IH]; intros sent w Hnf.
  - cbn [deliver run snd]. repeat split; auto; intros m [].
  - rewrite (deliver_cons feed item rest sent w Hnf).
    destruct (IsSeen (db w) (Feed_ID feed) (fetcher.GUID item)) eqn:Hseen.
    + destruct (IH sent (count_store_call w) Hnf) as [Hf [Hfe [Hmono [Hall Hout]]]].
      split; [exact Hf |]. split; [exact Hfe |]. split; [exact Hmono |]. split.
      * intros m [<- | Hin]; [now apply Hmono | now apply Hall].
      * intros Hs. apply Hout. intros m Hin. apply Hs. now right.
    + set (w2 := set_clock _ _).
      assert (Hnf2 : no_faults w2) by exact Hnf.
      destruct (IH (sent + 1) w2 Hnf2) as [Hf [Hfe [Hmono [Hall Hout]]]].
      destruct (MarkSeen_frame (db w) (Feed_ID feed) (fetcher.GUID item) (clock w))
        as [Hmf Hmfe].
      assert (Hstep : forall g, IsSeen (db w2) (Feed_ID feed) g =
                                IsSeen (db w) (Feed_ID feed) g || String.eqb (fetcher.GUID item) g)
        by (intros g; apply IsSeen_MarkSeen).
      split; [rewrite Hf; exact Hmf |]. split; [rewrite Hfe; exact Hmfe |]. split; [| split].
      * intros g Hg. apply Hmono. now rewrite Hstep, Hg.
      * intros m [<- | Hin]; [| now apply Hall].
        apply Hmono. now rewrite Hstep, String.eqb_refl, orb_true_r.
      * intros Hs. rewrite (Hs item) in Hseen by now left. discriminate Hseen.
Qed.

(** [processFeed] when the feed was fetched and the store does not fail. *)
Lemma processFeed_exec (feed : Feed) (rssFeed : gofeed.Feed) (w : World) :
  no_faults w ->
  fst (run (fetcher.Fetch (Feed_URL feed)) w) = Ok rssFeed ->
  exists wd,
    wd = snd (run (deliver feed
                     (fetcher.FilterItems (gofeed.Feed_Items rssFeed)
                        (ListFilters (db w) (Feed_ID feed))) 0)
                (count_store_call (push_log w (debug_entry feed))))
    /\ outbox (exec (processFeed feed) w) = outbox wd
    /\ seen_items (db (exec (processFeed feed) w)) = seen_items (db wd)
    /\ filters (db (exec (processFeed feed) w)) = filters (db wd).
Proof.
  intros Hnf Hfetch. eexists. split; [reflexivity |].
  unfold exec at 1 2 3, processFeed.
  rewrite run_bind, run_call. cbn [handle fst snd]. fold (debug_entry feed).
  rewrite run_bind, Fetch_world.
  rewrite (Fetch_transport _ _ w) by reflexivity. rewrite Hfetch.
  rewrite run_bind, run_call. cbn [handle]. unfold store_call.
  cbn [store_fault store_calls push_log]. rewrite (Hnf _). cbn [fst snd].
  change (set_db (count_store_call (mkWorld (db w) (clock w) (deadline w) (transport w)
            (outbox w) (logs w ++ [debug_entry feed]) (store_calls w) (store_fault w)))
            (db w))
    with (count_store_call (push_log w (debug_entry feed))).
  rewrite run_bind.
  set (rd := run (deliver feed _ 0) _).
  assert (Hnfd : no_faults (snd rd)).
  { intros n. unfold rd. rewrite (proj2 (run_config _ _)). apply Hnf. }
  rewrite run_bind.
  fold (exec (updateLastCheck feed)
          (snd (run (if 0 <? fst rd
                     then call (slog "INFO" "sent notifications"
                                  [("feed_id", itoa (Feed_ID feed)); ("name", Feed_Name feed);
                                   ("count", itoa (fst rd))])
                     else Ret tt) (snd rd)))).
  rewrite updateLastCheck_exec.
  - destruct (0 <? fst rd); [rewrite run_call |]; repeat split.
  - destruct (0 <? fst rd); [rewrite run_call |]; apply Hnfd.
Qed.

(** At most once: after a cycle over a feed with a store that does not fail,
    every item that passed the filters is in the seen-set, and a second cycle
    over the same fetched document sends nothing. *)
Theorem processFeed_delivers_at_most_once (w : World) (feed : Feed) (rssFeed : gofeed.Feed) :
  no_faults w ->
  fst (run (fetcher.Fetch (Feed_URL feed)) w) = Ok rssFeed ->
  (forall m, In m (fetcher.FilterItems (gofeed.Feed_Items rssFeed)
                     (ListFilters (db w) (Feed_ID feed))) ->
             IsSeen (db (exec (processFeed feed) w)) (Feed_ID feed) (fetcher.GUID m) = true)
  /\ outbox (exec (processFeed feed) (exec (processFeed feed) w)) =
     outbox (exec (processFeed feed) w).
Proof.
  intros Hnf Hfetch.
  destruct (processFeed_exec feed rssFeed w Hnf Hfetch) as [wd [Hwd [Hout [Hseen Hfil]]]].
  set (w0 := count_store_call (push_log w (debug_entry feed))) in Hwd.
  destruct (deliver_seen feed
              (fetcher.FilterItems (gofeed.Feed_Items rssFeed) (ListFilters (db w) (Feed_ID feed)))
              0 w0 Hnf) as [Hf [_ [_ [Hall _]]]].
  rewrite <- Hwd in Hf, Hall.
  assert (Hall1 : forall m,
             In m (fetcher.FilterItems (gofeed.Feed_Items rssFeed)
                     (ListFilters (db w) (Feed_ID feed))) ->
             IsSeen (db (exec (processFeed feed) w)) (Feed_ID feed) (fetcher.GUID m) = true).
  { intros m Hin. unfold IsSeen. rewrite Hseen. now apply Hall. }
  split; [exact Hall1 |].
  set (w1 := exec (processFeed feed) w) in *.
  assert (Hnf1 : no_faults w1).
  { intros n. unfold w1, exec. rewrite (proj2 (run_config _ _)). apply Hnf. }
  assert (Hfetch1 : fst (run (fetcher.Fetch (Feed_URL feed)) w1) = Ok rssFeed).
  { rewrite (Fetch_transport _ w1 w); [exact Hfetch |].
    unfold w1, exec. now destruct (run_config (processFeed feed) w). }
  assert (Hfilters : ListFilters (db w1) (Feed_ID feed) = ListFilters (db w) (Feed_ID feed)).
  { unfold ListFilters. rewrite Hfil, Hf. reflexivity. }
  destruct (processFeed_exec feed rssFeed w1 Hnf1 Hfetch1) as [wd1 [Hwd1 [Hout1 _]]].
  rewrite Hout1, Hwd1, Hfilters.
  destruct (deliver_seen feed
              (fetcher.FilterItems (gofeed.Feed_Items rssFeed) (ListFilters (db w) (Feed_ID feed)))
              0 (count_store_call (push_log w1 (debug_entry feed))) Hnf1)
    as [_ [_ [_ [_ Hnone]]]].
  apply Hnone. exact Hall1.
Qed.

End WithLib.
End dedup_facts.

(** ** The store: creating, reading, updating and deleting *)

Module crud_facts.

Import sqlite storage crud spec.

Lemma largest_bounds (ids : list Z) (seq : Z) :
  seq <= largest ids seq /\ forall i, In i ids -> i <= largest ids seq.
Proof.
  induction ids as [| x ids [IH1 IH2]]; simpl.
  - split; [lia | intros i []].
  - split; [lia |]. intros i [<- | Hi]; [lia |]. specialize (IH2 i Hi). lia.
Qed.

Lemma next_rowid_fresh (ids : list Z) (seq id : Z) :
  next_rowid ids seq = Ok id ->
  seq < id /\ (forall i, In i ids -> i < id) /\ id <= max_rowid.
Proof.
  unfold next_rowid. destruct (Z.ltb_spec (largest ids seq) max_rowid) as [Hlt | Hge];
    [| discriminate].
  intros H. injection H as <-. destruct (largest_bounds ids seq) as [H1 H2].
  split; [lia |]. split; [| lia]. intros i Hi. specialize (H2 i Hi). lia.
Qed.

Lemma find_app_absent {A : Type} (p : A -> bool) (l : list A) (x : A) :
  (forall y, In y l -> p y = false) ->
  find p (l ++ [x]) = if p x then Some x else None.
Proof.
  induction l as [| y l IH]; intros H; simpl; [reflexivity |].
  rewrite (H y) by now left. apply IH. intros z Hz. apply H. now right.
Qed.

Lemma find_app_other {A : Type} (p : A -> bool) (l : list A) (x : A) :
  p x = false -> find p (l ++ [x]) = find p l.
Proof.
  intros Hx. induction l as [| y l IH]; simpl; [now rewrite Hx |].
  destruct (p y); [reflexivity | exact IH].
Qed.

Lemma boolToInt_eqb (b : bool) : (boolToInt b =? 1) = b.
Proof. now destruct b. Qed.

(** X5. A created feed can be read back under its new ID: with the fields given,
    a creation time of second precision, and no last check even when the
    caller's feed had one.  The ID is larger than every ID of the table and
    than the table's counter; the other feeds read as before; distinct IDs
    stay distinct. *)
Theorem CreateFeed_then_GetFeed (s s' : Store) (feed feed' : Feed) (now : Time) :
  CreateFeed s feed now = (Ok feed', s') ->
  GetFeed (tables s') (Feed_ID feed') =
    Ok (mkFeed (Feed_ID feed') (Feed_ChatID feed) (Feed_Name feed) (Feed_URL feed)
          (Feed_IntervalMinutes feed) (Feed_IsActive feed) None (Parse (Format now)))
  /\ (forall r, In r (feeds (tables s)) -> feeds_id r < Feed_ID feed')
  /\ feeds_seq s < Feed_ID feed'
  /\ (forall id, id <> Feed_ID feed' -> GetFeed (tables s') id = GetFeed (tables s) id)
  /\ (feeds_pk (tables s) -> feeds_pk (tables s'))
  /\ filters (tables s') = filters (tables s)
  /\ seen_items (tables s') = seen_items (tables s).
Proof.
  unfold CreateFeed.
  destruct (next_rowid _ _) as [id | e] eqn:Hid; [| discriminate].
  intros H. injection H as <- <-. cbn [Feed_ID tables feeds filters seen_items].
  destruct (next_rowid_fresh _ _ _ Hid) as [Hseq [Hfresh _]].
  assert (Hrows : forall r, In r (feeds (tables s)) -> feeds_id r < id).
  { intros r Hr. apply Hfresh. now apply in_map. }
  split; [| split; [exact Hrows | split; [exact Hseq | split; [| split; [| split]]]]].
  - unfold GetFeed. cbn [feeds]. rewrite find_app_absent.
    + cbn [feeds_id]. rewrite Z.eqb_refl. unfold scanFeed. cbn.
      now rewrite boolToInt_eqb.
    + intros r Hr. apply Z.eqb_neq. specialize (Hrows r Hr). lia.
  - intros id' Hne. unfold GetFeed. cbn [feeds]. rewrite find_app_other; [reflexivity |].
    cbn [feeds_id]. apply Z.eqb_neq. congruence.
  - unfold feeds_pk. cbn [feeds]. intros Hpk. rewrite map_app. cbn [map feeds_id].
    apply seen_facts.NoDup_snoc; [exact Hpk |].
    intros Hin. specialize (Hfresh id Hin). lia.
  - reflexivity.
  - reflexivity.
Qed.

Lemma DeleteFeeds_seq (s : Store) (ids : list Z) :
  feeds_seq (fold_left (fun st id => with_tables st (DeleteFeed (tables st) id)) ids s)
  = feeds_seq s.
Proof.
  revert s. induction ids as [| id ids IH]; intros s; simpl; [reflexivity |].
  now rewrite IH.
Qed.

Lemma CreateFeed_counter (s s' : Store) (feed feed' : Feed) (now : Time) :
  CreateFeed s feed now = (Ok feed', s') ->
  feeds_seq s < Feed_ID feed' /\ feeds_seq s' = Feed_ID feed'.
Proof.
  unfold CreateFeed. destruct (next_rowid _ _) as [id | e] eqn:Hid; [| discriminate].
  intros H. injection H as <- <-. cbn [Feed_ID feeds_seq].
  split; [exact (proj1 (next_rowid_fresh _ _ _ Hid)) | reflexivity].
Qed.

(** X6. The IDs of feeds are not used again: a feed created after another, even
    when feeds were deleted in between, gets a larger ID. *)
Theorem feed_IDs_are_not_reused (s s1 s2 : Store) (feed1 feed2 f1 f2 : Feed) (t1 t2 : Time)
    (deleted : list Z) :
  CreateFeed s feed1 t1 = (Ok f1, s1) ->
  CreateFeed (fold_left (fun st id => with_tables st (DeleteFeed (tables st) id)) deleted s1)
             feed2 t2 = (Ok f2, s2) ->
  Feed_ID f1 < Feed_ID f2.
Proof.
  intros H1 H2.
  destruct (CreateFeed_counter _ _ _ _ _ H1) as [_ Hseq].
  destruct (CreateFeed_counter _ _ _ _ _ H2) as [Hlt _].
  rewrite DeleteFeeds_seq, Hseq in Hlt. exact Hlt.
Qed.

Lemma find_none_iff {A : Type} (p : A -> bool) (l : list A) :
  find p l = None <-> forall x, In x l -> p x = false.
Proof.
  split.
  - intros H x Hx. now apply (find_none p l H).
  - induction l as [| y l IH]; intros H; simpl; [reflexivity |].
    rewrite (H y) by now left. apply IH. intros x Hx. apply H. now right.
Qed.

Lemma filter_filter_id {A : Type} (p q : A -> bool) (l : list A) :
  (forall x, p x = true -> q x = true) ->
  List.filter p (List.filter q l) = List.filter p l.
Proof.
  intros H. induction l as [| x l IH]; simpl; [reflexivity |].
  destruct (q x) eqn:Hq; simpl.
  - now rewrite IH.
  - destruct (p x) eqn:Hp; [| exact IH]. apply H in Hp. congruence.
Qed.

Lemma filter_filter_none {A : Type} (p q : A -> bool) (l : list A) :
  (forall x, q x = true -> p x = false) ->
  List.filter p (List.filter q l) = [].
Proof.
  intros H. induction l as [| x l IH]; simpl; [reflexivity |].
  destruct (q x) eqn:Hq; simpl; [| exact IH]. now rewrite (H x Hq).
Qed.

Lemma find_filter_other {A : Type} (p q : A -> bool) (l : list A) :
  (forall x, p x = true -> q x = true) ->
  find p (List.filter q l) = find p l.
Proof.
  intros H. induction l as [| x l IH]; simpl; [reflexivity |].
  destruct (q x) eqn:Hq; simpl.
  - destruct (p x); [reflexivity | exact IH].
  - destruct (p x) eqn:Hp; [| exact IH]. apply H in Hp. congruence.
Qed.

(** X7. Deleting a feed deletes what belongs to it and nothing else: the feed is
    not found any more, it has no filter and no seen-entry, it is not due;
    every other feed, its filters and its seen-entries read as before. *)
Theorem DeleteFeed_cascade (d : DB) (id : Z) :
  GetFeed (DeleteFeed d id) id = Err (wrap "scan feed" "sql: no rows in result set")
  /\ ListFilters (DeleteFeed d id) id = []
  /\ (forall g, IsSeen (DeleteFeed d id) id g = false)
  /\ (forall now f, In f (ListDueFeeds (DeleteFeed d id) now) -> Feed_ID f <> id)
  /\ (forall id', id' <> id ->
        GetFeed (DeleteFeed d id) id' = GetFeed d id'
        /\ ListFilters (DeleteFeed d id) id' = ListFilters d id'
        /\ (forall g, IsSeen (DeleteFeed d id) id' g = IsSeen d id' g)).
Proof.
  split; [| split; [| split; [| split]]].
  - unfold GetFeed, DeleteFeed. cbn [feeds].
    destruct (find _ _) as [r |] eqn:Hf; [| reflexivity].
    apply find_some in Hf. destruct Hf as [Hin Hid].
    apply filter_In in Hin. destruct Hin as [_ Hne]. rewrite Hid in Hne. discriminate.
  - unfold ListFilters, DeleteFeed. cbn [filters].
    rewrite filter_filter_none; [reflexivity |].
    intros r Hr. apply negb_true_iff in Hr. exact Hr.
  - intros g. unfold IsSeen, DeleteFeed. cbn [seen_items].
    rewrite filter_filter_none; [reflexivity |].
    intros r Hr. apply negb_true_iff in Hr. unfold seen_key. now rewrite Hr.
  - intros now f Hin Hid. unfold ListDueFeeds, scanFeeds, DeleteFeed in Hin. cbn [feeds] in Hin.
    apply in_map_iff in Hin. destruct Hin as [r [<- Hin]].
    apply filter_In in Hin. destruct Hin as [Hin _].
    apply filter_In in Hin. destruct Hin as [_ Hne].
    cbn [scanFeed Feed_ID] in Hid. apply negb_true_iff, Z.eqb_neq in Hne. contradiction.
  - intros id' Hne. split; [| split].
    + unfold GetFeed, DeleteFeed. cbn [feeds]. rewrite find_filter_other; [reflexivity |].
      intros r Hr. apply Z.eqb_eq in Hr. apply negb_true_iff, Z.eqb_neq. congruence.
    + unfold ListFilters, DeleteFeed. cbn [filters]. rewrite filter_filter_id; [reflexivity |].
      intros r Hr. apply Z.eqb_eq in Hr. apply negb_true_iff, Z.eqb_neq. congruence.
    + intros g. unfold IsSeen, DeleteFeed. cbn [seen_items].
      rewrite filter_filter_id; [reflexivity |].
      intros r Hr. apply seen_facts.seen_key_spec in Hr. destruct Hr as [Hr _].
      apply negb_true_iff, Z.eqb_neq. congruence.
Qed.


Lemma find_map_same {A : Type} (p : A -> bool) (g : A -> A) (l : list A) :
  (forall x, p (g x) = p x) ->
  find p (map g l) = option_map g (find p l).
Proof.
  intros H. induction l as [| x l IH]; simpl; [reflexivity |].
  rewrite H. destruct (p x); [reflexivity | exact IH].
Qed.

(** X8. An updated feed reads back with the name, URL, interval, active flag and
    last check (to the second) that were given, and with the chat and the
    creation time it had: these two are never written.  The other feeds read
    as before.  Updating a feed that does not exist changes nothing (and, in
    the code, is no error). *)
Theorem UpdateFeed_then_GetFeed (d : DB) (feed : Feed) :
  match GetFeed d (Feed_ID feed) with
  | Ok old =>
    GetFeed (UpdateFeed d feed) (Feed_ID feed) =
      Ok (mkFeed (Feed_ID feed) (Feed_ChatID old) (Feed_Name feed) (Feed_URL feed)
            (Feed_IntervalMinutes feed) (Feed_IsActive feed)
            (option_map (fun t => Parse (Format t)) (Feed_LastCheckAt feed))
            (Feed_CreatedAt old))
  | Err _ => UpdateFeed d feed = d
  end
  /\ (forall id, id <> Feed_ID feed -> GetFeed (UpdateFeed d feed) id = GetFeed d id)
  /\ filters (UpdateFeed d feed) = filters d
  /\ seen_items (UpdateFeed d feed) = seen_items d
  /\ map feeds_id (feeds (UpdateFeed d feed)) = map feeds_id (feeds d).
Proof.
  split; [| split; [| split; [reflexivity | split; [reflexivity |]]]].
  - unfold GetFeed, UpdateFeed. cbn [feeds].
    rewrite find_map_same.
    2:{ intros r. destruct (feeds_id r =? Feed_ID feed) eqn:E; cbn [feeds_id];
        rewrite ?E; reflexivity. }
    destruct (find _ (feeds d)) as [r |] eqn:Hf; cbn [option_map].
    + apply find_some in Hf. destruct Hf as [_ Hid]. rewrite Hid.
      unfold scanFeed. cbn. apply Z.eqb_eq in Hid. rewrite boolToInt_eqb, Hid.
      now destruct (Feed_LastCheckAt feed).
    + destruct d as [fs fl sn]. cbn [feeds filters seen_items] in *. f_equal.
      rewrite <- (map_id fs) at 2. apply map_ext_in. intros r Hr.
      now rewrite (proj1 (find_none_iff _ _) Hf r Hr).
  - intros id Hne. unfold GetFeed, UpdateFeed. cbn [feeds].
    induction (feeds d) as [| r rows IH]; [reflexivity |]. cbn [map find].
    destruct (Z.eqb_spec (feeds_id r) (Feed_ID feed)) as [He | He]; cbn [feeds_id].
    + rewrite He. destruct (Z.eqb_spec (Feed_ID feed) id); [congruence | exact IH].
    + destruct (feeds_id r =? id); [reflexivity | exact IH].
  - unfold UpdateFeed. cbn [feeds]. rewrite map_map. apply map_ext.
    intros r. now destruct (feeds_id r =? Feed_ID feed).
Qed.

(** X9. A paused feed is never due: once a feed is updated with its active flag
    off, [ListDueFeeds] does not return it, at any time. *)
Theorem paused_feed_is_never_due (d : DB) (feed : Feed) (now : Time) (f : Feed) :
  In f (ListDueFeeds (UpdateFeed d (assign.IsActive feed false)) now) ->
  Feed_ID f <> Feed_ID feed.
Proof.
  unfold ListDueFeeds, scanFeeds, UpdateFeed. cbn [feeds assign.IsActive Feed_ID Feed_IsActive
    Feed_Name Feed_URL Feed_IntervalMinutes Feed_LastCheckAt boolToInt].
  intros Hin Hid. apply in_map_iff in Hin. destruct Hin as [r [<- Hin]].
  apply filter_In in Hin. destruct Hin as [Hin Hsel].
  apply in_map_iff in Hin. destruct Hin as [r0 [<- _]].
  destruct (Z.eqb_spec (feeds_id r0) (Feed_ID feed)) as [He | He].
  - unfold due_where in Hsel. cbn in Hsel. discriminate Hsel.
  - cbn [scanFeed Feed_ID] in Hid. contradiction.
Qed.

(** X10. The cadence of a feed: once its last check is recorded at [checked], the
    feed is due again exactly when now, to the second, has reached the
    second of the check plus its own interval, provided it is active; it is
    never due before. *)
Theorem checked_feed_is_due_after_its_interval (d : DB) (feed : Feed) (checked now : Time) :
  0 <= Feed_IntervalMinutes feed ->
  representable (Format checked) ->
  representable (Format now) ->
  In (Feed_ID feed) (map feeds_id (feeds d)) ->
  (In (Feed_ID feed)
      (map Feed_ID (ListDueFeeds (UpdateFeed d (assign.LastCheckAt feed checked)) now))
   <-> Feed_IsActive feed = true /\
       Format checked + Feed_IntervalMinutes feed * 60 <= Format now).
Proof.
  intros Hi Hc Hn Hex.
  set (d' := UpdateFeed d (assign.LastCheckAt feed checked)).
  assert (Hrow : forall r, In r (feeds d') -> feeds_id r = Feed_ID feed ->
            (selected (due_where (Format now) r) = true <->
             Feed_IsActive feed = true /\
             Format checked + Feed_IntervalMinutes feed * 60 <= Format now)).
  { intros r Hr Hid. unfold d', UpdateFeed in Hr. cbn [feeds] in Hr.
    apply in_map_iff in Hr. destruct Hr as [r0 [Hr0 _]].
    cbn [assign.LastCheckAt Feed_ID Feed_Name Feed_URL Feed_IntervalMinutes Feed_IsActive
         Feed_LastCheckAt option_map] in Hr0. revert Hr0.
    destruct (Z.eqb_spec (feeds_id r0) (Feed_ID feed)) as [He | He]; intros Hr0;
      [| subst r0; contradiction].
    subst r. rewrite due_facts.due_where_isDue; [| exact Hn | split; [exact Hi | exact Hc]].
    unfold isDue, scanFeed. cbn. rewrite boolToInt_eqb, andb_true_iff, Z.leb_le.
    pose proof (due_facts.seconds_floor
                  (Format checked + Feed_IntervalMinutes feed * 60) now) as Hfl.
    unfold second, Parse, Format in *. split; intros [Ha Hd]; (split; [exact Ha | lia]). }
  split.
  - intros Hin. apply in_map_iff in Hin. destruct Hin as [f [Hid Hin]].
    unfold ListDueFeeds, scanFeeds in Hin. apply in_map_iff in Hin.
    destruct Hin as [r [<- Hin]]. apply filter_In in Hin. destruct Hin as [Hin Hsel].
    exact (proj1 (Hrow r Hin Hid) Hsel).
  - intros Hdue. apply in_map_iff in Hex. destruct Hex as [r0 [Hid0 Hin0]].
    set (r := mk_feeds_row (feeds_id r0) (feeds_chat_id r0) (Feed_Name feed) (Feed_URL feed)
                (Feed_IntervalMinutes feed) (boolToInt (Feed_IsActive feed))
                (Some (Format checked)) (feeds_created_at r0)).
    assert (Hr : In r (feeds d')).
    { unfold d', UpdateFeed. cbn [feeds]. apply in_map_iff. exists r0.
      split; [| exact Hin0].
      cbn [assign.LastCheckAt Feed_ID Feed_Name Feed_URL Feed_IntervalMinutes Feed_IsActive
           Feed_LastCheckAt option_map].
      replace (feeds_id r0 =? Feed_ID feed) with true
        by (symmetry; apply Z.eqb_eq; exact Hid0).
      reflexivity. }
    assert (Hidr : feeds_id r = Feed_ID feed) by (unfold r; exact Hid0).
    apply in_map_iff. exists (scanFeed r). split; [exact Hidr |].
    unfold ListDueFeeds, scanFeeds. apply in_map. apply filter_In. split; [exact Hr |].
    apply (Hrow r Hr Hidr). exact Hdue.
Qed.


Section InsertionSort.
Variables (A : Type) (key : A -> Z) (ins : A -> list A -> list A).
Hypothesis ins_nil : forall r, ins r [] = [r].
Hypothesis ins_cons : forall r r' rest,
  ins r (r' :: rest) = if key r <=? key r' then r :: r' :: rest else r' :: ins r rest.

Lemma ins_Permutation (r : A) (l : list A) : Permutation (ins r l) (r :: l).
Proof.
  induction l as [| r' l IH]; [rewrite ins_nil; reflexivity |].
  rewrite ins_cons. destruct (key r <=? key r'); [reflexivity |].
  rewrite IH. apply perm_swap.
Qed.

Lemma ins_Sorted (r : A) (l : list A) :
  Sorted Z.le (map key l) -> Sorted Z.le (map key (ins r l)).
Proof.
  induction l as [| r' l IH]; intros Hs.
  - rewrite ins_nil. simpl. repeat constructor.
  - rewrite ins_cons. destruct (Z.leb_spec (key r) (key r')) as [Hle | Hgt].
    + simpl. constructor; [exact Hs | constructor; exact Hle].
    + simpl in *. inversion Hs as [| k ks Hs' Hhd]; subst.
      constructor; [apply IH; exact Hs' |].
      destruct l as [| r'' l].
      * rewrite ins_nil. simpl. constructor. lia.
      * rewrite ins_cons. destruct (key r <=? key r''); simpl; constructor; [lia |].
        inversion Hhd; subst. assumption.
Qed.

Lemma sort_Permutation (l : list A) : Permutation (fold_right ins [] l) l.
Proof.
  induction l as [| r l IH]; simpl; [reflexivity |].
  rewrite ins_Permutation. now constructor.
Qed.

Lemma sort_Sorted (l : list A) : Sorted Z.le (map key (fold_right ins [] l)).
Proof.
  induction l as [| r l IH]; simpl; [constructor | now apply ins_Sorted].
Qed.

End InsertionSort.

Lemma ListFilters_rows (d : DB) (feedID : Z) :
  Permutation
    (fold_right insert_by_id [] (List.filter (fun r => filters_feed_id r =? feedID) (filters d)))
    (List.filter (fun r => filters_feed_id r =? feedID) (filters d)).
Proof. apply (sort_Permutation _ filters_id); reflexivity. Qed.

Lemma ListFilters_In (d : DB) (feedID : Z) (f : Filter) :
  In f (ListFilters d feedID) <->
  exists r, In r (filters d) /\ filters_feed_id r = feedID /\ scanFilter r = f.
Proof.
  unfold ListFilters, order_by_id. rewrite in_map_iff. split.
  - intros [r [Hf Hr]]. apply (Permutation_in _ (ListFilters_rows d feedID)) in Hr.
    apply filter_In in Hr. destruct Hr as [Hr Hid]. apply Z.eqb_eq in Hid. now exists r.
  - intros [r [Hr [Hid Hf]]]. exists r. split; [exact Hf |].
    apply (Permutation_in _ (Permutation_sym (ListFilters_rows d feedID))). apply filter_In.
    split; [exact Hr | now apply Z.eqb_eq].
Qed.

(** X11. [ListFilters] returns the filters of the feed, all of them and no other,
    in the order of their IDs. *)
Theorem ListFilters_sorted_exact (d : DB) (feedID : Z) :
  Sorted Z.le (map Filter_ID (ListFilters d feedID))
  /\ Permutation (ListFilters d feedID)
       (map scanFilter (List.filter (fun r => filters_feed_id r =? feedID) (filters d)))
  /\ (forall f, In f (ListFilters d feedID) <->
        exists r, In r (filters d) /\ filters_feed_id r = feedID /\ scanFilter r = f)
  /\ (forall f, In f (ListFilters d feedID) -> Filter_FeedID f = feedID).
Proof.
  split; [| split; [| split]].
  - unfold ListFilters, order_by_id. rewrite map_map.
    apply (sort_Sorted _ filters_id); reflexivity.
  - unfold ListFilters, order_by_id. apply Permutation_map, ListFilters_rows.
  - intros f. apply ListFilters_In.
  - intros f Hf. apply ListFilters_In in Hf. destruct Hf as [r [_ [Hid <-]]]. exact Hid.
Qed.

(** X12. [ListFeeds] returns the feeds of the chat, all of them and none of
    another chat, in the order of their IDs. *)
Theorem ListFeeds_sorted_exact (d : DB) (chatID : Z) :
  Sorted Z.le (map Feed_ID (ListFeeds d chatID))
  /\ Permutation (ListFeeds d chatID)
       (scanFeeds (List.filter (fun r => feeds_chat_id r =? chatID) (feeds d)))
  /\ (forall f, In f (ListFeeds d chatID) -> Feed_ChatID f = chatID)
  /\ (forall r, In r (feeds d) -> feeds_chat_id r = chatID ->
        In (scanFeed r) (ListFeeds d chatID)).
Proof.
  unfold ListFeeds, scanFeeds.
  set (rows := List.filter (fun r => feeds_chat_id r =? chatID) (feeds d)).
  assert (Hperm : Permutation (fold_right insert_feed_by_id [] rows) rows)
    by (apply (sort_Permutation _ feeds_id); reflexivity).
  split; [| split; [| split]].
  - rewrite map_map. apply (sort_Sorted _ feeds_id); reflexivity.
  - now apply Permutation_map.
  - intros f Hf. apply in_map_iff in Hf. destruct Hf as [r [<- Hr]].
    apply (Permutation_in _ Hperm) in Hr. apply filter_In in Hr.
    destruct Hr as [_ Hid]. now apply Z.eqb_eq in Hid.
  - intros r Hr Hid. apply in_map. apply (Permutation_in _ (Permutation_sym Hperm)).
    apply filter_In. split; [exact Hr | now apply Z.eqb_eq].
Qed.

Lemma check_kind_known (f : Filter) : check_kind (Filter_Kind f) = filter.knownKind f.
Proof.
  unfold check_kind, filter.knownKind, filter.isInclude, filter.isExclude,
    FilterInclude, FilterExclude, FilterIncludeRe, FilterExcludeRe.
  destruct (String.eqb (Filter_Kind f) "include"),
           (String.eqb (Filter_Kind f) "exclude"),
           (String.eqb (Filter_Kind f) "include_re"),
           (String.eqb (Filter_Kind f) "exclude_re"); reflexivity.
Qed.


(** X14. [MarkSeen] adds the pair it is given and nothing else: afterwards a pair
    is seen exactly when it was seen before or is that pair; feeds and
    filters are untouched. *)
Theorem MarkSeen_adds_only_the_pair (d : DB) (feedID : Z) (guid : string) (now : Time) :
  (forall feedID' guid',
     IsSeen (snd (MarkSeen d feedID guid now)) feedID' guid' =
     IsSeen d feedID' guid' || ((feedID' =? feedID) && String.eqb guid' guid))
  /\ feeds (snd (MarkSeen d feedID guid now)) = feeds d
  /\ filters (snd (MarkSeen d feedID guid now)) = filters d.
Proof.
  split; [| unfold MarkSeen, insert_seen; now destruct (existsb _ _)].
  intros feedID' guid'. rewrite !seen_facts.IsSeen_exists. unfold MarkSeen, insert_seen.
  destruct (existsb (seen_key feedID guid) (seen_items d)) eqn:Hex; cbn [snd seen_items].
  - destruct (Z.eqb_spec feedID' feedID) as [-> | Hne]; [| now rewrite orb_false_r].
    destruct (String.eqb_spec guid' guid) as [-> | Hne]; [| now rewrite orb_false_r].
    now rewrite Hex.
  - rewrite existsb_app. cbn [existsb]. unfold seen_key at 2.
    cbn [seen_feed_id seen_guid]. rewrite orb_false_r.
    now rewrite (Z.eqb_sym feedID feedID'), (String.eqb_sym guid guid').
Qed.

End crud_facts.

Module history_facts.

Import sqlite storage crud history spec.

Lemma NoDup_map_filter {A B : Type} (f : A -> B) (p : A -> bool) (l : list A) :
  NoDup (map f l) -> NoDup (map f (List.filter p l)).
Proof.
  induction l as [| x l IH]; simpl; intros Hnd; [constructor |].
  inversion Hnd as [| y ys Hx Hl]; subst.
  destruct (p x); simpl; [constructor |]; auto.
  intros Hin. apply Hx. apply in_map_iff in Hin. destruct Hin as [z [Hz Hin]].
  apply filter_In in Hin. rewrite <- Hz. apply in_map. tauto.
Qed.

Lemma consistent_empty : consistent empty.
Proof.
  constructor; cbn; try constructor; try lia; intros r [].
Qed.

Lemma UpdateFeed_ids (d : DB) (feed : Feed) :
  map feeds_id (feeds (UpdateFeed d feed)) = map feeds_id (feeds d).
Proof.
  unfold UpdateFeed. cbn [feeds]. rewrite map_map. apply map_ext.
  intros r. now destruct (feeds_id r =? Feed_ID feed).
Qed.

Lemma consistent_step (s s' : Store) : consistent s -> step s s' -> consistent s'.
Proof.
  intros [Hf Hl Hs Hfc Hlc Hfr Hlr Hck Hfl] Hstep.
  destruct Hstep as [s s' feed feed' now Hc | s feed | s id | s s' f f' now Hc | s id
                    | s feedID guid now].
  - unfold CreateFeed in Hc.
    destruct (next_rowid _ _) as [id | e] eqn:Hid; [| discriminate Hc].
    destruct (crud_facts.next_rowid_fresh _ _ _ Hid) as [Hseq [Hfresh _]].
    injection Hc as _ <-.
    constructor; cbn [tables feeds filters seen_items feeds_seq filters_seq]; auto.
    + unfold feeds_pk. cbn [feeds]. rewrite map_app. apply seen_facts.NoDup_snoc; [exact Hf |].
      intros Hin. apply Hfresh in Hin. cbn [feeds_id] in Hin. lia.
    + lia.
    + intros r Hr. apply in_app_or in Hr. destruct Hr as [Hr | [<- | []]].
      * specialize (Hfr r Hr). specialize (Hfresh _ (in_map feeds_id _ _ Hr)). lia.
      * cbn [feeds_id]. lia.
    + intros r Hr. apply in_app_or in Hr. destruct Hr as [Hr | [<- | []]]; [auto |].
      cbn [feeds_is_active]. destruct (Feed_IsActive feed); cbn; auto.
  - constructor; cbn [with_tables tables feeds_seq filters_seq]; auto.
    + unfold feeds_pk. now rewrite UpdateFeed_ids.
    + unfold UpdateFeed. cbn [feeds]. intros r Hr. apply in_map_iff in Hr.
      destruct Hr as [r0 [<- Hr0]]. specialize (Hfr r0 Hr0).
      now destruct (feeds_id r0 =? Feed_ID feed).
    + unfold UpdateFeed. cbn [feeds]. intros r Hr. apply in_map_iff in Hr.
      destruct Hr as [r0 [<- Hr0]]. specialize (Hfl r0 Hr0).
      destruct (feeds_id r0 =? Feed_ID feed); [| exact Hfl].
      cbn [feeds_is_active]. destruct (Feed_IsActive feed); cbn; auto.
  - constructor; cbn [with_tables tables feeds_seq filters_seq DeleteFeed feeds filters seen_items];
      auto.
    + unfold feeds_pk. cbn [DeleteFeed feeds]. now apply NoDup_map_filter.
    + unfold filters_pk. cbn [DeleteFeed filters]. now apply NoDup_map_filter.
    + unfold seen_items_pk. cbn [DeleteFeed seen_items]. now apply NoDup_map_filter.
    + intros r Hr. apply filter_In in Hr. apply Hfr, Hr.
    + intros r Hr. apply filter_In in Hr. apply Hlr, Hr.
    + intros r Hr. apply filter_In in Hr. apply Hck, Hr.
    + intros r Hr. apply filter_In in Hr. apply Hfl, Hr.
  - unfold CreateFilter in Hc.
    destruct (check_kind (Filter_Kind f)) eqn:Hk; [| discriminate Hc].
    destruct (check_scope (Filter_Scope f)) eqn:Hsc; [| discriminate Hc].
    cbn [andb negb] in Hc.
    destruct (next_rowid _ _) as [id | e] eqn:Hid; [| discriminate Hc].
    destruct (crud_facts.next_rowid_fresh _ _ _ Hid) as [Hseq [Hfresh _]].
    injection Hc as _ <-.
    constructor; cbn [tables feeds filters seen_items feeds_seq filters_seq]; auto.
    + unfold filters_pk. cbn [filters]. rewrite map_app.
      apply seen_facts.NoDup_snoc; [exact Hl |].
      intros Hin. apply Hfresh in Hin. cbn [filters_id] in Hin. lia.
    + lia.
    + intros r Hr. apply in_app_or in Hr. destruct Hr as [Hr | [<- | []]].
      * specialize (Hlr r Hr). specialize (Hfresh _ (in_map filters_id _ _ Hr)). lia.
      * cbn [filters_id]. lia.
    + intros r Hr. apply in_app_or in Hr. destruct Hr as [Hr | [<- | []]]; [auto |].
      cbn [filters_kind filters_scope]. now split.
  - constructor; cbn [with_tables tables feeds_seq filters_seq DeleteFilter feeds filters seen_items];
      auto.
    + unfold filters_pk. cbn [DeleteFilter filters]. now apply NoDup_map_filter.
    + intros r Hr. apply filter_In in Hr. apply Hlr, Hr.
    + intros r Hr. apply filter_In in Hr. apply Hck, Hr.
  - assert (Hfeeds : feeds (snd (MarkSeen (tables s) feedID guid now)) = feeds (tables s))
      by (unfold MarkSeen, insert_seen; now destruct (existsb _ _)).
    assert (Hfilters : filters (snd (MarkSeen (tables s) feedID guid now)) = filters (tables s))
      by (unfold MarkSeen, insert_seen; now destruct (existsb _ _)).
    constructor; cbn [with_tables tables feeds_seq filters_seq]; auto.
    + unfold feeds_pk. now rewrite Hfeeds.
    + unfold filters_pk. now rewrite Hfilters.
    + now apply seen_facts.MarkSeen_pk.
    + now rewrite Hfeeds.
    + now rewrite Hfilters.
    + now rewrite Hfilters.
    + now rewrite Hfeeds.
Qed.

(** X15. Every store reached from a new database by the methods that write is
    consistent: unique keys, rowids positive and within their counter,
    filters of a known kind and scope, is_active 0 or 1.  So every feed reads
    back as it is stored, every filter the engine is given is one it knows,
    and an ID names at most one feed. *)
Theorem reachable_stores_are_consistent (s : Store) :
  reachable s ->
  consistent s
  /\ (forall feedID f, In f (ListFilters (tables s) feedID) ->
        filter.knownKind f = true /\ check_scope (Filter_Scope f) = true)
  /\ (forall id feed, GetFeed (tables s) id = Ok feed ->
        0 < id <= feeds_seq s /\ Feed_ID feed = id
        /\ forall r, In r (feeds (tables s)) -> feeds_id r = id -> scanFeed r = feed).
Proof.
  intros Hr.
  assert (Hc : consistent s).
  { induction Hr as [| s s' _ IH Hstep]; [exact consistent_empty |].
    exact (consistent_step s s' IH Hstep). }
  split; [exact Hc |]. destruct Hc as [Hf Hl Hs Hfc Hlc Hfr Hlr Hck Hfl]. split.
  - intros feedID f Hin.
    apply crud_facts.ListFilters_In in Hin.
    destruct Hin as [r [Hin [_ <-]]]. rewrite <- crud_facts.check_kind_known.
    exact (Hck r Hin).
  - intros id feed Hget. unfold GetFeed in Hget.
    destruct (find _ _) as [r |] eqn:Hfind; [| discriminate Hget].
    injection Hget as <-. apply find_some in Hfind. destruct Hfind as [Hin Hid].
    apply Z.eqb_eq in Hid. split; [rewrite <- Hid; exact (Hfr r Hin) |].
    split; [exact Hid |]. intros r' Hin' Hid'. f_equal.
    apply (scheduler_facts.pk_unique (feeds (tables s))); auto. congruence.
Qed.

End history_facts.

(** ** Text *)

Module text_facts.

Import utf8 text.

Lemma len_nonneg (s : string) : 0 <= len s.
Proof. unfold len. lia. Qed.

Lemma len_cons (c : ascii) (s : string) : len (String c s) = len s + 1.
Proof. unfold len. cbn [String.length]. lia. Qed.

Lemma len_app (s t : string) : len (s ++ t) = len s + len t.
Proof.
  induction s as [| c s IH]; [reflexivity |].
  cbn [append]. rewrite !len_cons, IH. lia.
Qed.

Lemma substring_take_drop (n m : nat) (s : string) :
  substring n m s = take m (drop n s).
Proof.
  revert n m. induction s as [| c s IH]; intros [| n] [| m]; cbn; try reflexivity.
  - now rewrite IH.
  - now rewrite IH.
  - now rewrite IH.
Qed.

Lemma take_all (n : nat) (s : string) : (String.length s <= n)%nat -> take n s = s.
Proof.
  revert n. induction s as [| c s IH]; intros [| n] H; cbn in *; try reflexivity; try lia.
  f_equal. apply IH. lia.
Qed.

Lemma length_drop (n : nat) (s : string) :
  String.length (drop n s) = (String.length s - n)%nat.
Proof.
  revert n. induction s as [| c s IH]; intros [| n]; cbn; try reflexivity. apply IH.
Qed.

Lemma length_take (n : nat) (s : string) :
  String.length (take n s) = Nat.min n (String.length s).
Proof.
  revert n. induction s as [| c s IH]; intros [| n]; cbn; try reflexivity. now rewrite IH.
Qed.

Lemma take_drop (n : nat) (s : string) : take n s ++ drop n s = s.
Proof.
  revert n. induction s as [| c s IH]; intros [| n]; cbn; try reflexivity. now rewrite IH.
Qed.

Lemma slice_take (s : string) (j : Z) : slice s 0 j = take (Z.to_nat j) s.
Proof.
  unfold slice. rewrite substring_take_drop. cbn [Z.to_nat drop]. now rewrite Z.sub_0_r.
Qed.

Lemma slice_drop (s : string) (i : Z) : 0 <= i -> slice s i (len s) = drop (Z.to_nat i) s.
Proof.
  intros Hi. unfold slice. rewrite substring_take_drop. apply take_all.
  rewrite length_drop. unfold len. lia.
Qed.

Lemma take_app (n : nat) (s t : string) :
  (n <= String.length s)%nat -> take n (s ++ t) = take n s.
Proof.
  revert n. induction s as [| c s IH]; intros [| n] H; cbn in *; try reflexivity; try lia.
  f_equal. apply IH. lia.
Qed.

Lemma drop_app (n : nat) (s t : string) :
  (n <= String.length s)%nat -> drop n (s ++ t) = drop n s ++ t.
Proof.
  revert n. induction s as [| c s IH]; intros [| n] H; cbn in *; try reflexivity; try lia.
  apply IH. lia.
Qed.

Lemma drop_length_app (s t : string) : drop (String.length s) (s ++ t) = t.
Proof. induction s as [| c s IH]; [reflexivity | exact IH]. Qed.

Lemma take_length_app (s t : string) : take (String.length s) (s ++ t) = s.
Proof. induction s as [| c s IH]; [reflexivity | cbn; now rewrite IH]. Qed.

Lemma drop_drop (n m : nat) (s : string) : drop n (drop m s) = drop (m + n) s.
Proof.
  revert m. induction s as [| c s IH]; intros [| m]; cbn; try reflexivity.
  - now destruct n.
  - apply IH.
Qed.

Lemma append_nil_r (s : string) : s ++ EmptyString = s.
Proof. induction s as [| c s IH]; [reflexivity | cbn; now rewrite IH]. Qed.

Lemma append_assoc (s t u : string) : (s ++ t) ++ u = s ++ (t ++ u).
Proof. induction s as [| c s IH]; [reflexivity | cbn; now rewrite IH]. Qed.

Lemma byte_range (c : ascii) : 0 <= byte c < 256.
Proof.
  unfold byte. pose proof (N_ascii_bounded c) as H. lia.
Qed.

Lemma first_spec (b sz lo hi : Z) :
  first b = Some (sz, lo, hi) ->
  (sz = 2 \/ sz = 3 \/ sz = 4) /\ 128 <= lo /\ hi <= 191 /\ 194 <= b.
Proof.
  unfold first.
  repeat match goal with
         | |- context [if ?c then _ else _] => destruct c eqn:?
         end; intros H; inversion H; subst; repeat split; try lia; auto.
Qed.


Lemma nth_byte_0 (c : ascii) (s : string) : nth_byte (String c s) 0 = byte c.
Proof. reflexivity. Qed.

Lemma nth_byte_S (c : ascii) (s : string) (i : Z) :
  0 < i -> nth_byte (String c s) i = nth_byte s (i - 1).
Proof.
  intros Hi. unfold nth_byte. replace (Z.to_nat i) with (S (Z.to_nat (i - 1))) by lia.
  reflexivity.
Qed.

Lemma nth_byte_app_l (s t : string) (i : Z) :
  0 <= i < len s -> nth_byte (s ++ t) i = nth_byte s i.
Proof.
  revert i. induction s as [| c s IH]; intros i Hi.
  - unfold len in Hi. cbn in Hi. lia.
  - rewrite len_cons in Hi. cbn [append]. destruct (Z.eq_dec i 0) as [-> | Hne].
    + reflexivity.
    + rewrite !nth_byte_S by lia. apply IH. lia.
Qed.

Lemma nth_byte_app_r (s t : string) (i : Z) :
  len s <= i -> nth_byte (s ++ t) i = nth_byte t (i - len s).
Proof.
  revert i. induction s as [| c s IH]; intros i Hi.
  - cbn [append]. unfold len. cbn. f_equal. lia.
  - rewrite len_cons in *. cbn [append]. pose proof (len_nonneg s).
    rewrite nth_byte_S by lia. rewrite IH by lia. f_equal. lia.
Qed.

Lemma decode_nil : DecodeRuneInString EmptyString = (RuneError, 0).
Proof. reflexivity. Qed.

Ltac split_ifs :=
  repeat match goal with
         | |- context [if ?c then _ else _] => destruct c eqn:?
         | |- context [match ?c with Some _ => _ | None => _ end] => destruct c as [[[? ?] ?] |] eqn:?
         end.

Lemma decode_size (s : string) :
  s <> EmptyString ->
  1 <= snd (DecodeRuneInString s) <= len s /\ snd (DecodeRuneInString s) <= 4.
Proof.
  intros Hs. assert (1 <= len s).
  { destruct s; [congruence |]. rewrite len_cons. pose proof (len_nonneg s). lia. }
  unfold DecodeRuneInString.
  destruct (len s <? 1) eqn:Hl; [lia |].
  destruct (nth_byte s 0 <? RuneSelf); [cbn; lia |].
  destruct (first (nth_byte s 0)) as [[[sz lo] hi] |] eqn:Hf; [| cbn; lia].
  apply first_spec in Hf.
  split_ifs; cbn [snd]; lia.
Qed.

Lemma decode_ascii (c : ascii) (s : string) :
  byte c < 128 -> DecodeRuneInString (String c s) = (byte c, 1).
Proof.
  intros Hc. unfold DecodeRuneInString. rewrite len_cons, nth_byte_0.
  pose proof (len_nonneg s).
  destruct (len s + 1 <? 1) eqn:Hl; [lia |].
  unfold RuneSelf. destruct (byte c <? 128) eqn:Hb; [reflexivity | lia].
Qed.

(** What follows a sequence does not change how it is decoded, when what
    follows starts a rune. *)
Lemma decode_app (p e : string) :
  p <> EmptyString -> starts_rune e ->
  DecodeRuneInString (p ++ e) = DecodeRuneInString p.
Proof.
  intros Hp He.
  assert (Hlen : 1 <= len p).
  { destruct p; [congruence |]. rewrite len_cons. pose proof (len_nonneg p). lia. }
  assert (Hhead : forall i lo hi, i = len p -> i < len (p ++ e) -> 128 <= lo -> hi <= 191 ->
            (nth_byte (p ++ e) i <? lo) || (hi <? nth_byte (p ++ e) i) = true).
  { intros i lo hi -> Hi Hlo Hhi. rewrite nth_byte_app_r by lia. rewrite Z.sub_diag.
    rewrite len_app in Hi. destruct e as [| d e']; [unfold len in Hi; cbn in Hi; lia |].
    rewrite nth_byte_0. cbn in He. unfold continuation in He.
    destruct (byte d <? lo) eqn:?, (hi <? byte d) eqn:?; try reflexivity. lia. }
  assert (Hcont : forall i, i = len p -> i < len (p ++ e) ->
            continuation (nth_byte (p ++ e) i) = false).
  { intros i Hi Hlt. specialize (Hhead i 128 191 Hi Hlt ltac:(lia) ltac:(lia)).
    unfold continuation. 
    destruct (128 <=? nth_byte (p ++ e) i) eqn:?, (nth_byte (p ++ e) i <=? 191) eqn:?;
      try reflexivity.
    destruct (nth_byte (p ++ e) i <? 128) eqn:?, (191 <? nth_byte (p ++ e) i) eqn:?;
      try discriminate; lia. }
  unfold DecodeRuneInString.
  pose proof (len_app p e) as Hla. pose proof (len_nonneg e) as Hle.
  destruct (len (p ++ e) <? 1) eqn:H1; [lia |].
  destruct (len p <? 1) eqn:H2; [lia |].
  rewrite (nth_byte_app_l p e 0) by lia.
  destruct (nth_byte p 0 <? RuneSelf); [reflexivity |].
  destruct (first (nth_byte p 0)) as [[[sz lo] hi] |] eqn:Hf; [| reflexivity].
  apply first_spec in Hf. destruct Hf as [Hsz [Hlo [Hhi _]]].
  destruct (len p <? sz) eqn:Hps.
  - (* the sequence is cut short in [p] *)
    destruct (len (p ++ e) <? sz) eqn:Hpes; [reflexivity |].
    destruct (Z.eq_dec (len p) 1) as [E1 | N1].
    { rewrite (Hhead 1 lo hi) by lia. reflexivity. }
    destruct ((nth_byte (p ++ e) 1 <? lo) || (hi <? nth_byte (p ++ e) 1)); [reflexivity |].
    destruct (sz <=? 2) eqn:?; [lia |].
    destruct (Z.eq_dec (len p) 2) as [E2 | N2].
    { rewrite (Hcont 2) by lia. reflexivity. }
    destruct (continuation (nth_byte (p ++ e) 2)); [| reflexivity]. cbn [negb].
    destruct (sz <=? 3) eqn:?; [lia |].
    rewrite (Hcont 3) by lia. reflexivity.
  - destruct (len (p ++ e) <? sz) eqn:Hpes; [lia |].
    rewrite (nth_byte_app_l p e 1) by lia.
    destruct ((nth_byte p 1 <? lo) || (hi <? nth_byte p 1)); [reflexivity |].
    destruct (sz <=? 2) eqn:?; [reflexivity |].
    rewrite (nth_byte_app_l p e 2) by lia.
    destruct (continuation (nth_byte p 2)); [| reflexivity]. cbn [negb].
    destruct (sz <=? 3) eqn:?; [reflexivity |].
    rewrite (nth_byte_app_l p e 3) by lia. reflexivity.
Qed.


Lemma runes_from_drop (s : string) (skip : nat) :
  runes_from s skip = runes (drop skip s).
Proof.
  revert skip. induction s as [| c s IH]; intros [| k]; try reflexivity.
  cbn [runes_from drop]. apply IH.
Qed.

Lemma runes_nil : runes EmptyString = [].
Proof. reflexivity. Qed.

Lemma runes_eq (s : string) :
  s <> EmptyString ->
  runes s =
  (fst (DecodeRuneInString s), take (Z.to_nat (snd (DecodeRuneInString s))) s)
    :: runes (drop (Z.to_nat (snd (DecodeRuneInString s))) s).
Proof.
  intros Hs. pose proof (decode_size s Hs) as [[H1 _] _].
  destruct s as [| c s]; [congruence |].
  unfold runes at 1. cbn [runes_from].
  destruct (DecodeRuneInString (String c s)) as [r size] eqn:Hd. cbn [fst snd] in *.
  rewrite slice_take, runes_from_drop. f_equal.
  replace (Z.to_nat size) with (S (Z.to_nat size - 1)) at 2 by lia. reflexivity.
Qed.

Lemma runes_nil_inv (s : string) : runes s = [] -> s = EmptyString.
Proof.
  intros H. destruct s as [| c s]; [reflexivity |].
  rewrite runes_eq in H by congruence. discriminate H.
Qed.

Lemma length_drop_lt (s : string) :
  s <> EmptyString ->
  (String.length (drop (Z.to_nat (snd (DecodeRuneInString s))) s) < String.length s)%nat.
Proof.
  intros Hs. pose proof (decode_size s Hs) as [[H1 H2] _]. rewrite length_drop.
  unfold len in H2. destruct s; [congruence |]. cbn [String.length] in *. lia.
Qed.

Lemma string_ind_length (P : string -> Prop) :
  (forall s, (forall t, (String.length t < String.length s)%nat -> P t) -> P s) ->
  forall s, P s.
Proof.
  intros H s. remember (String.length s) as n eqn:Hn. revert s Hn.
  induction n as [n IH] using lt_wf_ind. intros s ->.
  apply H. intros t Ht. exact (IH _ Ht t eq_refl).
Qed.

Lemma bytes_app (xs ys : list (Z * string)) :
  bytes (xs ++ ys)%list = bytes xs ++ bytes ys.
Proof.
  induction xs as [| x xs IH]; [reflexivity |].
  cbn [app bytes fold_right] in *. fold (bytes (xs ++ ys)%list). fold (bytes xs).
  rewrite IH. now rewrite append_assoc.
Qed.

Lemma bytes_cons (x : Z * string) (xs : list (Z * string)) : bytes (x :: xs) = snd x ++ bytes xs.
Proof. reflexivity. Qed.

(** The bytes of the runes of a text are the text. *)
Lemma bytes_runes (s : string) : bytes (runes s) = s.
Proof.
  induction s as [s IH] using string_ind_length.
  destruct s as [| c s]; [reflexivity |].
  rewrite runes_eq by congruence. rewrite bytes_cons. cbn [snd].
  rewrite IH by (apply length_drop_lt; congruence). apply take_drop.
Qed.

Lemma starts_rune_app (e t : string) : e <> EmptyString -> starts_rune e -> starts_rune (e ++ t).
Proof. destruct e; [congruence | auto]. Qed.

Lemma runes_app (p e : string) : starts_rune e -> runes (p ++ e) = (runes p ++ runes e)%list.
Proof.
  intros He. induction p as [p IH] using string_ind_length.
  destruct p as [| c p]; [reflexivity |].
  set (q := String c p) in *. assert (Hq : q <> EmptyString) by (unfold q; congruence).
  assert (Hqe : q ++ e <> EmptyString) by (unfold q; cbn; congruence).
  rewrite (runes_eq (q ++ e)) by exact Hqe. rewrite (runes_eq q) by exact Hq.
  rewrite decode_app by assumption.
  pose proof (decode_size q Hq) as [[H1 H2] _]. unfold len in H2.
  rewrite take_app by lia. rewrite drop_app by lia.
  rewrite IH by (apply length_drop_lt; exact Hq). reflexivity.
Qed.

Lemma runes_single (e : string) (r : Z) :
  e <> EmptyString -> DecodeRuneInString e = (r, len e) -> runes e = [(r, e)].
Proof.
  intros He Hd. rewrite runes_eq by exact He. rewrite Hd. cbn [fst snd].
  unfold len. rewrite Nat2Z.id. rewrite take_all by lia.
  replace (drop (String.length e) e) with EmptyString; [reflexivity |].
  symmetry. pose proof (length_drop (String.length e) e) as H.
  rewrite Nat.sub_diag in H. now destruct (drop (String.length e) e).
Qed.

Lemma runes_snoc_inv (s : string) (cs : list (Z * string)) (r : Z) (e : string) :
  runes s = (cs ++ [(r, e)])%list ->
  s = bytes cs ++ e /\ DecodeRuneInString e = (r, len e) /\ e <> EmptyString.
Proof.
  revert cs. induction s as [s IH] using string_ind_length. intros cs Hr.
  destruct s as [| c s]; [destruct cs; discriminate Hr |].
  set (q := String c s) in *. assert (Hq : q <> EmptyString) by (unfold q; congruence).
  rewrite runes_eq in Hr by exact Hq.
  pose proof (decode_size q Hq) as [[H1 H2] _].
  destruct cs as [| c1 cs].
  - cbn [app] in Hr. injection Hr as Hr1 Hr2 Hr3. apply runes_nil_inv in Hr3.
    assert (Hlen : Z.to_nat (snd (DecodeRuneInString q)) = String.length q).
    { pose proof (length_drop (Z.to_nat (snd (DecodeRuneInString q))) q) as Hl.
      rewrite Hr3 in Hl. cbn [String.length] in Hl. unfold len in H2. lia. }
    rewrite Hlen in Hr2. rewrite take_all in Hr2 by lia. subst e.
    split; [reflexivity |]. split; [| exact Hq].
    rewrite <- Hr1. unfold len. rewrite <- Hlen. rewrite Z2Nat.id by lia.
    now destruct (DecodeRuneInString q).
  - cbn [app] in Hr. injection Hr as Hr1 Hr2.
    apply IH in Hr2; [| apply length_drop_lt; exact Hq].
    destruct Hr2 as [Hs [Hd He]]. split; [| split; assumption].
    rewrite bytes_cons, append_assoc, <- Hs, <- Hr1. cbn [snd]. symmetry. apply take_drop.
Qed.

Lemma runes_suffix (s : string) (cs1 cs2 : list (Z * string)) :
  runes s = (cs1 ++ cs2)%list -> runes (bytes cs2) = cs2.
Proof.
  revert s. induction cs1 as [| c1 cs1 IH]; intros s Hr.
  - cbn [app] in Hr. rewrite <- Hr. now rewrite bytes_runes.
  - destruct s as [| c s]; [discriminate Hr |].
    rewrite runes_eq in Hr by congruence. cbn [app] in Hr. injection Hr as _ Hr.
    exact (IH _ Hr).
Qed.


Lemma nth_byte_range (s : string) (i : Z) : 0 <= nth_byte s i < 256.
Proof.
  unfold nth_byte. destruct (String.get _ _); [apply byte_range | lia].
Qed.

Lemma RuneStart_spec (b : Z) : 0 <= b < 256 -> RuneStart b = negb (continuation b).
Proof.
  intros Hb.
  assert (H : forall c, RuneStart (byte c) = negb (continuation (byte c))).
  { intros c. destruct c as [[] [] [] [] [] [] [] []]; reflexivity. }
  specialize (H (ascii_of_N (Z.to_N b))). unfold byte in H.
  rewrite N_ascii_embedding in H by lia. now rewrite Z2N.id in H by lia.
Qed.

Lemma backtrack_le (s : string) (start lim : Z) (n : nat) :
  backtrack s start lim n <= start.
Proof.
  revert start. induction n as [| n IH]; intros start; cbn [backtrack]; [lia |].
  destruct (start <? lim); [lia |]. destruct (RuneStart _); [lia |].
  specialize (IH (start - 1)). lia.
Qed.

(** A sequence of two bytes or more that decodes as a whole starts with a
    leading byte, and continuation bytes follow. *)
Lemma decode_wide (e : string) (r n : Z) :
  DecodeRuneInString e = (r, n) -> 2 <= n ->
  n <= len e /\ n <= 4 /\ 194 <= nth_byte e 0 /\
  forall i, 1 <= i < n -> continuation (nth_byte e i) = true.
Proof.
  unfold DecodeRuneInString.
  destruct (len e <? 1) eqn:?; [intros H; inversion H; lia |].
  destruct (nth_byte e 0 <? RuneSelf) eqn:?; [intros H; inversion H; lia |].
  destruct (first (nth_byte e 0)) as [[[sz lo] hi] |] eqn:Hf; [| intros H; inversion H; lia].
  apply first_spec in Hf. destruct Hf as [Hsz [Hlo [Hhi Hb]]].
  destruct (len e <? sz) eqn:?; [intros H; inversion H; lia |].
  destruct (nth_byte e 1 <? lo) eqn:?; [intros H; inversion H; lia |].
  destruct (hi <? nth_byte e 1) eqn:?; [intros H; inversion H; lia |].
  cbn [orb].
  assert (H1 : continuation (nth_byte e 1) = true).
  { unfold continuation. apply andb_true_iff. split; lia. }
  destruct (sz <=? 2) eqn:?.
  { intros H Hn; inversion H; subst. repeat split; try lia.
    intros i Hi. replace i with 1 by lia. exact H1. }
  destruct (continuation (nth_byte e 2)) eqn:H2; [| intros H; inversion H; lia].
  cbn [negb]. destruct (sz <=? 3) eqn:?.
  { intros H Hn; inversion H; subst. repeat split; try lia.
    intros i Hi. assert (i = 1 \/ i = 2) as [-> | ->] by lia; assumption. }
  destruct (continuation (nth_byte e 3)) eqn:H3; [| intros H; inversion H; lia].
  cbn [negb]. intros H Hn; inversion H; subst. repeat split; try lia.
  intros i Hi. assert (i = 1 \/ i = 2 \/ i = 3) as [-> | [-> | ->]] by lia; assumption.
Qed.

Lemma decode_narrow (e : string) (r : Z) :
  DecodeRuneInString e = (r, 1) -> r <> RuneError ->
  nth_byte e 0 < 128 /\ r = nth_byte e 0.
Proof.
  unfold DecodeRuneInString.
  destruct (len e <? 1) eqn:?; [intros H; inversion H |].
  destruct (nth_byte e 0 <? RuneSelf) eqn:Hb.
  { intros H _. inversion H. unfold RuneSelf in Hb. split; [lia | reflexivity]. }
  destruct (first (nth_byte e 0)) as [[[sz lo] hi] |] eqn:Hf;
    [| intros H; inversion H; congruence].
  split_ifs; intros H; inversion H; congruence.
Qed.

(** A sequence that decodes as a whole to a rune starts a rune, unless it
    is one byte that is no encoding. *)
Lemma decode_starts_rune (e : string) (r : Z) :
  e <> EmptyString -> DecodeRuneInString e = (r, len e) -> r <> RuneError -> starts_rune e.
Proof.
  intros He Hd Hr. destruct e as [| c e]; [congruence |].
  cbn [starts_rune]. pose proof (len_nonneg e) as Hl. rewrite len_cons in Hd.
  destruct (Z.eq_dec (len e) 0) as [E | N].
  - rewrite E in Hd. apply decode_narrow in Hd; [| exact Hr]. rewrite nth_byte_0 in Hd.
    unfold continuation. destruct (128 <=? byte c) eqn:?; [lia | reflexivity].
  - apply decode_wide in Hd; [| lia]. rewrite nth_byte_0 in Hd.
    unfold continuation. destruct (byte c <=? 191) eqn:?; [lia | apply andb_false_r].
Qed.

Lemma drop_last (s : string) :
  s <> EmptyString ->
  exists c, drop (String.length s - 1) s = String c EmptyString /\
            nth_byte s (len s - 1) = byte c.
Proof.
  induction s as [| c s IH]; [congruence |]. intros _.
  destruct s as [| c' s'].
  - exists c. split; reflexivity.
  - destruct IH as [d [Hd Hn]]; [congruence |]. exists d. split.
    + cbn [String.length Nat.sub] in *. rewrite Nat.sub_0_r in *. exact Hd.
    + rewrite len_cons. rewrite nth_byte_S.
      * replace (len (String c' s') + 1 - 1 - 1) with (len (String c' s') - 1) by lia.
        exact Hn.
      * rewrite len_cons. pose proof (len_nonneg s'). lia.
Qed.

Lemma decodelast_inv (s : string) (r size : Z) :
  s <> EmptyString -> DecodeLastRuneInString s = (r, size) ->
  1 <= size <= len s /\
  ((r = RuneError /\ size = 1) \/
   exists p e, s = p ++ e /\ DecodeRuneInString e = (r, size) /\ size = len e
               /\ e <> EmptyString).
Proof.
  intros Hs. assert (Hl : 1 <= len s).
  { destruct s; [congruence |]. rewrite len_cons. pose proof (len_nonneg s). lia. }
  unfold DecodeLastRuneInString.
  destruct (len s =? 0) eqn:?; [lia |].
  destruct (nth_byte s (len s - 1) <? RuneSelf) eqn:Hb.
  - intros H. inversion H; subst. split; [lia |]. right.
    destruct (drop_last s Hs) as [c [Hd Hn]].
    exists (take (String.length s - 1) s), (String c EmptyString).
    split; [rewrite <- Hd; symmetry; apply take_drop |].
    split; [| split; [reflexivity | congruence]].
    rewrite Hn in *. apply decode_ascii. unfold RuneSelf in Hb. lia.
  - set (start0 := backtrack s (len s - 2) (Z.max (len s - UTFMax) 0) (Z.to_nat UTFMax)).
    pose proof (backtrack_le s (len s - 2) (Z.max (len s - UTFMax) 0) (Z.to_nat UTFMax)) as Hle.
    fold start0 in Hle.
    set (start := if start0 <? 0 then 0 else start0).
    assert (Hst : 0 <= start <= len s - 1).
    { unfold start. destruct (start0 <? 0) eqn:?; lia. }
    assert (Hsl : slice s start (len s) = drop (Z.to_nat start) s) by (apply slice_drop; lia).
    assert (Hne : drop (Z.to_nat start) s <> EmptyString).
    { intros E. pose proof (length_drop (Z.to_nat start) s) as Hld. rewrite E in Hld.
      cbn [String.length] in Hld. unfold len in Hst. lia. }
    rewrite Hsl. destruct (DecodeRuneInString (drop (Z.to_nat start) s)) as [r' size'] eqn:Hd.
    pose proof (decode_size _ Hne) as [[Hs1 Hs2] _]. rewrite Hd in Hs1, Hs2. cbn [snd] in *.
    destruct (start + size' =? len s) eqn:He; cbn [negb]; intros H; inversion H; subst.
    + split; [lia |]. right. exists (take (Z.to_nat start) s), (drop (Z.to_nat start) s).
      split; [symmetry; apply take_drop |]. split; [exact Hd |]. split; [| exact Hne].
      unfold len. rewrite length_drop. unfold len in *. lia.
    + split; [lia |]. left. split; reflexivity.
Qed.

Lemma decodelast_valid (p e : string) (r : Z) :
  e <> EmptyString -> DecodeRuneInString e = (r, len e) ->
  r <> RuneError \/ 2 <= len e ->
  DecodeLastRuneInString (p ++ e) = (r, len e).
Proof.
  intros He Hd Hv.
  assert (Hl : 1 <= len e).
  { destruct e; [congruence |]. rewrite len_cons. pose proof (len_nonneg e). lia. }
  pose proof (len_nonneg p) as Hp.
  unfold DecodeLastRuneInString. rewrite len_app.
  destruct (len p + len e =? 0) eqn:?; [lia |].
  rewrite nth_byte_app_r by lia.
  replace (len p + len e - 1 - len p) with (len e - 1) by lia.
  destruct (Z.eq_dec (len e) 1) as [E1 | N1].
  - destruct Hv as [Hv | Hv]; [| lia]. rewrite E1 in *.
    apply decode_narrow in Hd; [| exact Hv]. destruct Hd as [Hb ->].
    change (1 - 1) with 0. unfold RuneSelf.
    destruct (nth_byte e 0 <? 128) eqn:?; [reflexivity | lia].
  - pose proof (decode_wide e r (len e) Hd ltac:(lia)) as [_ [H4 [Hhead Hcont]]].
    assert (Hlast : (nth_byte e (len e - 1) <? RuneSelf) = false).
    { specialize (Hcont (len e - 1) ltac:(lia)). unfold continuation in Hcont.
      apply andb_true_iff in Hcont. unfold RuneSelf. lia. }
    rewrite Hlast.
    assert (Hstart : forall i, 0 <= i < len e ->
              RuneStart (nth_byte (p ++ e) (len p + i)) = if i =? 0 then true else false).
    { intros i Hi. rewrite nth_byte_app_r by lia. replace (len p + i - len p) with i by lia.
      rewrite RuneStart_spec by apply nth_byte_range.
      destruct (i =? 0) eqn:Ei.
      - replace i with 0 by lia. unfold continuation.
        destruct (nth_byte e 0 <=? 191) eqn:?; [lia |]. now rewrite andb_false_r.
      - rewrite Hcont by lia. reflexivity. }
    assert (Hbt : backtrack (p ++ e) (len p + len e - 2) (Z.max (len p + len e - UTFMax) 0)
                    (Z.to_nat UTFMax) = len p).
    { change (Z.to_nat UTFMax) with 4%nat. unfold UTFMax.
      assert (len e = 2 \/ len e = 3 \/ len e = 4) as [E | [E | E]] by lia; rewrite E.
      - cbn [backtrack]. replace (len p + 2 - 2) with (len p + 0) by lia.
        destruct (len p + 0 <? Z.max (len p + 2 - 4) 0) eqn:?; [lia |].
        rewrite Hstart by lia. cbn. lia.
      - cbn [backtrack]. replace (len p + 3 - 2) with (len p + 1) by lia.
        destruct (len p + 1 <? Z.max (len p + 3 - 4) 0) eqn:?; [lia |].
        rewrite Hstart by lia. cbn [Z.eqb].
        replace (len p + 1 - 1) with (len p + 0) by lia.
        destruct (len p + 0 <? Z.max (len p + 3 - 4) 0) eqn:?; [lia |].
        rewrite Hstart by lia. cbn. lia.
      - cbn [backtrack]. replace (len p + 4 - 2) with (len p + 2) by lia.
        destruct (len p + 2 <? Z.max (len p + 4 - 4) 0) eqn:?; [lia |].
        rewrite Hstart by lia. cbn [Z.eqb].
        replace (len p + 2 - 1) with (len p + 1) by lia.
        destruct (len p + 1 <? Z.max (len p + 4 - 4) 0) eqn:?; [lia |].
        rewrite Hstart by lia. cbn [Z.eqb].
        replace (len p + 1 - 1) with (len p + 0) by lia.
        destruct (len p + 0 <? Z.max (len p + 4 - 4) 0) eqn:?; [lia |].
        rewrite Hstart by lia. cbn. lia. }
    rewrite Hbt. destruct (len p <? 0) eqn:?; [lia |].
    assert (Hsl : slice (p ++ e) (len p) (len p + len e) = e).
    { unfold slice. rewrite substring_take_drop.
      replace (Z.to_nat (len p)) with (String.length p) by (unfold len; lia).
      rewrite drop_length_app. apply take_all. unfold len. lia. }
    rewrite Hsl, Hd. rewrite Z.eqb_refl. reflexivity.
Qed.


Section Trim.

Variable f : Z -> bool.
Hypothesis f_RuneError : f RuneError = false.

Lemma trim_right_snoc_true (cs : list (Z * string)) (r : Z) (e : string) :
  f r = true -> trim_right f (cs ++ [(r, e)])%list = trim_right f cs.
Proof.
  intros Hr. induction cs as [| [r0 b0] cs IH].
  - cbn. now rewrite Hr.
  - cbn [app trim_right]. now rewrite IH.
Qed.

Lemma trim_right_snoc_false (cs : list (Z * string)) (r : Z) (e : string) :
  f r = false -> trim_right f (cs ++ [(r, e)])%list = (cs ++ [(r, e)])%list.
Proof.
  intros Hr. induction cs as [| [r0 b0] cs IH].
  - cbn. now rewrite Hr.
  - cbn [app trim_right]. rewrite IH. now destruct cs.
Qed.

Lemma last_exists {A : Type} (l : list A) : l <> [] -> exists l' x, l = (l' ++ [x])%list.
Proof.
  intros Hl. destruct (exists_last Hl) as [l' [x H]]. now exists l', x.
Qed.

Lemma TrimRightFunc_loop_runes (s : string) :
  forall (t : string) (fuel : nat),
  starts_rune t -> (String.length s <= fuel)%nat ->
  let u := s ++ t in
  let j := strings.lastIndexFunc_loop u f false (len s) fuel in
  slice u 0 (if (0 <=? j) && (RuneSelf <=? nth_byte u j)
             then j + snd (DecodeRuneInString (slice u j (len u)))
             else j + 1)
  = bytes (trim_right f (runes s))
  /\ runes (bytes (trim_right f (runes s))) = trim_right f (runes s).
Proof.
  induction s as [s IH] using string_ind_length. intros t fuel Ht Hfuel.
  destruct s as [| c s0].
  { cbn [append len String.length Z.of_nat]. 
    assert (Hj : strings.lastIndexFunc_loop t f false 0 fuel = -1) by now destruct fuel.
    unfold len at 1. cbn [String.length Z.of_nat]. rewrite Hj. cbn. split; [| reflexivity].
    now rewrite slice_take. }
  set (s := String c s0) in *.
  assert (Hs : s <> EmptyString) by (unfold s; congruence).
  assert (Hl : 1 <= len s).
  { unfold s. rewrite len_cons. pose proof (len_nonneg s0). lia. }
  destruct fuel as [| k]; [unfold s in Hfuel; cbn in Hfuel; lia |].
  intros u j. unfold j. cbn [strings.lastIndexFunc_loop].
  destruct (len s <=? 0) eqn:?; [lia |].
  assert (Hsl : slice u 0 (len s) = s).
  { rewrite slice_take. unfold u, len. rewrite Nat2Z.id. apply take_length_app. }
  rewrite Hsl.
  destruct (DecodeLastRuneInString s) as [r size] eqn:Hd.
  destruct (decodelast_inv s r size Hs Hd) as [Hsize Hshape].
  destruct (f r) eqn:Hfr; cbn [Bool.eqb].
  - (* the last rune is trimmed *)
    destruct Hshape as [[-> _] | [p [e [Hpe [Hde [Hle He]]]]]]; [congruence |].
    subst size. assert (Hr : r <> RuneError) by congruence.
    assert (Hse : starts_rune e) by (apply (decode_starts_rune e r); assumption).
    assert (Hlp : len s - len e = len p).
    { rewrite Hpe, len_app. lia. }
    rewrite Hlp. unfold u. rewrite Hpe, append_assoc.
    assert (Hlt : (String.length p < String.length s)%nat).
    { unfold len in *. destruct e; [congruence |]. cbn [String.length] in *. lia. }
    specialize (IH p Hlt (e ++ t) k (starts_rune_app e t He Hse) ltac:(lia)).
    cbn zeta in IH. destruct IH as [IH1 IH2].
    rewrite runes_app by exact Hse. rewrite (runes_single e r He Hde).
    rewrite trim_right_snoc_true by exact Hfr. split; assumption.
  - (* the last rune stays *)
    assert (Htrim : trim_right f (runes s) = runes s).
    { destruct (last_exists (runes s)) as [cs [[r' e'] Hcs]].
      { intros E. apply runes_nil_inv in E. congruence. }
      rewrite Hcs. apply trim_right_snoc_false.
      destruct (f r') eqn:Hfr'; [| reflexivity].
      apply runes_snoc_inv in Hcs. destruct Hcs as [Hs' [Hd' He']].
      assert (Hv : DecodeLastRuneInString s = (r', len e')).
      { rewrite Hs'. apply decodelast_valid; [exact He' | exact Hd' |]. left. congruence. }
      rewrite Hd in Hv. congruence. }
    rewrite Htrim, bytes_runes. split; [| reflexivity].
    assert (Hj0 : 0 <= len s - size < len s) by lia.
    destruct (0 <=? len s - size) eqn:?; [| lia]. cbn [andb].
    assert (Hnb : nth_byte u (len s - size) = nth_byte s (len s - size)).
    { unfold u. apply nth_byte_app_l. lia. }
    rewrite Hnb.
    assert (Hend : (if RuneSelf <=? nth_byte s (len s - size)
                    then len s - size + snd (DecodeRuneInString (slice u (len s - size) (len u)))
                    else len s - size + 1) = len s).
    { destruct (RuneSelf <=? nth_byte s (len s - size)) eqn:Hb.
      - assert (Hsu : slice u (len s - size) (len u) = drop (Z.to_nat (len s - size)) s ++ t).
        { rewrite slice_drop by lia. unfold u. apply drop_app. unfold len in *. lia. }
        rewrite Hsu.
        assert (Hne : drop (Z.to_nat (len s - size)) s <> EmptyString).
        { intros E. pose proof (length_drop (Z.to_nat (len s - size)) s) as Hld.
          rewrite E in Hld. cbn [String.length] in Hld. unfold len in *. lia. }
        rewrite decode_app by assumption.
        destruct Hshape as [[-> ->] | [p [e [Hpe [Hde [Hle He]]]]]].
        + pose proof (decode_size _ Hne) as [[H1 H2] _].
          unfold len in H2 at 2. rewrite length_drop in H2. unfold len in *. lia.
        + replace (drop (Z.to_nat (len s - size)) s) with e.
          * rewrite Hde. cbn [snd]. lia.
          * rewrite Hpe. rewrite len_app. replace (len p + len e - size) with (len p) by lia.
            unfold len. rewrite Nat2Z.id. symmetry. apply drop_length_app.
      - destruct Hshape as [[-> ->] | [p [e [Hpe [Hde [Hle He]]]]]]; [lia |].
        destruct (Z.eq_dec size 1) as [-> | Hne]; [lia |].
        apply decode_wide in Hde; [| lia]. destruct Hde as [_ [_ [Hhead _]]].
        assert (nth_byte s (len s - size) = nth_byte e 0).
        { rewrite Hpe, len_app. rewrite nth_byte_app_r by lia. f_equal. lia. }
        unfold RuneSelf in Hb. lia. }
    rewrite Hend. rewrite slice_take. unfold u, len. rewrite Nat2Z.id. apply take_length_app.
Qed.

(** [TrimRightFunc] takes away the runes at the end that [f] holds of, and
    the runes of what it returns are the other runes. *)
Lemma TrimRightFunc_runes (s : string) :
  strings.TrimRightFunc s f = bytes (trim_right f (runes s))
  /\ runes (strings.TrimRightFunc s f) = trim_right f (runes s).
Proof.
  pose proof (TrimRightFunc_loop_runes s EmptyString (String.length s) I (le_n _)) as H.
  cbn zeta in H. rewrite append_nil_r in H. destruct H as [H1 H2].
  unfold strings.TrimRightFunc, strings.lastIndexFunc. rewrite H1. now split.
Qed.

Lemma TrimLeftFunc_loop_suffix (cs : list (Z * string)) :
  exists pre, cs = (pre ++ strings.TrimLeftFunc_loop f cs)%list.
Proof.
  induction cs as [| [r b] cs [pre IH]]; [now exists [] |].
  cbn [strings.TrimLeftFunc_loop]. destruct (f r).
  - exists ((r, b) :: pre). cbn [app]. now rewrite <- IH.
  - now exists [].
Qed.

Lemma TrimLeftFunc_runes (s : string) :
  runes (strings.TrimLeftFunc s f) = strings.TrimLeftFunc_loop f (runes s).
Proof.
  unfold strings.TrimLeftFunc.
  destruct (TrimLeftFunc_loop_suffix (runes s)) as [pre H].
  exact (runes_suffix s pre _ H).
Qed.

Lemma TrimFunc_runes (s : string) :
  runes (strings.TrimFunc s f) = trim_right f (strings.TrimLeftFunc_loop f (runes s)).
Proof.
  unfold strings.TrimFunc.
  rewrite (proj2 (TrimRightFunc_runes _)). now rewrite TrimLeftFunc_runes.
Qed.

Lemma FieldsFunc_loop_trim_right (cs : list (Z * string)) (field : option string) :
  strings.FieldsFunc_loop f (trim_right f cs) field = strings.FieldsFunc_loop f cs field.
Proof.
  revert field. induction cs as [| [r b] cs IH]; intros field; [reflexivity |].
  cbn [trim_right]. destruct (trim_right f cs) as [| c' cs'] eqn:Ht.
  - destruct (f r) eqn:Hr.
    + cbn [strings.FieldsFunc_loop]. rewrite Hr. rewrite <- IH.
      cbn [strings.FieldsFunc_loop]. now destruct field.
    + cbn [strings.FieldsFunc_loop]. rewrite Hr. rewrite <- IH. reflexivity.
  - cbn [strings.FieldsFunc_loop]. destruct (f r); [destruct field |]; now rewrite <- IH.
Qed.

Lemma FieldsFunc_loop_TrimLeft (cs : list (Z * string)) :
  strings.FieldsFunc_loop f (strings.TrimLeftFunc_loop f cs) None
  = strings.FieldsFunc_loop f cs None.
Proof.
  induction cs as [| [r b] cs IH]; [reflexivity |].
  cbn [strings.TrimLeftFunc_loop]. destruct (f r) eqn:Hr; [| reflexivity].
  cbn [strings.FieldsFunc_loop]. now rewrite Hr.
Qed.

(** Trimming changes no field. *)
Lemma FieldsFunc_TrimFunc (s : string) :
  strings.FieldsFunc (strings.TrimFunc s f) f = strings.FieldsFunc s f.
Proof.
  unfold strings.FieldsFunc. rewrite TrimFunc_runes.
  now rewrite FieldsFunc_loop_trim_right, FieldsFunc_loop_TrimLeft.
Qed.

Lemma FieldsFunc_loop_open (cs : list (Z * string)) (w : string) :
  strings.FieldsFunc_loop f cs (Some w) <> [].
Proof.
  revert w. induction cs as [| [r b] cs IH]; intros w; cbn [strings.FieldsFunc_loop].
  - discriminate.
  - destruct (f r); [discriminate | apply IH].
Qed.

Lemma trim_right_nil (cs : list (Z * string)) :
  trim_right f cs = [] <-> Forall (fun c => f (fst c) = true) cs.
Proof.
  induction cs as [| [r b] cs IH]; [split; constructor |].
  cbn [trim_right]. destruct (trim_right f cs) as [| c' cs'] eqn:Ht.
  - destruct (f r) eqn:Hr.
    + split; [| reflexivity]. intros _. constructor; [exact Hr | now apply IH].
    + split; [discriminate |]. intros H. inversion H; subst. cbn in *. congruence.
  - split; [discriminate |]. intros H. inversion H as [| x l Hx Hl]; subst.
    apply IH in Hl. discriminate Hl.
Qed.

Lemma TrimLeftFunc_loop_all (cs : list (Z * string)) :
  Forall (fun c => f (fst c) = true) (strings.TrimLeftFunc_loop f cs) <->
  Forall (fun c => f (fst c) = true) cs.
Proof.
  induction cs as [| [r b] cs IH]; [reflexivity |].
  cbn [strings.TrimLeftFunc_loop]. destruct (f r) eqn:Hr; [| reflexivity].
  rewrite IH. split; [now constructor | intros H; now inversion H].
Qed.

Lemma FieldsFunc_loop_nil (cs : list (Z * string)) :
  strings.FieldsFunc_loop f cs None = [] <-> Forall (fun c => f (fst c) = true) cs.
Proof.
  induction cs as [| [r b] cs IH]; [split; constructor |].
  cbn [strings.FieldsFunc_loop]. destruct (f r) eqn:Hr.
  - rewrite IH. split; [now constructor | intros H; now inversion H].
  - split; [intros H; now apply FieldsFunc_loop_open in H |].
    intros H. inversion H; subst. cbn in *. congruence.
Qed.

(** The text is all white space exactly when it has no field. *)
Lemma TrimFunc_empty (s : string) :
  strings.TrimFunc s f = EmptyString <-> strings.FieldsFunc s f = [].
Proof.
  unfold strings.FieldsFunc. rewrite FieldsFunc_loop_nil, <- TrimLeftFunc_loop_all,
    <- trim_right_nil, <- TrimFunc_runes.
  split; [intros ->; reflexivity | apply runes_nil_inv].
Qed.


Lemma TrimFunc_bytes (s : string) :
  strings.TrimFunc s f = bytes (trim_right f (strings.TrimLeftFunc_loop f (runes s))).
Proof.
  unfold strings.TrimFunc. rewrite (proj1 (TrimRightFunc_runes _)).
  now rewrite TrimLeftFunc_runes.
Qed.

Lemma TrimLeftFunc_loop_head (cs : list (Z * string)) :
  match strings.TrimLeftFunc_loop f cs with
  | [] => True
  | (r, _) :: _ => f r = false
  end.
Proof.
  induction cs as [| [r b] cs IH]; [exact I |].
  cbn [strings.TrimLeftFunc_loop]. destruct (f r) eqn:Hr; [exact IH | exact Hr].
Qed.

Lemma TrimLeftFunc_loop_id (cs : list (Z * string)) :
  match cs with
  | [] => True
  | (r, _) :: _ => f r = false
  end ->
  strings.TrimLeftFunc_loop f cs = cs.
Proof.
  destruct cs as [| [r b] cs]; [reflexivity |]. cbn [strings.TrimLeftFunc_loop].
  now intros ->.
Qed.

Lemma trim_right_head (x : Z * string) (cs : list (Z * string)) :
  trim_right f (x :: cs) = [] \/ exists tl, trim_right f (x :: cs) = x :: tl.
Proof.
  destruct x as [r b]. cbn [trim_right]. destruct (trim_right f cs) as [| c' cs'].
  - destruct (f r); [now left | right; now exists []].
  - right. now eexists.
Qed.

Lemma trim_right_cons (r : Z) (b : string) (cs : list (Z * string)) :
  trim_right f ((r, b) :: cs) =
  match trim_right f cs with
  | [] => if f r then [] else [(r, b)]
  | rest => (r, b) :: rest
  end.
Proof. reflexivity. Qed.

Lemma trim_right_idem (cs : list (Z * string)) :
  trim_right f (trim_right f cs) = trim_right f cs.
Proof.
  induction cs as [| [r b] cs IH]; [reflexivity |].
  rewrite (trim_right_cons r b cs). destruct (trim_right f cs) as [| c' cs'] eqn:Ht.
  - destruct (f r) eqn:Hr; [reflexivity |]. cbn [trim_right]. now rewrite Hr.
  - rewrite trim_right_cons. now rewrite IH.
Qed.

Lemma trim_idem (cs : list (Z * string)) :
  let t := trim_right f (strings.TrimLeftFunc_loop f cs) in
  trim_right f (strings.TrimLeftFunc_loop f t) = t.
Proof.
  cbn zeta. pose proof (TrimLeftFunc_loop_head cs) as Hh.
  destruct (strings.TrimLeftFunc_loop f cs) as [| [r b] y] eqn:Hy; [reflexivity |].
  destruct (trim_right_head (r, b) y) as [-> | [tl Htl]]; [reflexivity |].
  rewrite Htl. rewrite TrimLeftFunc_loop_id by exact Hh. rewrite <- Htl.
  apply trim_right_idem.
Qed.

(** Trimming what is trimmed changes nothing. *)
Lemma TrimFunc_idem (s : string) :
  strings.TrimFunc (strings.TrimFunc s f) f = strings.TrimFunc s f.
Proof.
  rewrite (TrimFunc_bytes (strings.TrimFunc s f)). rewrite TrimFunc_runes.
  rewrite (trim_idem (runes s)). now rewrite <- TrimFunc_bytes.
Qed.

Lemma trim_right_last (cs tl : list (Z * string)) (r : Z) (b : string) :
  trim_right f cs = (tl ++ [(r, b)])%list -> f r = false.
Proof.
  revert tl. induction cs as [| [r0 b0] cs IH]; intros tl; cbn [trim_right].
  - destruct tl; discriminate.
  - destruct (trim_right f cs) as [| c' cs'] eqn:Ht.
    + destruct (f r0) eqn:Hr0; [destruct tl; discriminate |].
      destruct tl as [| t tl]; [intros H; inversion H; now subst |].
      intros H. inversion H. destruct tl; discriminate.
    + destruct tl as [| t tl]; [discriminate |].
      intros H. inversion H as [[H1 H2]]. eapply IH. exact H2.
Qed.

(** A text that trimming leaves as it is starts and ends, when it is not
    empty, with runes that [f] does not hold of. *)
Lemma TrimFunc_fixed (s : string) :
  strings.TrimFunc s f = s ->
  strings.TrimLeftFunc_loop f (runes s) = runes s /\ trim_right f (runes s) = runes s.
Proof.
  intros H. pose proof (TrimFunc_runes s) as Hr. rewrite H in Hr.
  pose proof (TrimLeftFunc_loop_head (runes s)) as Hh.
  assert (Hl : strings.TrimLeftFunc_loop f (runes s) = runes s).
  { destruct (strings.TrimLeftFunc_loop f (runes s)) as [| [r b] y] eqn:Hy.
    - cbn in Hr. now symmetry.
    - destruct (trim_right_head (r, b) y) as [E | [tl E]]; rewrite E in Hr.
      + rewrite Hr in Hy. discriminate Hy.
      + rewrite <- Hy. apply TrimLeftFunc_loop_id. rewrite Hr. exact Hh. }
  split; [exact Hl |]. rewrite Hl in Hr. now symmetry.
Qed.

End Trim.

Lemma IsSpace_RuneError : unicode.IsSpace RuneError = false.
Proof. reflexivity. Qed.


Lemma decode_rune_starts (s : string) (r n : Z) :
  s <> EmptyString -> DecodeRuneInString s = (r, n) -> r <> RuneError -> starts_rune s.
Proof.
  intros Hs Hd Hr. pose proof (decode_size s Hs) as [[H1 _] _]. rewrite Hd in H1. cbn in H1.
  destruct s as [| c s]; [congruence |]. cbn [starts_rune]. unfold continuation.
  destruct (Z.eq_dec n 1) as [-> | Hn].
  - apply decode_narrow in Hd; [| exact Hr]. rewrite nth_byte_0 in Hd.
    destruct (128 <=? byte c) eqn:?; [lia | reflexivity].
  - apply decode_wide in Hd; [| lia]. rewrite nth_byte_0 in Hd.
    destruct (byte c <=? 191) eqn:?; [lia | apply andb_false_r].
Qed.

Lemma runes_head_starts (s : string) (r : Z) (b : string) (rest : list (Z * string)) :
  runes s = (r, b) :: rest -> r <> RuneError -> starts_rune s.
Proof.
  intros Hr Hne. destruct s as [| c s]; [exact I |].
  rewrite runes_eq in Hr by congruence. injection Hr as Hr _ _.
  apply (decode_rune_starts _ r (snd (DecodeRuneInString (String c s)))); try congruence.
  rewrite <- Hr. now destruct (DecodeRuneInString (String c s)).
Qed.

(** The runes that come before a rune that is decoded from an encoding are
    the runes of their bytes. *)
Lemma runes_prefix (acc tail : list (Z * string)) :
  runes (bytes (acc ++ tail)%list) = (acc ++ tail)%list ->
  match tail with
  | [] => True
  | (r, _) :: _ => r <> RuneError
  end ->
  runes (bytes acc) = acc.
Proof.
  intros Hc Ht. destruct tail as [| [r b] tl].
  - now rewrite app_nil_r in Hc.
  - pose proof (runes_suffix _ _ _ Hc) as Hs.
    assert (Hst : starts_rune (bytes ((r, b) :: tl))) by exact (runes_head_starts _ _ _ _ Hs Ht).
    rewrite bytes_app, runes_app, Hs in Hc by exact Hst.
    exact (app_inv_tail _ _ _ Hc).
Qed.

Lemma FieldsFunc_loop_solid (cs : list (Z * string)) :
  forall acc : list (Z * string),
  runes (bytes (acc ++ cs)%list) = (acc ++ cs)%list -> Forall is_text acc ->
  Forall solid
    (strings.FieldsFunc_loop unicode.IsSpace cs
       match acc with
       | [] => None
       | _ => Some (bytes acc)
       end).
Proof.
  assert (Hsolid : forall acc tail,
            runes (bytes (acc ++ tail)%list) = (acc ++ tail)%list ->
            match tail with
            | [] => True
            | (r, _) :: _ => r <> RuneError
            end ->
            Forall is_text acc -> acc <> [] -> solid (bytes acc)).
  { intros acc tail Hc Ht Ha Hne. pose proof (runes_prefix _ _ Hc Ht) as Hp.
    split; [| now rewrite Hp].
    intros E. rewrite E in Hp. cbn in Hp. now subst acc. }
  induction cs as [| [r b] cs IH]; intros acc Hc Ha.
  - cbn [strings.FieldsFunc_loop]. destruct acc as [| a acc]; [constructor |].
    constructor; [| constructor]. apply (Hsolid _ [] Hc I Ha). discriminate.
  - cbn [strings.FieldsFunc_loop]. destruct (unicode.IsSpace r) eqn:Hr.
    + assert (Hrest : Forall solid (strings.FieldsFunc_loop unicode.IsSpace cs None)).
      { apply (IH []); [| constructor]. cbn [app].
        apply (runes_suffix (bytes (acc ++ (r, b) :: cs)%list) (acc ++ [(r, b)])%list).
        rewrite <- app_assoc. exact Hc. }
      destruct acc as [| a acc]; [exact Hrest |].
      constructor; [| exact Hrest].
      apply (Hsolid _ ((r, b) :: cs) Hc); [| exact Ha | discriminate].
      intros ->. discriminate Hr.
    + specialize (IH (acc ++ [(r, b)])%list).
      rewrite <- app_assoc in IH. specialize (IH Hc).
      assert (Ha' : Forall is_text (acc ++ [(r, b)])%list).
      { apply Forall_app. split; [exact Ha |]. constructor; [exact Hr | constructor]. }
      specialize (IH Ha').
      assert (Hb : bytes (acc ++ [(r, b)])%list = bytes acc ++ b).
      { rewrite bytes_app. cbn. now rewrite append_nil_r. }
      rewrite Hb in IH.
      destruct acc as [| a acc]; [exact IH |]. exact IH.
Qed.

(** What [Fields] returns are words. *)
Lemma Fields_solid (s : string) : Forall solid (strings.Fields s).
Proof.
  unfold strings.Fields, strings.FieldsFunc.
  apply (FieldsFunc_loop_solid (runes s) []); [| constructor].
  cbn [app]. now rewrite bytes_runes.
Qed.

Lemma FieldsFunc_loop_text (cs tail : list (Z * string)) (w : string) :
  Forall is_text cs ->
  strings.FieldsFunc_loop unicode.IsSpace (cs ++ tail)%list (Some w)
  = strings.FieldsFunc_loop unicode.IsSpace tail (Some (w ++ bytes cs)).
Proof.
  revert w. induction cs as [| [r b] cs IH]; intros w Hcs.
  - cbn. now rewrite append_nil_r.
  - inversion Hcs as [| x l Hx Hl]; subst. unfold is_text in Hx. cbn [fst] in Hx.
    cbn [app strings.FieldsFunc_loop]. rewrite Hx. rewrite IH by exact Hl.
    rewrite bytes_cons. cbn [snd]. now rewrite append_assoc.
Qed.

Lemma FieldsFunc_loop_word (w : string) (tail : list (Z * string)) :
  solid w ->
  strings.FieldsFunc_loop unicode.IsSpace (runes w ++ tail)%list None
  = strings.FieldsFunc_loop unicode.IsSpace tail (Some w).
Proof.
  intros [Hne Hw]. destruct (runes w) as [| [r b] cs] eqn:Hr.
  - apply runes_nil_inv in Hr. congruence.
  - inversion Hw as [| x l Hx Hl]; subst. unfold is_text in Hx. cbn [fst] in Hx.
    cbn [app strings.FieldsFunc_loop]. rewrite Hx.
    rewrite FieldsFunc_loop_text by exact Hl.
    replace (b ++ bytes cs) with w; [reflexivity |].
    rewrite <- (bytes_runes w), Hr. reflexivity.
Qed.

Lemma runes_space (s : string) : runes (" " ++ s) = (32, " ") :: runes s.
Proof.
  rewrite runes_eq by discriminate. cbn [append].
  rewrite decode_ascii by (vm_compute; reflexivity). reflexivity.
Qed.

Lemma Fields_word (w : string) : solid w -> strings.Fields w = [w].
Proof.
  intros Hw. unfold strings.Fields, strings.FieldsFunc.
  pose proof (FieldsFunc_loop_word w [] Hw) as H. rewrite app_nil_r in H. exact H.
Qed.

Lemma Fields_word_space (w s : string) :
  solid w -> strings.Fields (w ++ " " ++ s) = w :: strings.Fields s.
Proof.
  intros Hw. unfold strings.Fields, strings.FieldsFunc.
  rewrite runes_app by reflexivity. rewrite runes_space.
  rewrite FieldsFunc_loop_word by exact Hw. reflexivity.
Qed.

(** Words joined by single blanks are read back as these words. *)
Lemma Fields_Join (ws : list string) :
  Forall solid ws -> strings.Fields (strings.Join ws " ") = ws.
Proof.
  induction ws as [| w ws IH]; intros H; [reflexivity |].
  inversion H as [| x l Hw Hws]; subst. destruct ws as [| w' ws].
  - cbn [strings.Join]. now apply Fields_word.
  - change (strings.Join (w :: w' :: ws) " ") with (w ++ " " ++ strings.Join (w' :: ws) " ").
    rewrite Fields_word_space by exact Hw. now rewrite IH.
Qed.

Lemma runes_plain (w : string) :
  plain w = true ->
  runes w = map (fun c => (byte c, String c EmptyString)) (list_ascii_of_string w).
Proof.
  induction w as [| c w IH]; [reflexivity |].
  cbn [plain]. intros H. apply andb_true_iff in H. destruct H as [H Hw].
  apply andb_true_iff in H. destruct H as [Hc _]. unfold RuneSelf in Hc.
  rewrite runes_eq by discriminate. rewrite decode_ascii by lia.
  cbn [fst snd]. change (Z.to_nat 1) with 1%nat.
  cbn [take drop list_ascii_of_string map]. now rewrite IH.
Qed.

Lemma plain_solid (w : string) : w <> EmptyString -> plain w = true -> solid w.
Proof.
  intros Hne Hw. split; [exact Hne |]. rewrite runes_plain by exact Hw.
  clear Hne. induction w as [| c w IH]; [constructor |].
  cbn [plain] in Hw. apply andb_true_iff in Hw. destruct Hw as [H Hw].
  apply andb_true_iff in H. destruct H as [_ Hs]. apply negb_true_iff in Hs.
  cbn [list_ascii_of_string map]. constructor; [exact Hs | exact (IH Hw)].
Qed.

Lemma plain_string_of_uint (d : Decimal.uint) : plain (NilEmpty.string_of_uint d) = true.
Proof.
  induction d; [reflexivity | ..]; cbn [NilEmpty.string_of_uint plain]; rewrite IHd;
    reflexivity.
Qed.

Lemma itoa_solid (n : Z) : solid (itoa n).
Proof.
  apply plain_solid.
  - unfold itoa. destruct n as [| p | p]; cbn [Z.to_int NilEmpty.string_of_int];
      [discriminate | apply due_facts.string_of_pos_nonempty | discriminate].
  - unfold itoa. destruct n as [| p | p]; cbn [Z.to_int NilEmpty.string_of_int];
      [reflexivity | apply plain_string_of_uint |].
    cbn [plain]. now rewrite plain_string_of_uint.
Qed.

End text_facts.

(** ** The arguments of the commands *)

Module parse_facts.

Import utf8 text text_facts.

Lemma ParseUint_loop_acc (d : Decimal.uint) (acc : positive) :
  Z.pos (Pos.of_uint_acc d acc) <= strconv.maxUint64 ->
  strconv.ParseUint_loop (NilEmpty.string_of_uint d) (Z.pos acc)
  = strconv.Parsed (Z.pos (Pos.of_uint_acc d acc)).
Proof.
  assert (Hmono : forall d acc, Z.pos acc <= Z.pos (Pos.of_uint_acc d acc)).
  { clear. induction d; intros acc; cbn [Pos.of_uint_acc]; try lia;
      match goal with |- _ <= Z.pos (Pos.of_uint_acc _ ?a) => specialize (IHd a) end; lia. }
  revert acc. unfold strconv.maxUint64.
  induction d; intros acc Hmax; cbn [NilEmpty.string_of_uint Pos.of_uint_acc] in *;
    try reflexivity;
    match type of Hmax with
    | Z.pos (Pos.of_uint_acc _ ?a) <= _ =>
      pose proof (Hmono d a) as Hm; specialize (IHd a Hmax)
    end;
    cbn [strconv.ParseUint_loop]; unfold strconv.isdigit, strconv.maxUint64;
    match goal with
    | |- context [byte ?c] => let v := eval vm_compute in (byte c) in change (byte c) with v
    end;
    cbn [Z.leb Z.compare Pos.compare Pos.compare_cont andb negb];
    change (18446744073709551615 / 10 + 1) with 1844674407370955162;
    (destruct (1844674407370955162 <=? Z.pos acc) eqn:?; [lia |]);
    match goal with
    | |- context [18446744073709551615 <? ?n1] =>
      destruct (18446744073709551615 <? n1) eqn:?; [lia |]
    end;
    rewrite <- IHd; f_equal; lia.
Qed.


Lemma ParseUint_loop_0 (d : Decimal.uint) :
  Z.of_N (Pos.of_uint d) <= strconv.maxUint64 ->
  strconv.ParseUint_loop (NilEmpty.string_of_uint d) 0 = strconv.Parsed (Z.of_N (Pos.of_uint d)).
Proof.
  induction d; intros Hmax; cbn [NilEmpty.string_of_uint Pos.of_uint] in *;
    try reflexivity;
    cbn [strconv.ParseUint_loop]; unfold strconv.isdigit;
    match goal with
    | |- context [byte ?c] => let v := eval vm_compute in (byte c) in change (byte c) with v
    end;
    match goal with
    | |- context [0 * 10 + (?v - 48)] =>
      let w := eval vm_compute in (0 * 10 + (v - 48)) in
      change (0 * 10 + (v - 48)) with w;
      change (strconv.maxUint64 <? w) with false
    end;
    change (strconv.maxUint64 / 10 + 1 <=? 0) with false;
    cbn [Z.leb Z.compare Pos.compare Pos.compare_cont andb negb];
    cbv beta iota; try (apply IHd; exact Hmax);
    try (apply ParseUint_loop_acc; exact Hmax).
Qed.

Lemma ParseUint_pos (p : positive) :
  Z.pos p <= strconv.maxUint64 ->
  strconv.ParseUint (NilEmpty.string_of_uint (Pos.to_uint p)) = strconv.Parsed (Z.pos p).
Proof.
  intros Hmax. pose proof (due_facts.string_of_pos_nonempty p) as Hne.
  pose proof (DecimalPos.Unsigned.of_to p) as Hp.
  unfold strconv.ParseUint. destruct (NilEmpty.string_of_uint (Pos.to_uint p)) eqn:E;
    [congruence |]. rewrite <- E. rewrite ParseUint_loop_0; rewrite Hp; [reflexivity | exact Hmax].
Qed.

Lemma string_of_uint_head (d : Decimal.uint) (c : ascii) (rest : string) :
  NilEmpty.string_of_uint d = String c rest ->
  Ascii.eqb c "+" = false /\ Ascii.eqb c "-" = false.
Proof.
  destruct d; cbn [NilEmpty.string_of_uint]; intros H; inversion H; subst; split; reflexivity.
Qed.

Lemma ParseInt_itoa (n : Z) : int64 n -> strconv.ParseInt (itoa n) = strconv.Parsed n.
Proof.
  unfold int64. intros Hn. destruct n as [| p | p]; [reflexivity | |].
  - unfold itoa. cbn [Z.to_int NilEmpty.string_of_int].
    assert (Hp : Z.pos p <= strconv.maxUint64) by (unfold strconv.maxUint64; lia).
    pose proof (ParseUint_pos p Hp) as HU.
    unfold strconv.ParseInt.
    destruct (NilEmpty.string_of_uint (Pos.to_uint p)) as [| c rest] eqn:E;
      [discriminate HU |].
    destruct (string_of_uint_head _ _ _ E) as [-> ->]. rewrite HU.
    destruct (2 ^ 63 <=? Z.pos p) eqn:?; [lia |]. reflexivity.
  - unfold itoa. cbn [Z.to_int NilEmpty.string_of_int].
    assert (Hp : Z.pos p <= strconv.maxUint64) by (unfold strconv.maxUint64; lia).
    unfold strconv.ParseInt. change (Ascii.eqb "-" "+") with false.
    change (Ascii.eqb "-" "-") with true. cbv beta iota. rewrite (ParseUint_pos p Hp).
    cbn [negb andb]. destruct (2 ^ 63 <? Z.pos p) eqn:?; [lia |]. reflexivity.
Qed.

Lemma ParseUint_loop_nonneg (s : string) (n m : Z) :
  0 <= n -> strconv.ParseUint_loop s n = strconv.Parsed m -> 0 <= m.
Proof.
  revert n. induction s as [| c s IH]; intros n Hn; cbn [strconv.ParseUint_loop].
  - intros H. inversion H. lia.
  - destruct (negb (strconv.isdigit c)) eqn:Hd; [discriminate |].
    destruct (_ <=? n); [discriminate |]. destruct (_ <? _); [discriminate |].
    apply IH. unfold strconv.isdigit in Hd. apply negb_false_iff, andb_true_iff in Hd. lia.
Qed.

Lemma ParseInt_int64 (s : string) (n : Z) : strconv.ParseInt s = strconv.Parsed n -> int64 n.
Proof.
  unfold strconv.ParseInt, int64. destruct s as [| c rest]; [discriminate |].
  set (sd := if Ascii.eqb c "+" then (false, rest)
             else if Ascii.eqb c "-" then (true, rest) else (false, String c rest)).
  destruct sd as [neg digits].
  destruct (strconv.ParseUint digits) as [un | []] eqn:HU; try discriminate.
  assert (0 <= un).
  { unfold strconv.ParseUint in HU. destruct digits; [discriminate |].
    apply (ParseUint_loop_nonneg _ 0 un) in HU; lia. }
  destruct neg; cbn [negb andb].
  - destruct (2 ^ 63 <? un) eqn:?; [discriminate |]. intros H0. inversion H0. lia.
  - destruct (2 ^ 63 <=? un) eqn:?; [discriminate |]. intros H0. inversion H0. lia.
Qed.


Lemma Cut_plain (w rest : string) :
  plain w = true -> strings.Cut (w ++ " " ++ rest) " " = Some (w, rest).
Proof.
  induction w as [| c w IH]; intros Hw.
  - cbn [append strings.Cut strings.HasPrefix]. cbn [Ascii.eqb Bool.eqb andb].
    replace (strings.HasPrefix rest EmptyString) with true by (destruct rest; reflexivity).
    cbn [String.length]. rewrite substring_take_drop. cbn [drop].
    rewrite take_all by lia. reflexivity.
  - cbn [plain] in Hw. apply andb_true_iff in Hw. destruct Hw as [Hc Hw].
    apply andb_true_iff in Hc. destruct Hc as [_ Hc]. apply negb_true_iff in Hc.
    cbn [append strings.Cut strings.HasPrefix].
    destruct (Ascii.eqb_spec c " ") as [-> | Hne]; [discriminate Hc |].
    cbn [andb]. pose proof (IH Hw) as IH'. cbn [append] in IH'. now rewrite IH'.
Qed.

Lemma SplitN_plain (w rest : string) :
  plain w = true -> strings.SplitN (w ++ " " ++ rest) " " 2 = [w; rest].
Proof.
  intros Hw. unfold strings.SplitN. cbn [Z.eqb Z.ltb Z.compare].
  pose proof (len_nonneg rest) as Hr. pose proof (len_nonneg w) as Hl.
  assert (Hlen : len (w ++ " " ++ rest) = len w + (1 + len rest)).
  { rewrite len_app. cbn [append]. rewrite len_cons. cbn [append]. lia. }
  rewrite Hlen. replace (Z.min 2 (len w + (1 + len rest) + 1)) with 2 by lia.
  change (Z.to_nat (2 - 1)) with 1%nat. cbn [strings.genSplit_loop].
  now rewrite Cut_plain.
Qed.

Lemma plain_itoa (n : Z) : plain (itoa n) = true.
Proof.
  unfold itoa. destruct n as [| p | p]; cbn [Z.to_int NilEmpty.string_of_int];
    [reflexivity | apply plain_string_of_uint |].
  cbn [plain]. now rewrite plain_string_of_uint.
Qed.

Lemma TrimSpace_word_space (w name : string) :
  solid w -> name <> EmptyString -> strings.TrimSpace name = name ->
  strings.TrimSpace (w ++ " " ++ name) = w ++ " " ++ name.
Proof.
  intros [Hne Hw] Hn Hname. unfold strings.TrimSpace in *.
  rewrite (TrimFunc_bytes _ IsSpace_RuneError).
  rewrite runes_app by reflexivity. rewrite runes_space.
  destruct (TrimFunc_fixed _ IsSpace_RuneError name Hname) as [_ Hright].
  destruct (last_exists (runes name)) as [tl [[r b] Hlast]].
  { intros E. apply runes_nil_inv in E. congruence. }
  assert (Hr : unicode.IsSpace r = false).
  { apply (trim_right_last unicode.IsSpace (runes name) tl r b). now rewrite Hright. }
  assert (Hleft : strings.TrimLeftFunc_loop unicode.IsSpace
                    (runes w ++ (32, " ") :: runes name)%list
                  = (runes w ++ (32, " ") :: runes name)%list).
  { apply TrimLeftFunc_loop_id. destruct (runes w) as [| [r0 b0] cs] eqn:E.
    - apply runes_nil_inv in E. congruence.
    - inversion Hw as [| x l Hx Hl]; subst. exact Hx. }
  rewrite Hleft. rewrite Hlast.
  replace (runes w ++ (32, " ") :: tl ++ [(r, b)])%list
    with ((runes w ++ (32, " ") :: tl) ++ [(r, b)])%list
    by (rewrite <- app_assoc; reflexivity).
  rewrite trim_right_snoc_false by exact Hr.
  rewrite <- app_assoc. cbn [app]. rewrite <- Hlast, <- runes_space.
  rewrite <- runes_app by reflexivity. apply bytes_runes.
Qed.

Section WithQuote.

Context {fmtlib : GoFmt}.

Lemma ParseIDArg_eq (args : string) :
  bot.ParseIDArg args =
  Returns
    match strings.Fields args with
    | [] => Err "feed ID is required"
    | p0 :: _ =>
      match strconv.ParseInt p0 with
      | strconv.Parsed id => Ok id
      | strconv.Failed _ => Err ("invalid feed ID " ++ strconv_Quote (strings.TrimSpace args))
      end
    end.
Proof.
  unfold bot.ParseIDArg, strings.TrimSpace, strings.Fields.
  rewrite (FieldsFunc_TrimFunc _ IsSpace_RuneError).
  pose proof (TrimFunc_empty _ IsSpace_RuneError args) as He.
  destruct (String.eqb_spec (strings.TrimFunc args unicode.IsSpace) EmptyString) as [E | N].
  - now rewrite (proj1 He E).
  - destruct (strings.FieldsFunc args unicode.IsSpace) as [| p0 rest] eqn:Hf.
    + exfalso. apply N. now apply He.
    + now destruct (strconv.ParseInt p0).
Qed.

Lemma ParseIDArg_itoa (id : Z) : int64 id -> bot.ParseIDArg (itoa id) = Returns (Ok id).
Proof.
  intros Hid. rewrite ParseIDArg_eq.
  rewrite (Fields_word _ (itoa_solid id)). now rewrite ParseInt_itoa.
Qed.

(** X16. [ParseIDArg] does not panic: whenever the trimmed argument is not
    empty it has a first field, so the index [0] is in range.  The ID is
    read from the first field alone, what follows it is ignored; an ID
    written in decimal is read back, alone or followed by a blank and any
    text. *)
Theorem ParseIDArg_reads_first_field (args : string) :
  bot.ParseIDArg args =
  Returns
    match strings.Fields args with
    | [] => Err "feed ID is required"
    | p0 :: _ =>
      match strconv.ParseInt p0 with
      | strconv.Parsed id => Ok id
      | strconv.Failed _ => Err ("invalid feed ID " ++ strconv_Quote (strings.TrimSpace args))
      end
    end
  /\ (forall id, int64 id -> args = itoa id -> bot.ParseIDArg args = Returns (Ok id))
  /\ (forall id rest, int64 id -> args = itoa id ++ " " ++ rest ->
        bot.ParseIDArg args = Returns (Ok id)).
Proof.
  split; [apply ParseIDArg_eq |]. split.
  - intros id Hid ->. now apply ParseIDArg_itoa.
  - intros id rest Hid ->. rewrite ParseIDArg_eq.
    rewrite (Fields_word_space _ _ (itoa_solid id)). now rewrite ParseInt_itoa.
Qed.

Lemma ParseIntervalArgs_range (args : string) (id mins : Z) :
  bot.ParseIntervalArgs args = Ok (id, mins) -> int64 id /\ 1 <= mins <= 1440.
Proof.
  unfold bot.ParseIntervalArgs. destruct (strings.Fields args) as [| p0 [| p1 rest]];
    try discriminate.
  destruct (strconv.ParseInt p0) as [n |] eqn:Hp; [| discriminate].
  unfold strconv.Atoi. destruct (strconv.ParseInt p1) as [m |]; [| discriminate].
  destruct (m <? 1) eqn:?; [discriminate |]. destruct (1440 <? m) eqn:?; [discriminate |].
  cbn [orb]. intros H. inversion H; subst. split; [exact (ParseInt_int64 _ _ Hp) | lia].
Qed.

(** X17. [ParseIntervalArgs] reads back an ID and a number of minutes written
    in decimal, and accepts the minutes from 1 to 1440 and no other. *)
Theorem ParseIntervalArgs_round_trip (id mins : Z) :
  int64 id -> int64 mins ->
  bot.ParseIntervalArgs (itoa id ++ " " ++ itoa mins) =
  if (1 <=? mins) && (mins <=? 1440) then Ok (id, mins)
  else Err "interval must be between 1 and 1440 minutes".
Proof.
  intros Hid Hmins. unfold bot.ParseIntervalArgs.
  rewrite (Fields_word_space _ _ (itoa_solid id)), (Fields_word _ (itoa_solid mins)).
  unfold strconv.Atoi. rewrite !ParseInt_itoa by assumption.
  destruct (mins <? 1) eqn:?, (1440 <? mins) eqn:?, (1 <=? mins) eqn:?, (mins <=? 1440) eqn:?;
    try reflexivity; lia.
Qed.

Lemma scope_flag_spec (rest rest' : list string) (scope : FilterScope) :
  bot.scope_flag rest = Ok (scope, rest') ->
  crud.check_scope scope = true /\ exists skipped, rest = (skipped ++ rest')%list.
Proof.
  unfold bot.scope_flag. destruct rest as [| r0 [| r1 rest0]].
  - intros H. inversion H. split; [reflexivity | now exists []].
  - intros H. inversion H. split; [reflexivity | now exists []].
  - destruct (String.eqb r0 "-s").
    + destruct (String.eqb r1 "title"); [intros H; inversion H; split;
        [reflexivity | now exists [r0; r1]] |].
      destruct (String.eqb r1 "content"); [intros H; inversion H; split;
        [reflexivity | now exists [r0; r1]] |].
      destruct (String.eqb r1 "all"); [intros H; inversion H; split;
        [reflexivity | now exists [r0; r1]] |].
      discriminate.
    + intros H. inversion H. split; [reflexivity | now exists []].
Qed.

Lemma ParseFilterCommand_ok (args : string) (a : bot.FilterArgs) :
  bot.ParseFilterCommand args = Ok a ->
  int64 (bot.FilterArgs_FeedID a)
  /\ crud.check_scope (bot.FilterArgs_Scope a) = true
  /\ bot.FilterArgs_Value a <> EmptyString
  /\ strings.Join (strings.Fields (bot.FilterArgs_Value a)) " " = bot.FilterArgs_Value a
  /\ strings.TrimSpace (bot.FilterArgs_Value a) = bot.FilterArgs_Value a.
Proof.
  unfold bot.ParseFilterCommand. pose proof (Fields_solid args) as Hs.
  destruct (strings.Fields args) as [| p0 [| p1 rest]]; try discriminate.
  destruct (strconv.ParseInt p0) as [n |] eqn:Hp; [| discriminate].
  destruct (bot.scope_flag (p1 :: rest)) as [[scope rest'] | e] eqn:Hsc; [| discriminate].
  destruct (scope_flag_spec _ _ _ Hsc) as [Hscope [skipped Hrest]].
  destruct rest' as [| v rest']; [discriminate |].
  intros H. injection H as <-. cbn [bot.FilterArgs_FeedID bot.FilterArgs_Scope
    bot.FilterArgs_Value].
  change (match rest' with
          | [] => v
          | _ :: _ => v ++ String " " (strings.Join rest' " ")
          end) with (strings.Join (v :: rest') " ").
  assert (Hsolid : Forall solid (v :: rest')).
  { inversion Hs as [| x l _ Hl]; subst. rewrite Hrest in Hl.
    apply Forall_app in Hl. tauto. }
  pose proof (Fields_Join _ Hsolid) as Hf.
  split; [exact (ParseInt_int64 _ _ Hp) |]. split; [exact Hscope |].
  assert (Hne : strings.Join (v :: rest') " " <> EmptyString).
  { intros E. rewrite E in Hf. discriminate Hf. }
  split; [exact Hne |]. split; [now rewrite Hf |].
  (* trimmed: it starts and ends with a word *)
  unfold strings.TrimSpace. rewrite (TrimFunc_bytes _ IsSpace_RuneError).
  clear Hf Hne Hsc Hrest Hs.
  assert (Hl : forall ws, Forall solid ws -> ws <> [] ->
            strings.TrimLeftFunc_loop unicode.IsSpace (runes (strings.Join ws " "))
            = runes (strings.Join ws " ")
            /\ trim_right unicode.IsSpace (runes (strings.Join ws " "))
               = runes (strings.Join ws " ")).
  { clear. induction ws as [| w ws IH]; intros Hws Hne; [congruence |].
    inversion Hws as [| x l Hw Hws']; subst. destruct Hw as [Hwne Hw].
    assert (Hhead : forall tl, strings.TrimLeftFunc_loop unicode.IsSpace (runes w ++ tl)%list
                               = (runes w ++ tl)%list).
    { intros tl. apply TrimLeftFunc_loop_id. destruct (runes w) as [| [r0 b0] cs] eqn:E.
      - apply runes_nil_inv in E. congruence.
      - inversion Hw; subst. assumption. }
    destruct ws as [| w' ws].
    - cbn [strings.Join]. split.
      + specialize (Hhead []). now rewrite app_nil_r in Hhead.
      + destruct (last_exists (runes w)) as [tl [[r b] Hlast]].
        { intros E. apply runes_nil_inv in E. congruence. }
        rewrite Hlast. apply trim_right_snoc_false.
        rewrite Hlast in Hw. apply Forall_app in Hw. destruct Hw as [_ Hw].
        inversion Hw; subst. assumption.
    - change (strings.Join (w :: w' :: ws) " ") with (w ++ " " ++ strings.Join (w' :: ws) " ").
      rewrite runes_app by reflexivity. rewrite runes_space. split; [apply Hhead |].
      destruct (IH Hws' ltac:(discriminate)) as [_ IHr].
      destruct (last_exists (runes (strings.Join (w' :: ws) " "))) as [tl [[r b] Hlast]].
      { intros E. rewrite E in IHr.
        pose proof (Fields_Join _ Hws') as Hf. unfold strings.Fields, strings.FieldsFunc in Hf.
        rewrite E in Hf. discriminate Hf. }
      assert (Hr : unicode.IsSpace r = false).
      { apply (trim_right_last unicode.IsSpace (runes (strings.Join (w' :: ws) " ")) tl r b).
        now rewrite IHr. }
      rewrite Hlast.
      replace (runes w ++ (32, " ") :: tl ++ [(r, b)])%list
        with ((runes w ++ (32, " ") :: tl) ++ [(r, b)])%list
        by (rewrite <- app_assoc; reflexivity).
      now apply trim_right_snoc_false. }
  destruct (Hl (v :: rest') Hsolid ltac:(discriminate)) as [H1 H2].
  rewrite H1, H2. apply bytes_runes.
Qed.

Lemma scope_flag_words (rest rest' : list string) (scope : FilterScope) :
  bot.scope_flag rest = Ok (scope, rest') ->
  (rest = rest' /\ scope = ScopeAll) \/ rest = ("-s" :: scope :: rest')%list.
Proof.
  unfold bot.scope_flag. destruct rest as [| r0 [| r1 rest0]].
  - intros H. inversion H. now left.
  - intros H. inversion H. now left.
  - destruct (String.eqb_spec r0 "-s") as [-> | _].
    + destruct (String.eqb_spec r1 "title") as [-> | _]; [intros H; inversion H; now right |].
      destruct (String.eqb_spec r1 "content") as [-> | _]; [intros H; inversion H; now right |].
      destruct (String.eqb_spec r1 "all") as [-> | _]; [intros H; inversion H; now right |].
      discriminate.
    + intros H. inversion H. now left.
Qed.

(** X18. What [ParseFilterCommand] accepts is in normal form.  The fields
    of the command are the ID, then nothing or the flag [-s] with the scope,
    then the words of the value; the feed ID has 64 bits, the scope is one
    of the three the table allows, the value is not empty, has no white
    space at its ends and has one blank between its words (splitting it in
    fields and joining them gives it back), whatever white space the command
    had. *)
Theorem ParseFilterCommand_normal_form (args : string) (a : bot.FilterArgs) :
  bot.ParseFilterCommand args = Ok a ->
  (exists p0 flag,
     strings.Fields args = (p0 :: flag ++ strings.Fields (bot.FilterArgs_Value a))%list
     /\ strconv.ParseInt p0 = strconv.Parsed (bot.FilterArgs_FeedID a)
     /\ (flag = [] \/ flag = ["-s"; bot.FilterArgs_Scope a]))
  /\ int64 (bot.FilterArgs_FeedID a)
  /\ crud.check_scope (bot.FilterArgs_Scope a) = true
  /\ bot.FilterArgs_Value a <> EmptyString
  /\ strings.Join (strings.Fields (bot.FilterArgs_Value a)) " " = bot.FilterArgs_Value a
  /\ strings.TrimSpace (bot.FilterArgs_Value a) = bot.FilterArgs_Value a.
Proof.
  intros H. split; [| exact (ParseFilterCommand_ok args a H)].
  unfold bot.ParseFilterCommand in H. pose proof (Fields_solid args) as Hs.
  destruct (strings.Fields args) as [| p0 [| p1 rest]]; try discriminate.
  destruct (strconv.ParseInt p0) as [n |] eqn:Hp; [| discriminate].
  destruct (bot.scope_flag (p1 :: rest)) as [[scope rest'] | e] eqn:Hsc; [| discriminate].
  destruct rest' as [| v rest']; [discriminate |].
  injection H as <-. cbn [bot.FilterArgs_FeedID bot.FilterArgs_Scope bot.FilterArgs_Value].
  change (match rest' with
          | [] => v
          | _ :: _ => v ++ String " " (strings.Join rest' " ")
          end) with (strings.Join (v :: rest') " ").
  inversion Hs as [| x l _ Hl]; subst.
  destruct (scope_flag_words _ _ _ Hsc) as [[Hrest _] | Hrest]; rewrite Hrest in Hl |- *.
  - exists p0, []. rewrite (Fields_Join _ Hl). split; [reflexivity |]. split; [exact Hp | now left].
  - exists p0, ["-s"; scope]. inversion Hl as [| ? ? _ Hl1]; subst.
    inversion Hl1 as [| ? ? _ Hl2]; subst. rewrite (Fields_Join _ Hl2).
    split; [reflexivity |]. split; [exact Hp | now right].
Qed.


(** X19. [ParseRenameArgs] reads a decimal ID, a blank and a name back as
    they are, whatever white space the name has inside. *)
Theorem ParseRenameArgs_keeps_name (id : Z) (name : string) :
  int64 id -> name <> EmptyString -> strings.TrimSpace name = name ->
  bot.ParseRenameArgs (itoa id ++ " " ++ name) = Ok (id, name).
Proof.
  intros Hid Hne Hname. unfold bot.ParseRenameArgs.
  rewrite (TrimSpace_word_space _ _ (itoa_solid id) Hne Hname).
  rewrite SplitN_plain by apply plain_itoa.
  rewrite ParseInt_itoa by exact Hid. rewrite Hname.
  destruct (String.eqb_spec name EmptyString); [congruence | reflexivity].
Qed.

(** X20. The name [ParseRenameArgs] returns is not empty and has no white
    space at its ends; the ID has 64 bits. *)
Theorem ParseRenameArgs_result_is_trimmed (args : string) (id : Z) (name : string) :
  bot.ParseRenameArgs args = Ok (id, name) ->
  int64 id /\ name <> EmptyString /\ strings.TrimSpace name = name.
Proof.
  unfold bot.ParseRenameArgs.
  destruct (strings.SplitN _ _ _) as [| p0 [| p1 rest]]; try discriminate.
  destruct (strconv.ParseInt p0) as [n |] eqn:Hp; [| discriminate].
  destruct (String.eqb_spec (strings.TrimSpace p1) EmptyString) as [E | N]; [discriminate |].
  intros H. inversion H; subst. split; [exact (ParseInt_int64 _ _ Hp) |].
  split; [exact N |]. unfold strings.TrimSpace. apply (TrimFunc_idem _ IsSpace_RuneError).
Qed.

End WithQuote.

End parse_facts.

(** ** What the commands keep *)

Module policy_facts.

Import storage crud policy.

Lemma filter_filter_in {A : Type} (p q : A -> bool) (l : list A) :
  (forall x, In x l -> p x = true -> q x = true) ->
  List.filter p (List.filter q l) = List.filter p l.
Proof.
  induction l as [| x l IH]; intros H; [reflexivity |]. cbn [List.filter].
  destruct (q x) eqn:Hq.
  - cbn [List.filter]. destruct (p x); rewrite IH; auto; intros y Hy; apply H; now right.
  - destruct (p x) eqn:Hp.
    + rewrite (H x (or_introl eq_refl) Hp) in Hq. discriminate Hq.
    + apply IH. intros y Hy. apply H. now right.
Qed.

Lemma filter_map_in {A : Type} (p : A -> bool) (g : A -> A) (l : list A) :
  (forall x, In x l -> p (g x) = p x /\ (p x = true -> g x = x)) ->
  List.filter p (map g l) = List.filter p l.
Proof.
  induction l as [| x l IH]; intros H; [reflexivity |]. cbn [map List.filter].
  destruct (H x (or_introl eq_refl)) as [H1 H2]. rewrite H1.
  destruct (p x) eqn:Hp.
  - rewrite (H2 eq_refl). f_equal. apply IH. intros y Hy. apply H. now right.
  - apply IH. intros y Hy. apply H. now right.
Qed.

Lemma key_unique {A : Type} (key : A -> Z) (l : list A) (x y : A) :
  NoDup (map key l) -> In x l -> In y l -> key x = key y -> x = y.
Proof.
  induction l as [| z l IH]; [contradiction |]. cbn [map].
  intros Hnd Hx Hy Hk. inversion Hnd as [| k ks Hnotin Hnd']; subst.
  destruct Hx as [-> | Hx], Hy as [-> | Hy]; auto.
  - exfalso. apply Hnotin. rewrite Hk. now apply in_map.
  - exfalso. apply Hnotin. rewrite <- Hk. now apply in_map.
Qed.

Lemma find_app_found {A : Type} (p : A -> bool) (l l' : list A) (x : A) :
  find p l = Some x -> find p (l ++ l') = Some x.
Proof.
  induction l as [| y l IH]; [discriminate |]. cbn [app find].
  destruct (p y); [auto | exact IH].
Qed.

Lemma owns_row (d : DB) (chatID id : Z) :
  owns d chatID id ->
  exists r, find (fun r => feeds_id r =? id) (feeds d) = Some r
            /\ In r (feeds d) /\ feeds_id r = id /\ feeds_chat_id r = chatID.
Proof.
  intros [feed [Hg Hc]]. unfold GetFeed in Hg.
  destruct (find _ _) as [r |] eqn:Hf; [| discriminate]. injection Hg as <-.
  exists r. split; [reflexivity |]. apply find_some in Hf. destruct Hf as [Hin Hid].
  apply Z.eqb_eq in Hid. now repeat split.
Qed.

Lemma owns_unique (d : DB) (c c' id : Z) : owns d c id -> owns d c' id -> c = c'.
Proof.
  intros [f [Hg Hc]] [f' [Hg' Hc']]. congruence.
Qed.

Lemma owner_of_row (d : DB) (c id : Z) (r : feeds_row) :
  feeds_pk d -> owns d c id -> In r (feeds d) -> feeds_id r = id -> feeds_chat_id r = c.
Proof.
  intros Hpk Hown Hin Hid. destruct (owns_row _ _ _ Hown) as [r0 [_ [Hin0 [Hid0 Hc0]]]].
  assert (r = r0); [| now subst].
  apply (scheduler_facts.pk_unique (feeds d)); auto. congruence.
Qed.

Lemma owns_has_feed (d : DB) (c id : Z) : owns d c id -> has_feed d id.
Proof.
  intros H. destruct (owns_row _ _ _ H) as [r [_ [Hin [Hid _]]]].
  unfold has_feed. rewrite <- Hid. now apply in_map.
Qed.

Lemma MarkSeen_tables (d : DB) (feedID : Z) (guid : string) (now : Time) :
  feeds (snd (MarkSeen d feedID guid now)) = feeds d
  /\ filters (snd (MarkSeen d feedID guid now)) = filters d
  /\ (seen_items (snd (MarkSeen d feedID guid now)) = seen_items d
      \/ seen_items (snd (MarkSeen d feedID guid now))
         = (seen_items d ++ [mk_seen_items_row feedID guid (Format now)])%list).
Proof.
  unfold MarkSeen, insert_seen. destruct (existsb _ _); cbn; auto.
Qed.

Lemma CreateFeed_tables (s s' : Store) (feed feed' : Feed) (now : Time) :
  CreateFeed s feed now = (Ok feed', s') ->
  exists id,
    tables s' =
    mkDB (feeds (tables s) ++
          [mk_feeds_row id (Feed_ChatID feed) (Feed_Name feed) (Feed_URL feed)
             (Feed_IntervalMinutes feed) (boolToInt (Feed_IsActive feed)) None (Format now)])
         (filters (tables s)) (seen_items (tables s)).
Proof.
  unfold CreateFeed. destruct (next_rowid _ _) as [id | e]; [| discriminate].
  intros H. injection H as _ <-. now exists id.
Qed.

Lemma CreateFilter_tables (s s' : Store) (f f' : Filter) (now : Time) :
  CreateFilter s f now = (Ok f', s') ->
  exists id,
    tables s' =
    mkDB (feeds (tables s))
         (filters (tables s) ++
          [mk_filters_row id (Filter_FeedID f) (Filter_Kind f) (Filter_Scope f)
             (Filter_Value f) (Format now)])
         (seen_items (tables s)).
Proof.
  unfold CreateFilter. destruct (negb _); [discriminate |].
  destruct (next_rowid _ _) as [id | e]; [| discriminate].
  intros H. injection H as _ <-. now exists id.
Qed.

Section WithLib.

Context {lib : GoLib}.

Lemma change_step (c : Z) (s s' : Store) : change c s s' -> history.step s s'.
Proof.
  intros H. destruct H; try (econstructor; eassumption); constructor.
Qed.

(** A command leaves alone what is of another chat. *)
Lemma change_untouched (c c' : Z) (s s' : Store) :
  history.consistent s -> c' <> c -> change c s s' -> untouched c' (tables s) (tables s').
Proof.
  intros Hcons Hne Hch. pose proof (history.unique_feeds _ Hcons) as Hpk.
  pose proof (history.unique_filters _ Hcons) as Hfpk.
  destruct Hch as [s s' feed feed' now Hchat _ Hc | s old feed Hget Hchat Hid _ _ _
                  | s id Hown | s s' f f' now Hown _ _ Hc | s id f Hget Hown
                  | s feedID guid now Hown].
  - destruct (CreateFeed_tables _ _ _ _ _ Hc) as [id ->]. split.
    + cbn [feeds]. rewrite filter_app. cbn [List.filter feeds_chat_id].
      rewrite Hchat. destruct (Z.eqb_spec c c'); [congruence |]. apply app_nil_r.
    + intros id' Hown'. split; [| split; reflexivity].
      destruct (owns_row _ _ _ Hown') as [r [Hfind _]].
      unfold GetFeed. cbn [feeds]. now rewrite (find_app_found _ _ _ _ Hfind), Hfind.
  - assert (Hrows : forall r, In r (feeds (tables s)) -> feeds_id r = Feed_ID feed ->
                              feeds_chat_id r = c).
    { intros r Hin Hr. apply (owner_of_row (tables s) c (Feed_ID old)); auto.
      - exists old. now split.
      - congruence. }
    cbn [tables with_tables]. split.
    + unfold UpdateFeed. cbn [feeds]. apply filter_map_in. intros r Hin.
      destruct (Z.eqb_spec (feeds_id r) (Feed_ID feed)) as [E | N]; [| now split].
      cbn [feeds_chat_id]. split; [reflexivity |].
      rewrite (Hrows r Hin E). intros H. apply Z.eqb_eq in H. congruence.
    + intros id' Hown'. split; [| split; reflexivity].
      destruct (owns_row _ _ _ Hown') as [r [Hfind [Hin [Hidr Hcr]]]].
      assert (Hneq : feeds_id r <> Feed_ID feed).
      { intros E. rewrite (Hrows r Hin E) in Hcr. congruence. }
      unfold GetFeed, UpdateFeed. cbn [feeds]. rewrite crud_facts.find_map_same.
      * rewrite Hfind. cbn [option_map].
        destruct (Z.eqb_spec (feeds_id r) (Feed_ID feed)); [contradiction | reflexivity].
      * intros x. now destruct (feeds_id x =? Feed_ID feed).
  - cbn [tables with_tables]. unfold DeleteFeed. cbn [feeds filters seen_items]. split.
    + apply filter_filter_in. intros r Hin Hr. apply Z.eqb_eq in Hr.
      apply negb_true_iff, Z.eqb_neq. intros E.
      rewrite (owner_of_row (tables s) c id r Hpk Hown Hin E) in Hr. congruence.
    + intros id' Hown'.
      assert (Hneq : id' <> id).
      { intros ->. apply Hne. exact (owns_unique _ _ _ _ Hown' Hown). }
      split; [| split].
      * unfold GetFeed. cbn [feeds]. rewrite crud_facts.find_filter_other; [reflexivity |].
        intros x Hx. apply Z.eqb_eq in Hx. apply negb_true_iff, Z.eqb_neq. congruence.
      * apply crud_facts.filter_filter_id. intros x Hx. apply Z.eqb_eq in Hx.
        apply negb_true_iff, Z.eqb_neq. congruence.
      * apply crud_facts.filter_filter_id. intros x Hx. apply Z.eqb_eq in Hx.
        apply negb_true_iff, Z.eqb_neq. congruence.
  - destruct (CreateFilter_tables _ _ _ _ _ Hc) as [id ->]. split; [reflexivity |].
    intros id' Hown'. split; [reflexivity |]. split; [| reflexivity].
    cbn [filters]. rewrite filter_app. cbn [List.filter filters_feed_id].
    destruct (Z.eqb_spec (Filter_FeedID f) id') as [E | N]; [| apply app_nil_r].
    exfalso. apply Hne. rewrite E in Hown. exact (owns_unique _ _ _ _ Hown' Hown).
  - cbn [tables with_tables]. unfold DeleteFilter. cbn [feeds filters seen_items].
    split; [reflexivity |]. intros id' Hown'. split; [reflexivity |].
    split; [| reflexivity].
    apply filter_filter_in. intros x Hin Hx. apply Z.eqb_eq in Hx.
    apply negb_true_iff, Z.eqb_neq. intros E.
    unfold GetFilter in Hget. destruct (find _ _) as [r0 |] eqn:Hf; [| discriminate].
    injection Hget as <-. apply find_some in Hf. destruct Hf as [Hin0 Hid0].
    apply Z.eqb_eq in Hid0.
    assert (x = r0).
    { apply (key_unique filters_id (filters (tables s))); auto. congruence. }
    subst x. cbn [Filter_FeedID scanFilter] in Hown. rewrite Hx in Hown.
    apply Hne. exact (owns_unique _ _ _ _ Hown' Hown).
  - cbn [tables with_tables]. destruct (MarkSeen_tables (tables s) feedID guid now)
      as [Hf [Hl Hs]].
    split; [now rewrite Hf |]. intros id' Hown'. unfold GetFeed. rewrite Hf, Hl.
    split; [reflexivity |]. split; [reflexivity |].
    destruct Hs as [-> | ->]; [reflexivity |]. rewrite filter_app.
    cbn [List.filter seen_feed_id].
    destruct (Z.eqb_spec feedID id') as [E | N]; [| apply app_nil_r].
    exfalso. apply Hne. rewrite E in Hown. exact (owns_unique _ _ _ _ Hown' Hown).
Qed.

Lemma untouched_owns (c' : Z) (d d' : DB) (id : Z) :
  untouched c' d d' -> owns d c' id -> owns d' c' id.
Proof.
  intros [_ H] Hown. destruct (H id Hown) as [Hg _].
  destruct Hown as [feed [Hget Hc]]. exists feed. split; [congruence | exact Hc].
Qed.

Lemma untouched_refl (c' : Z) (d : DB) : untouched c' d d.
Proof. split; [reflexivity |]. intros id _. repeat split. Qed.

Lemma untouched_trans (c' : Z) (d d' d'' : DB) :
  untouched c' d d' -> untouched c' d' d'' -> untouched c' d d''.
Proof.
  intros H1 H2. split; [destruct H1 as [H1 _], H2 as [H2 _]; congruence |].
  intros id Hown. pose proof (untouched_owns _ _ _ _ H1 Hown) as Hown'.
  destruct H1 as [_ H1], H2 as [_ H2].
  destruct (H1 id Hown) as [A1 [B1 C1]], (H2 id Hown') as [A2 [B2 C2]].
  repeat split; congruence.
Qed.

Lemma changes_consistent (c : Z) (s s' : Store) :
  history.consistent s -> changes c s s' -> history.consistent s'.
Proof.
  intros Hc H. induction H as [| s s' s'' _ IH Hch]; [exact Hc |].
  apply (history_facts.consistent_step s'); [exact (IH Hc) | exact (change_step _ _ _ Hch)].
Qed.

Lemma changes_untouched (c c' : Z) (s s' : Store) :
  history.consistent s -> c' <> c -> changes c s s' -> untouched c' (tables s) (tables s').
Proof.
  intros Hc Hne H. induction H as [| s s' s'' H1 IH Hch]; [apply untouched_refl |].
  apply (untouched_trans _ _ (tables s')); [exact (IH Hc) |].
  apply (change_untouched c); [exact (changes_consistent _ _ _ Hc H1) | exact Hne | exact Hch].
Qed.


Lemma has_feed_UpdateFeed (d : DB) (feed : Feed) (id : Z) :
  has_feed (UpdateFeed d feed) id <-> has_feed d id.
Proof. unfold has_feed. now rewrite history_facts.UpdateFeed_ids. Qed.

Lemma sound_step (s s' : Store) :
  sound s -> history.step s s' ->
  (forall r, In r (feeds (tables s')) -> 1 <= feeds_interval_minutes r <= 1440) ->
  (forall r, In r (filters (tables s')) ->
     has_feed (tables s') (filters_feed_id r)
     /\ compiles (filters_kind r) (filters_value r) /\ normal (filters_value r)) ->
  (forall r, In r (seen_items (tables s')) -> has_feed (tables s') (seen_feed_id r)) ->
  sound s'.
Proof.
  intros Hs Hstep H1 H2 H3. constructor; auto.
  exact (history_facts.consistent_step _ _ (sound_consistent _ Hs) Hstep).
Qed.

Lemma sound_UpdateFeed (s : Store) (feed : Feed) :
  sound s -> 1 <= Feed_IntervalMinutes feed <= 1440 ->
  sound (with_tables s (UpdateFeed (tables s) feed)).
Proof.
  intros Hs Hi. apply (sound_step s); [exact Hs | constructor | | |];
    cbn [tables with_tables].
  - unfold UpdateFeed. cbn [feeds]. intros r Hr. apply in_map_iff in Hr.
    destruct Hr as [r0 [<- Hr0]]. destruct (feeds_id r0 =? Feed_ID feed); [exact Hi |].
    exact (sound_intervals _ Hs r0 Hr0).
  - intros r Hr. rewrite has_feed_UpdateFeed. exact (sound_filters _ Hs r Hr).
  - intros r Hr. rewrite has_feed_UpdateFeed. exact (sound_seen_items _ Hs r Hr).
Qed.

Lemma sound_MarkSeen (s : Store) (feedID : Z) (guid : string) (now : Time) :
  sound s -> has_feed (tables s) feedID ->
  sound (with_tables s (snd (MarkSeen (tables s) feedID guid now))).
Proof.
  intros Hs Hf. destruct (MarkSeen_tables (tables s) feedID guid now) as [Hfe [Hfi Hse]].
  apply (sound_step s); [exact Hs | constructor | | |]; cbn [tables with_tables];
    unfold has_feed; rewrite ?Hfe, ?Hfi.
  - exact (sound_intervals _ Hs).
  - exact (sound_filters _ Hs).
  - destruct Hse as [-> | ->]; [exact (sound_seen_items _ Hs) |].
    intros r Hr. apply in_app_or in Hr. destruct Hr as [Hr | [<- | []]];
      [exact (sound_seen_items _ Hs r Hr) | exact Hf].
Qed.

Lemma has_feed_DeleteFeed (d : DB) (id id' : Z) :
  has_feed d id' -> id' <> id -> has_feed (DeleteFeed d id) id'.
Proof.
  unfold has_feed, DeleteFeed. cbn [feeds]. intros H Hne. apply in_map_iff in H.
  destruct H as [r [Hr Hin]]. apply in_map_iff. exists r. split; [exact Hr |].
  apply filter_In. split; [exact Hin |]. apply negb_true_iff, Z.eqb_neq. congruence.
Qed.

Lemma sound_DeleteFeed (s : Store) (id : Z) :
  sound s -> sound (with_tables s (DeleteFeed (tables s) id)).
Proof.
  intros Hs. apply (sound_step s); [exact Hs | constructor | | |]; cbn [tables with_tables].
  - intros r Hr. apply filter_In in Hr. exact (sound_intervals _ Hs r (proj1 Hr)).
  - intros r Hr. cbn [DeleteFeed filters] in Hr. apply filter_In in Hr. destruct Hr as [Hr Hid].
    apply negb_true_iff, Z.eqb_neq in Hid.
    destruct (sound_filters _ Hs r Hr) as [H1 H2]. split; [| exact H2].
    now apply has_feed_DeleteFeed.
  - intros r Hr. cbn [DeleteFeed seen_items] in Hr. apply filter_In in Hr.
    destruct Hr as [Hr Hid]. apply negb_true_iff, Z.eqb_neq in Hid.
    apply has_feed_DeleteFeed; [exact (sound_seen_items _ Hs r Hr) | exact Hid].
Qed.

Lemma sound_DeleteFilter (s : Store) (id : Z) :
  sound s -> sound (with_tables s (DeleteFilter (tables s) id)).
Proof.
  intros Hs. apply (sound_step s); [exact Hs | constructor | | |]; cbn [tables with_tables].
  - exact (sound_intervals _ Hs).
  - intros r Hr. cbn [DeleteFilter filters] in Hr. apply filter_In in Hr.
    exact (sound_filters _ Hs r (proj1 Hr)).
  - exact (sound_seen_items _ Hs).
Qed.

Lemma sound_CreateFeed (s s' : Store) (feed feed' : Feed) (now : Time) :
  sound s -> 1 <= Feed_IntervalMinutes feed <= 1440 ->
  CreateFeed s feed now = (Ok feed', s') -> sound s'.
Proof.
  intros Hs Hi Hc. destruct (CreateFeed_tables _ _ _ _ _ Hc) as [id Ht].
  assert (Hmono : forall i, has_feed (tables s) i -> has_feed (tables s') i).
  { intros i. unfold has_feed. rewrite Ht. cbn [feeds]. rewrite map_app, in_app_iff. tauto. }
  apply (sound_step s); [exact Hs | econstructor; exact Hc | | |]; rewrite Ht;
    cbn [feeds filters seen_items].
  - intros r Hr. apply in_app_or in Hr. destruct Hr as [Hr | [<- | []]];
      [exact (sound_intervals _ Hs r Hr) | exact Hi].
  - intros r Hr. destruct (sound_filters _ Hs r Hr) as [H1 H2]. split; [| exact H2].
    rewrite <- Ht. now apply Hmono.
  - intros r Hr. rewrite <- Ht. apply Hmono. exact (sound_seen_items _ Hs r Hr).
Qed.

Lemma sound_CreateFilter (s s' : Store) (f f' : Filter) (now : Time) :
  sound s -> has_feed (tables s) (Filter_FeedID f) ->
  compiles (Filter_Kind f) (Filter_Value f) -> normal (Filter_Value f) ->
  CreateFilter s f now = (Ok f', s') -> sound s'.
Proof.
  intros Hs Hf Hre Hn Hc. destruct (CreateFilter_tables _ _ _ _ _ Hc) as [id Ht].
  apply (sound_step s); [exact Hs | econstructor; exact Hc | | |]; rewrite Ht;
    cbn [feeds filters seen_items]; unfold has_feed; cbn [feeds].
  - exact (sound_intervals _ Hs).
  - intros r Hr. apply in_app_or in Hr. destruct Hr as [Hr | [<- | []]];
      [exact (sound_filters _ Hs r Hr) |].
    cbn [filters_feed_id filters_kind filters_value].
    split; [exact Hf | split; [exact Hre | exact Hn]].
  - exact (sound_seen_items _ Hs).
Qed.

(** What a command does keeps the store sound. *)
Lemma sound_change (c : Z) (s s' : Store) : sound s -> change c s s' -> sound s'.
Proof.
  intros Hs Hch.
  destruct Hch as [s s' feed feed' now _ Hi Hc | s old feed Hget _ _ _ _ Hi
                  | s id _ | s s' f f' now Hown Hre Hn Hc | s id f _ _
                  | s feedID guid now Hown].
  - apply (sound_CreateFeed s s' feed feed' now); [exact Hs | lia | exact Hc].
  - apply sound_UpdateFeed; [exact Hs |]. destruct Hi as [Hi | Hi]; [| exact Hi].
    rewrite Hi. unfold GetFeed in Hget. destruct (find _ _) as [r |] eqn:Hf; [| discriminate].
    injection Hget as <-. apply find_some in Hf.
    exact (sound_intervals _ Hs r (proj1 Hf)).
  - now apply sound_DeleteFeed.
  - apply (sound_CreateFilter s s' f f' now); auto. exact (owns_has_feed _ _ _ Hown).
  - now apply sound_DeleteFilter.
  - apply sound_MarkSeen; [exact Hs | exact (owns_has_feed _ _ _ Hown)].
Qed.

Lemma sound_changes (c : Z) (s s' : Store) : sound s -> changes c s s' -> sound s'.
Proof.
  intros Hs H. induction H as [| s s' s'' _ IH Hch]; [exact Hs |].
  exact (sound_change c s' s'' (IH Hs) Hch).
Qed.

Lemma sound_empty : sound empty.
Proof.
  constructor; [exact history_facts.consistent_empty | | |]; intros r [].
Qed.

(** *** The scheduler *)

Section Cycle.

Variables (fs ls : Z) (ids : list Z).

Lemma kept_handle {X : Type} (op : Op X) (b : harness.World) :
  careful ids op -> kept fs ls ids b -> kept fs ls ids (snd (harness.handle op b)).
Proof.
  intros Hop [Hs Hids].
  destruct op; cbn [harness.handle snd]; try (split; assumption);
    unfold harness.store_call;
    try (destruct (harness.store_fault b (harness.store_calls b)); [split; assumption |]);
    try (split; assumption).
  - (* UpdateFeed *)
    split; cbn [snd harness.set_db harness.db harness.count_store_call].
    + exact (sound_UpdateFeed _ feed Hs Hop).
    + now rewrite history_facts.UpdateFeed_ids.
  - (* MarkSeen *)
    cbn [careful] in Hop.
    pose proof (sound_MarkSeen _ feedID guid (harness.clock b) Hs) as Hm.
    cbn [tables with_tables] in Hm.
    destruct (MarkSeen_tables (harness.db b) feedID guid (harness.clock b)) as [Hfe _].
    destruct (MarkSeen (harness.db b) feedID guid (harness.clock b)) as [err d].
    cbn [snd] in *. split; cbn [harness.set_db harness.db harness.count_store_call].
    + apply Hm. unfold has_feed. cbn [tables]. now rewrite Hids.
    + now rewrite Hfe.
Qed.

Lemma kept_run {A : Type} (p : Prog A) :
  forall b, careful_prog ids p -> kept fs ls ids b -> kept fs ls ids (snd (harness.run p b)).
Proof.
  induction p as [a | X op k IH]; intros b Hp Hk; [exact Hk |].
  cbn [harness.run]. destruct Hp as [Hop Hkx].
  pose proof (kept_handle op b Hop Hk) as Hk'.
  destruct (harness.handle op b) as [x b']. cbn [snd] in Hk'.
  exact (IH x b' (Hkx x) Hk').
Qed.

Lemma careful_bind {A B : Type} (p : Prog A) (f : A -> Prog B) :
  careful_prog ids p -> (forall a, careful_prog ids (f a)) -> careful_prog ids (bind p f).
Proof.
  induction p as [a | X op k IH]; intros Hp Hf; cbn [bind careful_prog]; [apply Hf |].
  destruct Hp as [Hop Hk]. split; [exact Hop |]. intros x. now apply IH.
Qed.

Lemma careful_call {X : Type} (op : Op X) : careful ids op -> careful_prog ids (call op).
Proof. intros H. split; [exact H | intros x; exact I]. Qed.

Lemma careful_Fetch (url : string) : careful_prog ids (fetcher.Fetch url).
Proof.
  unfold fetcher.Fetch. destruct (url_Parse url); [exact I |].
  apply careful_bind; [now apply careful_call |].
  intros [resp | e]; [| exact I].
  destruct (negb _); [exact I |]. destruct (io.ReadAll_LimitReader _ _); [| exact I].
  destruct (gofeed_ParseString _); exact I.
Qed.

Lemma careful_updateLastCheck (feed : Feed) :
  1 <= Feed_IntervalMinutes feed <= 1440 -> careful_prog ids (scheduler.updateLastCheck feed).
Proof.
  intros Hi. unfold scheduler.updateLastCheck. apply careful_bind; [now apply careful_call |].
  intros now. apply careful_bind; [apply careful_call; exact Hi |].
  intros [e |]; [now apply careful_call | exact I].
Qed.

Lemma careful_deliver (feed : Feed) (matched : list fetcher.MatchedItem) :
  In (Feed_ID feed) ids -> forall sent, careful_prog ids (scheduler.deliver feed matched sent).
Proof.
  intros Hid. induction matched as [| item rest IH]; intros sent; [exact I |].
  cbn [scheduler.deliver]. apply careful_bind; [now apply careful_call |].
  intros [[|] | e]; [apply IH | |].
  - apply careful_bind; [now apply careful_call |]. intros _.
    apply careful_bind; [apply careful_call; exact Hid |]. intros err.
    apply careful_bind; [destruct err; [now apply careful_call | exact I] |]. intros _.
    apply careful_bind; [now apply careful_call |]. intros _. apply IH.
  - apply careful_bind; [now apply careful_call |]. intros _. apply IH.
Qed.

Lemma careful_processFeed (feed : Feed) :
  In (Feed_ID feed) ids -> 1 <= Feed_IntervalMinutes feed <= 1440 ->
  careful_prog ids (scheduler.processFeed feed).
Proof.
  intros Hid Hi. unfold scheduler.processFeed.
  apply careful_bind; [now apply careful_call |]. intros _.
  apply careful_bind; [apply careful_Fetch |].
  intros [rssFeed | e].
  - apply careful_bind; [now apply careful_call |].
    intros [filters | e]; [| now apply careful_call].
    apply careful_bind; [now apply careful_deliver |]. intros sent.
    apply careful_bind; [destruct (0 <? sent); [now apply careful_call | exact I] |].
    intros _. now apply careful_updateLastCheck.
  - apply careful_bind; [now apply careful_call |]. intros _.
    now apply careful_updateLastCheck.
Qed.

Lemma careful_checkAll_loop (due : list Feed) :
  Forall (fun feed => In (Feed_ID feed) ids /\ 1 <= Feed_IntervalMinutes feed <= 1440) due ->
  careful_prog ids (scheduler.checkAll_loop due).
Proof.
  induction due as [| feed rest IH]; intros H; [exact I |].
  inversion H as [| x l [Hid Hi] Hrest]; subst. cbn [scheduler.checkAll_loop].
  apply careful_bind; [now apply careful_call |].
  intros [|]; [exact I |].
  apply careful_bind; [now apply careful_processFeed |]. intros _. now apply IH.
Qed.

(** A cycle of the scheduler keeps the store sound. *)
Lemma kept_checkAll (b : harness.World) :
  kept fs ls ids b -> kept fs ls ids (harness.exec scheduler.checkAll b).
Proof.
  intros Hk. unfold harness.exec, scheduler.checkAll.
  rewrite run_facts.run_bind, run_facts.run_call.
  pose proof (kept_handle store_ListDueFeeds b I Hk) as Hk'.
  assert (Hdue : forall due, fst (harness.handle store_ListDueFeeds b) = Ok due ->
            Forall (fun feed => In (Feed_ID feed) ids
                                /\ 1 <= Feed_IntervalMinutes feed <= 1440) due).
  { cbn [harness.handle]. unfold harness.store_call.
    destruct (harness.store_fault b (harness.store_calls b)); [discriminate |].
    cbn [fst]. intros due H. injection H as <-. apply Forall_forall. intros feed Hin.
    unfold ListDueFeeds, scanFeeds in Hin. apply in_map_iff in Hin.
    destruct Hin as [r [<- Hr]]. apply filter_In in Hr. destruct Hr as [Hr _].
    destruct Hk as [Hs Hids]. cbn [scanFeed Feed_ID Feed_IntervalMinutes]. split.
    - rewrite <- Hids. now apply in_map.
    - exact (sound_intervals _ Hs r Hr). }
  destruct (harness.handle store_ListDueFeeds b) as [r b']. cbn [fst snd] in *.
  destruct r as [due | e].
  - apply kept_run; [| exact Hk']. apply careful_checkAll_loop. now apply Hdue.
  - apply kept_run; [| exact Hk']. now apply careful_call.
Qed.

End Cycle.

End WithLib.

End policy_facts.

(** ** The commands *)

Module handler_facts.

Import storage crud policy handlers.

Lemma returns_bind {A B : Type} (m : M A) (k : A -> M B) (w : World) (Q : B -> World -> Prop) :
  returns (bind m k) w Q <-> returns m w (fun a w' => returns (k a) w' Q).
Proof.
  unfold returns, bind. destruct (m w) as [[a w'] | msg]; reflexivity.
Qed.

Lemma returns_ret {A : Type} (a : A) (w : World) (Q : A -> World -> Prop) :
  Q a w -> returns (ret a) w Q.
Proof. exact (fun H => H). Qed.

Lemma returns_weaken {A : Type} (m : M A) (w : World) (Q Q' : A -> World -> Prop) :
  returns m w Q -> (forall a w', Q a w' -> Q' a w') -> returns m w Q'.
Proof.
  unfold returns. destruct (m w) as [[a w'] | msg]; [| exact (fun H _ => H)].
  intros H HQ. exact (HQ _ _ H).
Qed.

Lemma returns_inv {A : Type} (m : M A) (w w' : World) (a : A) (Q : A -> World -> Prop) :
  returns m w Q -> m w = Returns (a, w') -> Q a w'.
Proof. unfold returns. intros H E. now rewrite E in H. Qed.

Lemma returns_total {A : Type} (m : M A) (w : World) (Q : A -> World -> Prop) :
  returns m w Q -> exists a w', m w = Returns (a, w') /\ Q a w'.
Proof.
  unfold returns. destruct (m w) as [[a w'] | msg]; [| contradiction].
  intros H. now exists a, w'.
Qed.

(** *** The logger, the API, the network *)

Lemma returns_slog (level msg : string) (attrs : list (string * string)) (w : World)
    (Q : unit -> World -> Prop) :
  (forall w', store w' = store w ->
              harness.outbox (base w') = harness.outbox (base w) -> Q tt w') ->
  returns (slog level msg attrs) w Q.
Proof.
  intros H. unfold returns, slog. apply H; reflexivity.
Qed.

Lemma returns_api_Send (w : World) (Q : error -> World -> Prop) :
  (forall err w', store w' = store w ->
                  harness.outbox (base w') = harness.outbox (base w) -> Q err w') ->
  returns api_Send w Q.
Proof.
  intros H. unfold returns, api_Send. apply H; reflexivity.
Qed.

Lemma returns_reply (chatID : Z) (text : string) (w : World) (Q : unit -> World -> Prop) :
  (forall w', store w' = store w ->
              harness.outbox (base w') = (harness.outbox (base w) ++ [(chatID, text)])%list ->
              Q tt w') ->
  returns (reply chatID text) w Q.
Proof.
  intros H. unfold reply, SendMessage. rewrite returns_bind.
  unfold returns at 1, to_outbox. rewrite returns_bind.
  apply returns_api_Send. intros err w1 Hs1 Ho1. destruct err as [e |].
  - apply returns_slog. intros w2 Hs2 Ho2. apply H; [now rewrite Hs2, Hs1 |].
    now rewrite Ho2, Ho1.
  - apply returns_ret. apply H; [exact Hs1 | exact Ho1].
Qed.

Section WithLib.

Context {lib : GoLib} {fmtlib : GoFmt}.

Lemma returns_Fetch (url : string) (w : World) (Q : result gofeed.Feed -> World -> Prop) :
  (forall r w', store w' = store w ->
                harness.outbox (base w') = harness.outbox (base w) -> Q r w') ->
  returns (Fetch url) w Q.
Proof.
  intros H. unfold returns, Fetch.
  pose proof (fetch_facts.Fetch_world url (base w)) as Hw.
  destruct (harness.run (fetcher.Fetch url) (base w)) as [r b]. cbn [snd] in Hw. subst b.
  apply H; reflexivity.
Qed.

End WithLib.

(** *** The store *)

Lemma returns_store_call {X : Type} (fail : string -> X)
    (stmt : Time -> Store -> X * Store) (w : World) (Q : X -> World -> Prop) :
  (forall x w', harness.outbox (base w') = harness.outbox (base w) ->
                (store w' = store w /\ exists e, x = fail e)
                \/ (x, store w') = stmt (harness.clock (base w)) (store w) ->
                Q x w') ->
  returns (store_call fail stmt) w Q.
Proof.
  intros H. unfold returns, store_call.
  destruct (harness.store_fault (base w) (harness.store_calls (base w))) as [e |].
  - apply H; [reflexivity |]. left. split; [reflexivity | now exists e].
  - destruct (stmt (harness.clock (base w)) (store w)) as [x s] eqn:E.
    apply H; [reflexivity |]. right. now destruct s.
Qed.

Lemma returns_query {X : Type} (ctx : string) (q : DB -> result X) (w : World)
    (Q : result X -> World -> Prop) :
  (forall r w', store w' = store w ->
                harness.outbox (base w') = harness.outbox (base w) ->
                (forall x, r = Ok x -> q (tables (store w)) = Ok x) -> Q r w') ->
  returns (store_call (fun e => Err (wrap ctx e)) (query q)) w Q.
Proof.
  intros H. apply returns_store_call. intros r w' Ho [[Hs [e ->]] | Hr].
  - apply H; [exact Hs | exact Ho | discriminate].
  - unfold query in Hr. pose proof (f_equal fst Hr) as Hx. pose proof (f_equal snd Hr) as Hs.
    cbn [fst snd] in Hx, Hs. subst r. apply H; [exact Hs | exact Ho | auto].
Qed.

Lemma returns_GetFeed (id : Z) (w : World) (Q : result Feed -> World -> Prop) :
  (forall r w', store w' = store w ->
                harness.outbox (base w') = harness.outbox (base w) ->
                (forall feed, r = Ok feed -> crud.GetFeed (tables (store w)) id = Ok feed) ->
                Q r w') ->
  returns (handlers.GetFeed id) w Q.
Proof. exact (returns_query "scan feed" (fun d => crud.GetFeed d id) w Q). Qed.

Lemma returns_GetFeed_of (chatID id : Z) (w : World) (Q : option Feed -> World -> Prop) :
  (forall o w', store w' = store w ->
                harness.outbox (base w') = harness.outbox (base w) ->
                (forall feed, o = Some feed ->
                   crud.GetFeed (tables (store w)) id = Ok feed /\ Feed_ChatID feed = chatID) ->
                Q o w') ->
  returns (GetFeed_of chatID id) w Q.
Proof.
  intros H. unfold GetFeed_of. rewrite returns_bind. apply returns_GetFeed.
  intros r w' Hs Ho Hr. apply returns_ret. apply H; [exact Hs | exact Ho |].
  intros feed. destruct r as [feed' | e]; [| discriminate].
  destruct (Z.eqb_spec (Feed_ChatID feed') chatID) as [E | N]; cbn [negb]; [| discriminate].
  intros H0. injection H0 as <-. split; [now apply Hr | exact E].
Qed.

Lemma returns_GetFilter (id : Z) (w : World) (Q : result Filter -> World -> Prop) :
  (forall r w', store w' = store w ->
                harness.outbox (base w') = harness.outbox (base w) ->
                (forall f, r = Ok f -> crud.GetFilter (tables (store w)) id = Ok f) ->
                Q r w') ->
  returns (handlers.GetFilter id) w Q.
Proof. exact (returns_query "scan filter" (fun d => crud.GetFilter d id) w Q). Qed.

Lemma returns_ListFilters (feedID : Z) (w : World) (Q : result (list Filter) -> World -> Prop) :
  (forall r w', store w' = store w ->
                harness.outbox (base w') = harness.outbox (base w) -> Q r w') ->
  returns (handlers.ListFilters feedID) w Q.
Proof.
  intros H. apply (returns_query "query filters" (fun d => Ok (storage.ListFilters d feedID))).
  intros r w' Hs Ho _. now apply H.
Qed.

Lemma returns_ListFilters_or_nil (feedID : Z) (w : World) (Q : list Filter -> World -> Prop) :
  (forall l w', store w' = store w ->
                harness.outbox (base w') = harness.outbox (base w) -> Q l w') ->
  returns (ListFilters_or_nil feedID) w Q.
Proof.
  intros H. unfold ListFilters_or_nil. rewrite returns_bind. apply returns_ListFilters.
  intros r w' Hs Ho. apply returns_ret. now apply H.
Qed.

Lemma returns_ListFeeds (chatID : Z) (w : World) (Q : result (list Feed) -> World -> Prop) :
  (forall r w', store w' = store w ->
                harness.outbox (base w') = harness.outbox (base w) -> Q r w') ->
  returns (handlers.ListFeeds chatID) w Q.
Proof.
  intros H. apply (returns_query "query feeds" (fun d => Ok (crud.ListFeeds d chatID))).
  intros r w' Hs Ho _. now apply H.
Qed.

Lemma returns_IsSeen (feedID : Z) (guid : string) (w : World) (Q : result bool -> World -> Prop) :
  (forall r w', store w' = store w ->
                harness.outbox (base w') = harness.outbox (base w) -> Q r w') ->
  returns (handlers.IsSeen feedID guid) w Q.
Proof.
  intros H. apply (returns_query "check seen" (fun d => Ok (storage.IsSeen d feedID guid))).
  intros r w' Hs Ho _. now apply H.
Qed.

Lemma returns_exec (ctx : string) (f : DB -> DB) (w : World) (Q : error -> World -> Prop) :
  (forall err w', harness.outbox (base w') = harness.outbox (base w) ->
                  store w' = store w \/ store w' = with_tables (store w) (f (tables (store w))) ->
                  Q err w') ->
  returns (store_call (fun e => Some (wrap ctx e)) (exec None f)) w Q.
Proof.
  intros H. apply returns_store_call. intros r w' Ho [[Hs _] | Hr].
  - apply H; [exact Ho | now left].
  - unfold exec in Hr. pose proof (f_equal snd Hr) as Hs. cbn [snd] in Hs.
    apply H; [exact Ho | now right].
Qed.

Lemma returns_MarkSeen (feedID : Z) (guid : string) (w : World) (Q : error -> World -> Prop) :
  (forall err w', harness.outbox (base w') = harness.outbox (base w) ->
                  store w' = store w
                  \/ store w' = with_tables (store w)
                       (snd (storage.MarkSeen (tables (store w)) feedID guid
                               (harness.clock (base w)))) ->
                  Q err w') ->
  returns (handlers.MarkSeen feedID guid) w Q.
Proof.
  intros H. apply returns_store_call. intros r w' Ho [[Hs _] | Hr].
  - apply H; [exact Ho | now left].
  - destruct (storage.MarkSeen _ _ _ _) as [err d] eqn:E.
    pose proof (f_equal snd Hr) as Hs. cbn [snd] in Hs.
    apply H; [exact Ho | right]. exact Hs.
Qed.

Lemma returns_CreateFeed (feed : Feed) (w : World) (Q : result Feed -> World -> Prop) :
  (forall r w', harness.outbox (base w') = harness.outbox (base w) ->
                (store w' = store w /\ exists e, r = Err e)
                \/ (r, store w') = crud.CreateFeed (store w) feed (harness.clock (base w)) ->
                Q r w') ->
  returns (handlers.CreateFeed feed) w Q.
Proof.
  intros H. apply returns_store_call. intros r w' Ho [[Hs [e ->]] | Hr].
  - apply H; [exact Ho |]. left. split; [exact Hs | now eexists].
  - apply H; [exact Ho | now right].
Qed.

Lemma returns_CreateFilter (f : Filter) (w : World) (Q : result Filter -> World -> Prop) :
  (forall r w', harness.outbox (base w') = harness.outbox (base w) ->
                (store w' = store w /\ exists e, r = Err e)
                \/ (r, store w') = crud.CreateFilter (store w) f (harness.clock (base w)) ->
                Q r w') ->
  returns (handlers.CreateFilter f) w Q.
Proof.
  intros H. apply returns_store_call. intros r w' Ho [[Hs [e ->]] | Hr].
  - apply H; [exact Ho |]. left. split; [exact Hs | now eexists].
  - apply H; [exact Ho | now right].
Qed.


Lemma GetFeed_ID (d : DB) (id : Z) (feed : Feed) :
  crud.GetFeed d id = Ok feed -> Feed_ID feed = id.
Proof.
  unfold crud.GetFeed. destruct (find _ _) as [r |] eqn:Hf; [| discriminate].
  intros H. injection H as <-. apply find_some in Hf. destruct Hf as [_ Hid].
  now apply Z.eqb_eq in Hid.
Qed.

Section Effects.

Context {lib : GoLib} {fmtlib : GoFmt}.

Variable chatID : Z.
Variable w0 : World.

Lemma effect_refl : effect chatID w0 w0.
Proof.
  split; [constructor |]. exists []. split; [now rewrite app_nil_r | constructor].
Qed.

Lemma effect_quiet (w w' : World) :
  effect chatID w0 w -> store w' = store w ->
  harness.outbox (base w') = harness.outbox (base w) -> effect chatID w0 w'.
Proof.
  intros [Hc [msgs [Hm Hto]]] Hs Ho. split; [now rewrite Hs |].
  exists msgs. split; [now rewrite Ho | exact Hto].
Qed.

Lemma effect_reply (w w' : World) (text : string) :
  effect chatID w0 w -> store w' = store w ->
  harness.outbox (base w') = (harness.outbox (base w) ++ [(chatID, text)])%list ->
  effect chatID w0 w'.
Proof.
  intros [Hc [msgs [Hm Hto]]] Hs Ho. split; [now rewrite Hs |].
  exists (msgs ++ [(chatID, text)])%list. split.
  - now rewrite Ho, Hm, app_assoc.
  - apply Forall_app. split; [exact Hto |]. constructor; [reflexivity | constructor].
Qed.

Lemma effect_change (w w' : World) :
  effect chatID w0 w -> change chatID (store w) (store w') ->
  harness.outbox (base w') = harness.outbox (base w) -> effect chatID w0 w'.
Proof.
  intros [Hc [msgs [Hm Hto]]] Hch Ho. split; [econstructor; eassumption |].
  exists msgs. split; [now rewrite Ho | exact Hto].
Qed.

(** A reply ends a handler. *)
Lemma reply_effect (w : World) (text : string) :
  effect chatID w0 w -> returns (reply chatID text) w (fun _ w' => effect chatID w0 w').
Proof.
  intros He. apply returns_reply. intros w' Hs Ho. exact (effect_reply _ _ _ He Hs Ho).
Qed.

Lemma returns_ParseIDArg (args : string) (w : World) (Q : result Z -> World -> Prop) :
  (forall r, Q r w) -> returns (lift (bot.ParseIDArg args)) w Q.
Proof.
  intros H. unfold returns, lift. rewrite parse_facts.ParseIDArg_eq. apply H.
Qed.

Lemma handleStart_effect (w : World) :
  effect chatID w0 w -> returns (handleStart chatID) w (fun _ w' => effect chatID w0 w').
Proof. apply reply_effect. Qed.

Lemma handleHelp_effect (w : World) :
  effect chatID w0 w -> returns (handleHelp chatID) w (fun _ w' => effect chatID w0 w').
Proof. apply reply_effect. Qed.

Lemma handleAdd_effect (args : string) (w : World) :
  effect chatID w0 w -> returns (handleAdd chatID args) w (fun _ w' => effect chatID w0 w').
Proof.
  intros He. unfold handleAdd. destruct (String.eqb args EmptyString); [now apply reply_effect |].
  rewrite returns_bind. apply returns_Fetch. intros r w1 Hs1 Ho1.
  pose proof (effect_quiet _ _ He Hs1 Ho1) as He1.
  destruct r as [feed | e]; [| now apply reply_effect].
  rewrite returns_bind. apply returns_CreateFeed. intros r w2 Ho2 [[Hs2 [e ->]] | Hc].
  - apply reply_effect. exact (effect_quiet _ _ He1 Hs2 Ho2).
  - destruct r as [f | e].
    + apply reply_effect. apply (effect_change w1); [exact He1 | | exact Ho2].
      eapply add_feed; [| | symmetry; exact Hc]; reflexivity.
    + apply reply_effect. apply (effect_quiet w1); [exact He1 | | exact Ho2].
      unfold crud.CreateFeed in Hc. destruct (next_rowid _ _); [discriminate Hc |].
      exact (f_equal snd Hc).
Qed.

Lemma handleList_counts_effect (feeds : list Feed) :
  forall (counts : list (Z * (Z * Z))) (w : World),
  effect chatID w0 w ->
  returns (handleList_counts feeds counts) w (fun _ w' => effect chatID w0 w').
Proof.
  induction feeds as [| f feeds IH]; intros counts w He; cbn [handleList_counts].
  - now apply returns_ret.
  - rewrite returns_bind. apply returns_ListFilters. intros r w1 Hs1 Ho1.
    pose proof (effect_quiet _ _ He Hs1 Ho1) as He1. destruct r; now apply IH.
Qed.

Lemma handleList_effect (w : World) :
  effect chatID w0 w -> returns (handleList chatID) w (fun _ w' => effect chatID w0 w').
Proof.
  intros He. unfold handleList. rewrite returns_bind. apply returns_ListFeeds.
  intros r w1 Hs1 Ho1. pose proof (effect_quiet _ _ He Hs1 Ho1) as He1.
  destruct r as [feeds | e]; [| now apply reply_effect].
  rewrite returns_bind. apply (returns_weaken _ _ _ _ (handleList_counts_effect feeds [] w1 He1)).
  intros counts w2 He2. now apply reply_effect.
Qed.

Lemma handleInfo_effect (args : string) (w : World) :
  effect chatID w0 w -> returns (handleInfo chatID args) w (fun _ w' => effect chatID w0 w').
Proof.
  intros He. unfold handleInfo. rewrite returns_bind. apply returns_ParseIDArg.
  intros [id | e]; [| now apply reply_effect].
  rewrite returns_bind. apply returns_GetFeed. intros r w1 Hs1 Ho1 _.
  pose proof (effect_quiet _ _ He Hs1 Ho1) as He1.
  destruct r as [feed | e]; [| now apply reply_effect].
  destruct (negb (Feed_ChatID feed =? chatID)); [now apply reply_effect |].
  rewrite returns_bind. apply returns_ListFilters_or_nil. intros l w2 Hs2 Ho2.
  apply reply_effect. exact (effect_quiet _ _ He1 Hs2 Ho2).
Qed.

Lemma owns_intro (w : World) (id : Z) (feed : Feed) :
  crud.GetFeed (tables (store w)) id = Ok feed /\ Feed_ChatID feed = chatID ->
  owns (tables (store w)) chatID id.
Proof. intros [H1 H2]. now exists feed. Qed.

Lemma handleRemove_effect (args : string) (w : World) :
  effect chatID w0 w -> returns (handleRemove chatID args) w (fun _ w' => effect chatID w0 w').
Proof.
  intros He. unfold handleRemove. rewrite returns_bind. apply returns_ParseIDArg.
  intros [id | e]; [| now apply reply_effect].
  rewrite returns_bind. apply returns_GetFeed_of. intros o w1 Hs1 Ho1 Hfeed.
  pose proof (effect_quiet _ _ He Hs1 Ho1) as He1.
  destruct o as [feed |]; [| now apply reply_effect].
  specialize (Hfeed feed eq_refl). rewrite <- Hs1 in Hfeed.
  rewrite returns_bind. apply returns_exec. intros err w2 Ho2 Hs2.
  assert (He2 : effect chatID w0 w2).
  { destruct Hs2 as [Hs2 | Hs2]; [exact (effect_quiet _ _ He1 Hs2 Ho2) |].
    apply (effect_change w1); [exact He1 | | exact Ho2]. rewrite Hs2.
    apply delete_feed. exact (owns_intro _ _ _ Hfeed). }
  destruct err; now apply reply_effect.
Qed.

(** The three handlers that change a field of a feed. *)
Lemma update_effect (id : Z) (set : Feed -> Feed) (w : World) (k : error -> M unit) :
  (forall old, Feed_ID (set old) = Feed_ID old /\ Feed_URL (set old) = Feed_URL old
               /\ Feed_LastCheckAt (set old) = Feed_LastCheckAt old
               /\ (Feed_IntervalMinutes (set old) = Feed_IntervalMinutes old
                   \/ 1 <= Feed_IntervalMinutes (set old) <= 1440)) ->
  (forall err w', effect chatID w0 w' ->
                  returns (k err) w' (fun _ w'' => effect chatID w0 w'')) ->
  effect chatID w0 w ->
  returns (o <- GetFeed_of chatID id ;;
           match o with
           | None => reply chatID (not_found id)
           | Some feed => err <- handlers.UpdateFeed (set feed) ;; k err
           end)%bot w (fun _ w' => effect chatID w0 w').
Proof.
  intros Hset Hk He. rewrite returns_bind. apply returns_GetFeed_of.
  intros o w1 Hs1 Ho1 Hfeed. pose proof (effect_quiet _ _ He Hs1 Ho1) as He1.
  destruct o as [feed |]; [| now apply reply_effect].
  specialize (Hfeed feed eq_refl). rewrite <- Hs1 in Hfeed. destruct Hfeed as [Hget Hchat].
  rewrite returns_bind. apply returns_exec. intros err w2 Ho2 Hs2. apply Hk.
  destruct Hs2 as [Hs2 | Hs2]; [exact (effect_quiet _ _ He1 Hs2 Ho2) |].
  apply (effect_change w1); [exact He1 | | exact Ho2]. rewrite Hs2.
  destruct (Hset feed) as [H1 [H2 [H3 H4]]].
  pose proof (GetFeed_ID _ _ _ Hget) as Hid.
  apply (update_feed chatID (store w1) feed (set feed)); try assumption.
  now rewrite Hid.
Qed.

Lemma handleRename_effect (args : string) (w : World) :
  effect chatID w0 w -> returns (handleRename chatID args) w (fun _ w' => effect chatID w0 w').
Proof.
  intros He. unfold handleRename.
  destruct (bot.ParseRenameArgs args) as [[id name] | e]; [| now apply reply_effect].
  apply (update_effect id (fun feed => assign.Name feed name)); [| | exact He].
  - intros old. cbn. auto.
  - intros err w' He'. destruct err; now apply reply_effect.
Qed.

Lemma handleInterval_effect (args : string) (w : World) :
  effect chatID w0 w ->
  returns (handleInterval chatID args) w (fun _ w' => effect chatID w0 w').
Proof.
  intros He. unfold handleInterval.
  destruct (bot.ParseIntervalArgs args) as [[id mins] | e] eqn:Hp; [| now apply reply_effect].
  apply parse_facts.ParseIntervalArgs_range in Hp. destruct Hp as [_ Hmins].
  apply (update_effect id (fun feed => assign.IntervalMinutes feed mins)); [| | exact He].
  - intros old. cbn. auto.
  - intros err w' He'. destruct err; now apply reply_effect.
Qed.

Lemma set_active_effect (usage word : string) (active : bool) (args : string) (w : World) :
  effect chatID w0 w ->
  returns (set_active usage word active chatID args) w (fun _ w' => effect chatID w0 w').
Proof.
  intros He. unfold set_active. rewrite returns_bind. apply returns_ParseIDArg.
  intros [id | e]; [| now apply reply_effect].
  rewrite returns_bind. apply returns_GetFeed_of.
  intros o w1 Hs1 Ho1 Hfeed. pose proof (effect_quiet _ _ He Hs1 Ho1) as He1.
  destruct o as [feed |]; [| now apply reply_effect].
  specialize (Hfeed feed eq_refl). rewrite <- Hs1 in Hfeed. destruct Hfeed as [Hget Hchat].
  rewrite returns_bind. apply returns_exec. intros err w2 Ho2 Hs2.
  assert (He2 : effect chatID w0 w2).
  { destruct Hs2 as [Hs2 | Hs2]; [exact (effect_quiet _ _ He1 Hs2 Ho2) |].
    apply (effect_change w1); [exact He1 | | exact Ho2]. rewrite Hs2.
    pose proof (GetFeed_ID _ _ _ Hget) as Hid.
    apply (update_feed chatID (store w1) feed (assign.IsActive feed active));
      try reflexivity; try assumption; [now rewrite Hid | now left]. }
  destruct err; now apply reply_effect.
Qed.

Lemma handleCheck_new_effect (feedID : Z) (matched : list fetcher.MatchedItem) :
  forall w : World,
  effect chatID w0 w ->
  returns (handleCheck_new feedID matched) w
    (fun _ w' => effect chatID w0 w' /\ store w' = store w).
Proof.
  induction matched as [| item rest IH]; intros w He; cbn [handleCheck_new].
  - now apply returns_ret.
  - rewrite returns_bind. apply returns_IsSeen. intros r w1 Hs1 Ho1.
    pose proof (effect_quiet _ _ He Hs1 Ho1) as He1.
    rewrite returns_bind. apply (returns_weaken _ _ _ _ (IH w1 He1)).
    intros newItems w2 [He2 Hs2]. apply returns_ret. split; [exact He2 | congruence].
Qed.

Lemma owns_MarkSeen (d : DB) (id feedID : Z) (guid : string) (now : Time) :
  owns d chatID id -> owns (snd (storage.MarkSeen d feedID guid now)) chatID id.
Proof.
  intros [feed [Hg Hc]]. exists feed. split; [| exact Hc].
  unfold crud.GetFeed in *.
  now rewrite (proj1 (policy_facts.MarkSeen_tables d feedID guid now)).
Qed.

Lemma handleCheck_send_effect (feed : Feed) (newItems : list fetcher.MatchedItem) :
  forall w : World,
  effect chatID w0 w -> owns (tables (store w)) chatID (Feed_ID feed) ->
  returns (handleCheck_send chatID feed newItems) w (fun _ w' => effect chatID w0 w').
Proof.
  induction newItems as [| item rest IH]; intros w He Hown; cbn [handleCheck_send].
  - now apply returns_ret.
  - rewrite returns_bind. apply returns_reply. intros w1 Hs1 Ho1.
    pose proof (effect_reply _ _ _ He Hs1 Ho1) as He1. rewrite <- Hs1 in Hown.
    rewrite returns_bind. apply returns_MarkSeen. intros err w2 Ho2 Hs2.
    destruct Hs2 as [Hs2 | Hs2].
    + apply IH; [exact (effect_quiet _ _ He1 Hs2 Ho2) | now rewrite Hs2].
    + apply IH.
      * apply (effect_change w1); [exact He1 | | exact Ho2]. rewrite Hs2.
        now apply mark_seen.
      * rewrite Hs2. cbn [tables with_tables]. now apply owns_MarkSeen.
Qed.

Lemma handleCheck_effect (args : string) (w : World) :
  effect chatID w0 w -> returns (handleCheck chatID args) w (fun _ w' => effect chatID w0 w').
Proof.
  intros He. unfold handleCheck. rewrite returns_bind. apply returns_ParseIDArg.
  intros [id | e]; [| now apply reply_effect].
  rewrite returns_bind. apply returns_GetFeed_of. intros o w1 Hs1 Ho1 Hfeed.
  pose proof (effect_quiet _ _ He Hs1 Ho1) as He1.
  destruct o as [feed |]; [| now apply reply_effect].
  specialize (Hfeed feed eq_refl). rewrite <- Hs1 in Hfeed.
  pose proof (GetFeed_ID _ _ _ (proj1 Hfeed)) as Hid.
  pose proof (owns_intro _ _ _ Hfeed) as Hown. rewrite <- Hid in Hown.
  rewrite returns_bind. apply returns_Fetch. intros r w2 Hs2 Ho2.
  pose proof (effect_quiet _ _ He1 Hs2 Ho2) as He2.
  destruct r as [rssFeed | e]; [| now apply reply_effect].
  rewrite returns_bind. apply returns_ListFilters_or_nil. intros filters w3 Hs3 Ho3.
  pose proof (effect_quiet _ _ He2 Hs3 Ho3) as He3.
  rewrite returns_bind.
  apply (returns_weaken _ _ _ _ (handleCheck_new_effect (Feed_ID feed) _ w3 He3)).
  intros newItems w4 [He4 Hs4]. destruct newItems as [| item rest]; [now apply reply_effect |].
  rewrite returns_bind.
  apply (returns_weaken _ _ _ _ (handleCheck_send_effect feed (item :: rest) w4 He4
           ltac:(rewrite Hs4, Hs3, Hs2; exact Hown))).
  intros _ w5 He5. now apply reply_effect.
Qed.

Lemma handleFilters_effect (args : string) (w : World) :
  effect chatID w0 w ->
  returns (handleFilters chatID args) w (fun _ w' => effect chatID w0 w').
Proof.
  intros He. unfold handleFilters. rewrite returns_bind. apply returns_ParseIDArg.
  intros [id | e]; [| now apply reply_effect].
  rewrite returns_bind. apply returns_GetFeed_of. intros o w1 Hs1 Ho1 _.
  pose proof (effect_quiet _ _ He Hs1 Ho1) as He1.
  destruct o as [feed |]; [| now apply reply_effect].
  rewrite returns_bind. apply returns_ListFilters_or_nil. intros l w2 Hs2 Ho2.
  apply reply_effect. exact (effect_quiet _ _ He1 Hs2 Ho2).
Qed.

Lemma handleAddFilter_effect (args kind : string) (w : World) :
  effect chatID w0 w ->
  returns (handleAddFilter chatID args kind) w (fun _ w' => effect chatID w0 w').
Proof.
  intros He. unfold handleAddFilter.
  destruct (bot.ParseFilterCommand args) as [parsed | e] eqn:Hp; [| now apply reply_effect].
  apply parse_facts.ParseFilterCommand_ok in Hp. destruct Hp as [_ [_ [Hne [Hjoin _]]]].
  rewrite returns_bind. apply returns_GetFeed_of. intros o w1 Hs1 Ho1 Hfeed.
  pose proof (effect_quiet _ _ He Hs1 Ho1) as He1.
  destruct o as [feed |]; [| now apply reply_effect].
  specialize (Hfeed feed eq_refl). rewrite <- Hs1 in Hfeed.
  pose proof (owns_intro _ _ _ Hfeed) as Hown.
  destruct (if String.eqb kind FilterIncludeRe || String.eqb kind FilterExcludeRe
            then filter.ValidateRegex (bot.FilterArgs_Value parsed) else None) as [e |] eqn:Hre;
    [now apply reply_effect |].
  rewrite returns_bind. apply returns_CreateFilter. intros r w2 Ho2 [[Hs2 [e ->]] | Hc].
  - apply reply_effect. exact (effect_quiet _ _ He1 Hs2 Ho2).
  - destruct r as [f | e].
    + apply reply_effect. apply (effect_change w1); [exact He1 | | exact Ho2].
      eapply add_filter; [| | | symmetry; exact Hc]; cbn [Filter_FeedID Filter_Kind Filter_Value].
      * exact Hown.
      * unfold compiles, is_regex_kind. intros Hk. now rewrite Hk in Hre.
      * split; assumption.
    + apply reply_effect. apply (effect_quiet w1); [exact He1 | | exact Ho2].
      unfold crud.CreateFilter in Hc. destruct (negb _); [exact (f_equal snd Hc) |].
      destruct (next_rowid _ _); [discriminate Hc | exact (f_equal snd Hc)].
Qed.

Lemma handleRmFilter_effect (args : string) (w : World) :
  effect chatID w0 w ->
  returns (handleRmFilter chatID args) w (fun _ w' => effect chatID w0 w').
Proof.
  intros He. unfold handleRmFilter. rewrite returns_bind. apply returns_ParseIDArg.
  intros [id | e]; [| now apply reply_effect].
  rewrite returns_bind. apply returns_GetFilter. intros r w1 Hs1 Ho1 Hf.
  pose proof (effect_quiet _ _ He Hs1 Ho1) as He1.
  destruct r as [f | e]; [| now apply reply_effect].
  specialize (Hf f eq_refl). rewrite <- Hs1 in Hf.
  rewrite returns_bind. apply returns_GetFeed_of. intros o w2 Hs2 Ho2 Hfeed.
  pose proof (effect_quiet _ _ He1 Hs2 Ho2) as He2.
  destruct o as [feed |]; [| now apply reply_effect].
  specialize (Hfeed feed eq_refl). rewrite <- Hs2 in Hfeed, Hf.
  rewrite returns_bind. apply returns_exec. intros err w3 Ho3 Hs3.
  assert (He3 : effect chatID w0 w3).
  { destruct Hs3 as [Hs3 | Hs3]; [exact (effect_quiet _ _ He2 Hs3 Ho3) |].
    apply (effect_change w2); [exact He2 | | exact Ho3]. rewrite Hs3.
    apply (delete_filter chatID (store w2) id f); [exact Hf |].
    exact (owns_intro _ _ _ Hfeed). }
  destruct err; now apply reply_effect.
Qed.

Lemma handleCommand_effect (cmd arguments : string) (w : World) :
  effect chatID w0 w ->
  returns (handleCommand cmd arguments chatID) w (fun _ w' => effect chatID w0 w').
Proof.
  intros He. unfold handleCommand. rewrite returns_bind. apply returns_slog.
  intros w1 Hs1 Ho1. pose proof (effect_quiet _ _ He Hs1 Ho1) as He1.
  repeat match goal with
         | |- returns (if ?c then _ else _) _ _ => destruct c
         end;
    first [ now apply handleStart_effect | now apply handleHelp_effect
          | now apply handleAdd_effect | now apply handleList_effect
          | now apply handleInfo_effect | now apply handleRemove_effect
          | now apply handleRename_effect | now apply handleInterval_effect
          | now apply set_active_effect | now apply handleCheck_effect
          | now apply handleFilters_effect | now apply handleAddFilter_effect
          | now apply handleRmFilter_effect | now apply reply_effect ].
Qed.

Lemma handleCallback_effect (cb : CallbackQuery) (w : World) :
  Callback_ChatID cb = chatID ->
  effect chatID w0 w ->
  returns (handleCallback cb) w (fun _ w' => effect chatID w0 w').
Proof.
  intros Hchat He. unfold handleCallback. rewrite Hchat. rewrite returns_bind.
  apply returns_api_Send. intros err w1 Hs1 Ho1. rewrite returns_bind.
  pose proof (effect_quiet _ _ He Hs1 Ho1) as He1.
  assert (Hack : returns match err with
                         | Some e => slog "ERROR" "send callback ack" [("error", e)]
                         | None => ret tt
                         end w1 (fun _ w' => effect chatID w0 w')).
  { destruct err; [| now apply returns_ret].
    apply returns_slog. intros w2 Hs2 Ho2. exact (effect_quiet _ _ He1 Hs2 Ho2). }
  apply (returns_weaken _ _ _ _ Hack). clear Hack. intros _ w2 He2.
  destruct (strings.SplitN (Callback_Data cb) ":" 2) as [| action [| idStr [| x rest]]];
    try now apply returns_ret.
  destruct (strconv.ParseInt idStr) as [id | e]; [| now apply returns_ret].
  rewrite returns_bind. apply returns_slog. intros w3 Hs3 Ho3.
  pose proof (effect_quiet _ _ He2 Hs3 Ho3) as He3.
  destruct (String.eqb action cmdFilters); [now apply handleFilters_effect |].
  destruct (String.eqb action cmdCheck); [now apply handleCheck_effect |].
  destruct (String.eqb action "delete_confirm").
  { rewrite returns_bind. apply returns_GetFeed_of. intros o w4 Hs4 Ho4 _.
    pose proof (effect_quiet _ _ He3 Hs4 Ho4) as He4.
    destruct o as [feed |]; [| now apply reply_effect].
    unfold send_confirmation. rewrite returns_bind. unfold returns at 1.
    rewrite returns_bind. unfold returns at 1, to_outbox. rewrite returns_bind.
    apply returns_api_Send. intros err' w5 Hs5 Ho5.
    assert (He5 : effect chatID w0 w5).
    { eapply effect_reply; [exact He4 | exact Hs5 | exact Ho5]. }
    destruct err'; [| now apply returns_ret].
    apply returns_slog. intros w6 Hs6 Ho6. exact (effect_quiet _ _ He5 Hs6 Ho6). }
  destruct (String.eqb action "delete"); [now apply handleRemove_effect |].
  destruct (String.eqb action cmdRmFilter); [now apply handleRmFilter_effect |].
  now apply returns_ret.
Qed.

End Effects.

End handler_facts.

(** ** The bot as a whole *)

Module bot_facts.

Import storage crud policy.

Lemma filter_andb {A : Type} (p q : A -> bool) (l : list A) :
  List.filter (fun x => p x && q x) l = List.filter q (List.filter p l).
Proof.
  induction l as [| x l IH]; [reflexivity |]. cbn [List.filter].
  destruct (p x); cbn [andb List.filter]; [destruct (q x) |]; now rewrite IH.
Qed.

Lemma IsSeen_filter (d d' : DB) (id : Z) :
  List.filter (fun r => seen_feed_id r =? id) (seen_items d')
  = List.filter (fun r => seen_feed_id r =? id) (seen_items d) ->
  forall guid, IsSeen d' id guid = IsSeen d id guid.
Proof.
  intros H guid. unfold IsSeen, seen_key.
  rewrite (filter_andb (fun r => seen_feed_id r =? id) (fun r => String.eqb (seen_guid r) guid)).
  rewrite (filter_andb (fun r => seen_feed_id r =? id) (fun r => String.eqb (seen_guid r) guid)).
  now rewrite H.
Qed.

Lemma ListFeeds_owns (d : DB) (c : Z) (feed : Feed) :
  feeds_pk d -> In feed (ListFeeds d c) ->
  GetFeed d (Feed_ID feed) = Ok feed /\ Feed_ChatID feed = c.
Proof.
  intros Hpk Hin. unfold ListFeeds, scanFeeds in Hin. apply in_map_iff in Hin.
  destruct Hin as [r [<- Hr]].
  apply (Permutation_in _ (crud_facts.sort_Permutation _ feeds_id insert_feed_by_id
           (fun _ => eq_refl) (fun _ _ _ => eq_refl) _)) in Hr.
  apply filter_In in Hr. destruct Hr as [Hr Hc]. apply Z.eqb_eq in Hc.
  split; [| exact Hc]. unfold GetFeed. cbn [Feed_ID scanFeed].
  destruct (find (fun r0 => feeds_id r0 =? feeds_id r) (feeds d)) as [r' |] eqn:Hf.
  - apply find_some in Hf. destruct Hf as [Hin' Hid']. apply Z.eqb_eq in Hid'.
    now rewrite (scheduler_facts.pk_unique (feeds d) r' r Hpk Hin' Hr Hid').
  - exfalso. pose proof (proj1 (crud_facts.find_none_iff _ _) Hf r Hr) as Hx.
    cbn beta in Hx. rewrite Z.eqb_refl in Hx. discriminate Hx.
Qed.

Section WithLib.

Context {lib : GoLib} {fmtlib : GoFmt}.

Lemma Run_update_effect (cfg : config.Config) (update : handlers.Update) (w : handlers.World) (c : Z) :
  chat_of update = Some c ->
  returns (handlers.Run_update cfg update) w (fun _ w' => effect c w w').
Proof.
  unfold chat_of, handlers.Run_update. destruct (handlers.Update_CallbackQuery update) as [cb |].
  - intros H. injection H as H. apply handler_facts.handleCallback_effect; [exact H |].
    apply handler_facts.effect_refl.
  - destruct (handlers.Update_Message update) as [msg |]; [| discriminate].
    cbn [option_map]. intros H. injection H as <-.
    destruct (negb (handlers.Message_IsCommand msg)); [apply handler_facts.effect_refl |].
    destruct (negb (config.IsUserAllowed cfg (handlers.Message_FromID msg))).
    + apply handler_facts.reply_effect, handler_facts.effect_refl.
    + apply handler_facts.handleCommand_effect, handler_facts.effect_refl.
Qed.

Lemma Run_update_nobody (cfg : config.Config) (update : handlers.Update) (w : handlers.World) :
  chat_of update = None -> handlers.Run_update cfg update w = Returns (tt, w).
Proof.
  unfold chat_of, handlers.Run_update. destruct (handlers.Update_CallbackQuery update); [discriminate |].
  destruct (handlers.Update_Message update); [discriminate | reflexivity].
Qed.

(** X21. An update is handled without a panic.  What it changes in the store
    is of its chat, and it writes to its chat only: another chat finds its
    list of feeds, each of its feeds, their filters and what they have seen
    as they were. *)
Theorem updates_stay_in_their_chat (cfg : config.Config) (update : handlers.Update) (w : handlers.World)
    (c c' : Z) :
  history.consistent (handlers.store w) -> chat_of update = Some c -> c' <> c ->
  returns (handlers.Run_update cfg update) w
    (fun _ w' =>
       sent_to c w w'
       /\ ListFeeds (harness.db (handlers.base w')) c' = ListFeeds (harness.db (handlers.base w)) c'
       /\ forall feed, In feed (ListFeeds (harness.db (handlers.base w)) c') ->
            GetFeed (harness.db (handlers.base w')) (Feed_ID feed) = Ok feed
            /\ ListFilters (harness.db (handlers.base w')) (Feed_ID feed)
               = ListFilters (harness.db (handlers.base w)) (Feed_ID feed)
            /\ forall guid,
                 IsSeen (harness.db (handlers.base w')) (Feed_ID feed) guid
                 = IsSeen (harness.db (handlers.base w)) (Feed_ID feed) guid).
Proof.
  intros Hcons Hchat Hne.
  apply (handler_facts.returns_weaken _ _ _ _ (Run_update_effect cfg update w c Hchat)).
  intros _ w' [Hch Hsent]. split; [exact Hsent |].
  pose proof (policy_facts.changes_untouched c c' _ _ Hcons Hne Hch) as [Hfeeds Hrest].
  cbn [handlers.store tables] in Hfeeds, Hrest. split.
  - unfold ListFeeds. now rewrite Hfeeds.
  - intros feed Hin.
    destruct (ListFeeds_owns _ _ _ (history.unique_feeds _ Hcons) Hin) as [Hget Hc].
    destruct (Hrest (Feed_ID feed)) as [H1 [H2 H3]]; [now exists feed |].
    split; [rewrite H1; exact Hget |]. split.
    + unfold ListFilters. now rewrite H2.
    + now apply IsSeen_filter.
Qed.

(** X22. In every world the program reaches the store is sound: the keys are
    unique, the intervals lie between 1 and 1440 minutes, every filter and
    every seen-entry is of a feed that exists, the patterns of the regex
    filters compile and the values of the filters are words with single
    blanks between them.  So the feeds the scheduler is given have intervals
    in these bounds and the filters the engine is given are of a known kind
    and compile. *)
Theorem reachable_worlds_are_sound (w : handlers.World) :
  reachable w ->
  sound (handlers.store w)
  /\ (forall now feed, In feed (ListDueFeeds (harness.db (handlers.base w)) now) ->
        1 <= Feed_IntervalMinutes feed <= 1440)
  /\ (forall feedID f, In f (ListFilters (harness.db (handlers.base w)) feedID) ->
        has_feed (harness.db (handlers.base w)) feedID
        /\ filter.knownKind f = true
        /\ compiles (Filter_Kind f) (Filter_Value f)
        /\ normal (Filter_Value f)).
Proof.
  intros Hr. assert (Hs : sound (handlers.store w)).
  { induction Hr as [w Hw | w w' _ IH Hstep].
    - rewrite Hw. apply policy_facts.sound_empty.
    - destruct Hstep as [cfg update w w' Hrun | w | w w' Hw].
      + destruct (chat_of update) as [c |] eqn:Hc.
        * pose proof (Run_update_effect cfg update w c Hc) as He.
          apply (handler_facts.returns_inv _ _ _ _ _ He) in Hrun.
          exact (policy_facts.sound_changes c _ _ IH (proj1 Hrun)).
        * rewrite (Run_update_nobody cfg update w Hc) in Hrun. now injection Hrun as <-.
      + pose proof (policy_facts.kept_checkAll (handlers.feeds_seq w) (handlers.filters_seq w)
                      (map feeds_id (feeds (harness.db (handlers.base w)))) (handlers.base w)) as Hk.
        destruct Hk as [Hk _]; [split; [exact IH | reflexivity] |]. exact Hk.
      + now rewrite Hw. }
  split; [exact Hs |]. split.
  - intros now feed Hin. unfold ListDueFeeds, scanFeeds in Hin. apply in_map_iff in Hin.
    destruct Hin as [r [<- Hin]]. apply filter_In in Hin.
    exact (sound_intervals _ Hs r (proj1 Hin)).
  - intros feedID f Hin. unfold ListFilters in Hin. apply in_map_iff in Hin.
    destruct Hin as [r [<- Hin]].
    apply (Permutation_in _ (crud_facts.sort_Permutation _ filters_id insert_by_id
             (fun _ => eq_refl) (fun _ _ _ => eq_refl) _)) in Hin.
    apply filter_In in Hin. destruct Hin as [Hin Hid]. apply Z.eqb_eq in Hid.
    destruct (sound_filters _ Hs r Hin) as [H1 [H2 H3]]. rewrite Hid in H1.
    split; [exact H1 |]. split; [| split; assumption].
    rewrite <- crud_facts.check_kind_known. cbn [Filter_Kind scanFilter].
    exact (proj1 (history.filters_checked _ (sound_consistent _ Hs) r Hin)).
Qed.

(** X23. A command of a user who is not on the list is answered by a refusal
    and nothing else: the store is as it was. *)
Theorem unlisted_user_is_refused (cfg : config.Config) (msg : handlers.Message) (w : handlers.World) :
  handlers.Message_IsCommand msg = true ->
  config.IsUserAllowed cfg (handlers.Message_FromID msg) = false ->
  returns (handlers.Run_update cfg (handlers.mkUpdate None (Some msg))) w
    (fun _ w' =>
       handlers.store w' = handlers.store w
       /\ harness.outbox (handlers.base w')
          = (harness.outbox (handlers.base w) ++ [(handlers.Message_ChatID msg, "Access denied.")])%list).
Proof.
  intros Hcmd Hno. unfold handlers.Run_update. cbn [handlers.Update_CallbackQuery handlers.Update_Message].
  rewrite Hcmd, Hno. cbn [negb]. apply handler_facts.returns_reply. now split.
Qed.

End WithLib.

End bot_facts.

(** ** The code on concrete inputs *)

Module scenarios.

Import sqlite storage harness spec fixtures.

(** Scenario A: no filters, nothing seen: five deliveries, five seen-entries,
    the last check set. *)
Example scenario_A :
  let w := exec (@scheduler.checkAll lib) (world (mkDB [row] [] []) (answer 200 rss_doc) no_fault) in
  map fst (outbox w) = [100; 100; 100; 100; 100]
  /\ map seen_guid (seen_items (db w)) = ["item-1"; "item-2"; "item-3"; "item-4"; "item-5"]
  /\ map feeds_last_check_at (feeds (db w)) = [Some 1767225600]
  /\ clock w = t0 + 5 * (50 * scheduler.millisecond).
Proof. vm_compute. repeat split. Qed.

(** Scenario B: everything seen already: no delivery, the last check set. *)
Example scenario_B :
  let seen := map (fun g => mk_seen_items_row 1 g 1767139200)
                  ["item-1"; "item-2"; "item-3"; "item-4"; "item-5"] in
  let w := exec (@scheduler.checkAll lib) (world (mkDB [row] [] seen) (answer 200 rss_doc) no_fault) in
  outbox w = []
  /\ seen_items (db w) = seen
  /\ map feeds_last_check_at (feeds (db w)) = [Some 1767225600].
Proof. vm_compute. repeat split. Qed.

(** Scenario C: include "kubernetes", exclude-regex "course.*training":
    three items have the word, one of them is vetoed. *)
Example scenario_C :
  let fs := [filter_row 1 FilterInclude "kubernetes";
             filter_row 2 FilterExcludeRe "course.*training"] in
  let w := exec (@scheduler.checkAll lib) (world (mkDB [row] fs []) (answer 200 rss_doc) no_fault) in
  map seen_guid (seen_items (db w)) = ["item-1"; "item-4"]
  /\ List.length (outbox w) = 2%nat.
Proof. vm_compute. repeat split. Qed.

(** Scenario D: a status that is not 200, or a body that does not parse: no
    delivery, no seen-entry, the last check set. *)
Example scenario_D :
  let w1 := exec (@scheduler.checkAll lib) (world (mkDB [row] [] []) (answer 404 "not found") no_fault) in
  let w2 := exec (@scheduler.checkAll lib) (world (mkDB [row] [] []) (answer 200 "not xml") no_fault) in
  outbox w1 = [] /\ seen_items (db w1) = []
  /\ map feeds_last_check_at (feeds (db w1)) = [Some 1767225600]
  /\ outbox w2 = [] /\ seen_items (db w2) = []
  /\ map feeds_last_check_at (feeds (db w2)) = [Some 1767225600].
Proof. vm_compute. repeat split. Qed.

(** Cancellation before the cycle: no feed is processed. *)
Example scenario_cancelled :
  let w0 := mkWorld (mkDB [row] [] []) t0 (Some t0) (answer 200 rss_doc) [] [] 0 no_fault in
  let w := exec (@scheduler.checkAll lib) w0 in
  outbox w = [] /\ db w = db w0 /\ logs w = [].
Proof. vm_compute. repeat split. Qed.

(** The due predicate around the interval: one second past it the feed is
    due, one second short of it it is not. *)
Example due_monotonicity :
  let checked (t : Timestamp) :=
    mk_feeds_row 1 100 "A" "https://a.com" 15 1 (Some t) 1767139200 in
  map Feed_ID (ListDueFeeds (mkDB [checked (1767225600 - 15 * 60 - 1)] [] []) t0) = [1]
  /\ ListDueFeeds (mkDB [checked (1767225600 - 15 * 60 + 1)] [] []) t0 = [].
Proof. vm_compute. repeat split. Qed.

(** An interval below zero, which the command surface refuses, would make
    the modifier of the query malformed: such a row is never due. *)
Example negative_interval_never_due :
  ListDueFeeds
    (mkDB [mk_feeds_row 1 100 "A" "https://a.com" (-5) 1 (Some 0) 0] [] []) t0 = [].
Proof. vm_compute. reflexivity. Qed.

(** Cases of the tests of the matcher. *)
Example Match_cases :
  let F kind scope value := mkFilter 0 0 kind scope value 0 in
  let M title desc fs := @filter.Match lib (filter.mkFeedItem title desc) fs in
  M "anything" "whatever" [] = true
  /\ M "KUBERNETES release" "" [F FilterInclude ScopeAll "kubernetes"] = true
  /\ M "Kubernetes vacancy" "Apply now"
       [F FilterInclude ScopeAll "kubernetes"; F FilterExclude ScopeAll "vacancy"] = false
  /\ M "Docker update" ""
       [F FilterInclude ScopeAll "kubernetes"; F FilterInclude ScopeAll "docker"] = true
  /\ M "Helm chart v3.15" "" [F FilterIncludeRe ScopeAll "helm|docker"] = true
  /\ M "Online course on K8s training" "" [F FilterExcludeRe ScopeAll "course.*training"] = false
  /\ M "anything" "" [F FilterIncludeRe ScopeAll "[invalid"] = false
  /\ M "Release notes" "Kubernetes update" [F FilterInclude ScopeTitle "kubernetes"] = false
  /\ M "Kubernetes release" "Sponsored promo content"
       [F FilterInclude ScopeTitle "kubernetes"; F FilterExclude ScopeContent "promo"] = false
  /\ M "Promo for Kubernetes" "Great article" [F FilterExclude ScopeContent "promo"] = true.
Proof. vm_compute. repeat split. Qed.

(** *** The theorems with hypotheses, at concrete inputs *)

Lemma invalid_regex_never_matches_witness :
  @regexp_Compile lib ("(?i)" ++ Filter_Value bad_regex)
    = Err "error parsing regexp: missing closing ]"
  /\ @filter.matchesFilter lib k8s_item bad_regex = false
  /\ @filter.Match lib k8s_item [bad_regex] = false
  /\ @filter.Match lib k8s_item [word_filter; bad_regex] = true.
Proof.
  pose proof (@filter_facts.invalid_regex_never_matches lib k8s_item bad_regex [word_filter] []
                "error parsing regexp: missing closing ]" eq_refl (or_introl eq_refl))
    as [Hm [Hincl _]].
  split; [reflexivity |]. split; [exact Hm |].
  split; [exact (proj1 (Hincl eq_refl)) | reflexivity].
Defined.

Lemma ListDueFeeds_exactly_due_witness :
  representable (Format t0)
  /\ Forall row_ok due_table
  /\ ListDueFeeds (mkDB due_table [] []) t0 =
       List.filter (isDue t0) (scanFeeds due_table)
  /\ map Feed_ID (ListDueFeeds (mkDB due_table [] []) t0) = [1; 2].
Proof.
  assert (Hnow : representable (Format t0)) by (vm_compute; split; discriminate).
  assert (Hrows : Forall row_ok due_table).
  { repeat constructor; vm_compute; try split; discriminate. }
  split; [exact Hnow |]. split; [exact Hrows |].
  split; [| reflexivity].
  exact (proj1 (due_facts.ListDueFeeds_exactly_due (mkDB due_table [] []) t0 Hnow Hrows)).
Defined.

Lemma processFeed_filter_load_failure_witness :
  fst (run (@fetcher.Fetch lib (Feed_URL feed)) locked_world) = Ok rss_feed
  /\ store_fault locked_world (store_calls locked_world) = Some "database is locked"
  /\ db (exec (@scheduler.processFeed lib feed) locked_world) = db locked_world
  /\ outbox (exec (@scheduler.processFeed lib feed) locked_world) = [].
Proof.
  pose proof (@scheduler_facts.processFeed_filter_load_failure lib locked_world feed []
                rss_feed "database is locked" eq_refl eq_refl) as [Hdb [Hout _]].
  split; [reflexivity |]. split; [reflexivity |]. split; [exact Hdb | exact Hout].
Defined.

Lemma processFeed_fetch_failure_witness :
  fst (run (@fetcher.Fetch lib (Feed_URL feed)) broken_world) = Err "unexpected status 503"
  /\ In feed (ListDueFeeds (db broken_world) t0)
  /\ feeds_pk (db broken_world)
  /\ outbox (exec (@scheduler.processFeed lib feed) broken_world) = []
  /\ seen_items (db (exec (@scheduler.processFeed lib feed) broken_world)) = []
  /\ feeds (db (exec (@scheduler.processFeed lib feed) broken_world)) =
       [with_last_check row 1767225600].
Proof.
  assert (Hdue : In feed (ListDueFeeds (db broken_world) t0)) by (left; reflexivity).
  assert (Hpk : feeds_pk (db broken_world)).
  { unfold feeds_pk. simpl. constructor; [intros [] | constructor]. }
  pose proof (@scheduler_facts.processFeed_fetch_failure lib broken_world feed
                "unexpected status 503" t0 eq_refl Hdue Hpk eq_refl)
    as [Hout [Hseen [_ [Hfeeds _]]]].
  split; [reflexivity |]. split; [exact Hdue |]. split; [exact Hpk |].
  split; [exact Hout |]. split; [exact Hseen |]. exact Hfeeds.
Defined.

Lemma Match_order_independent_witness :
  Permutation [word_filter; bad_regex] [bad_regex; word_filter]
  /\ @filter.Match lib k8s_item [word_filter; bad_regex]
     = @filter.Match lib k8s_item [bad_regex; word_filter].
Proof.
  assert (Hp : Permutation [word_filter; bad_regex] [bad_regex; word_filter])
    by apply perm_swap.
  split; [exact Hp |].
  exact (@filter_facts.Match_order_independent lib k8s_item _ _ Hp).
Defined.

Lemma FilterItems_truncation_in_bytes_witness :
  exists item, In item items
    /\ fetcher.Title (fetcher.mkMatchedItem "Docker Desktop Update" "Faster builds."
                        "https://devops.example.com/2" "item-2") = gofeed.Item_Title item
    /\ (String.length (gofeed.Item_Description item) <= 300)%nat.
Proof.
  destruct (@truncation_facts.FilterItems_truncation_in_bytes lib items []
              (fetcher.mkMatchedItem "Docker Desktop Update" "Faster builds."
                 "https://devops.example.com/2" "item-2"))
    as [item [Hin [Ht [Hg [Hlen _]]]]].
  - right. left. reflexivity.
  - exists item. split; [exact Hin |]. split; [exact Ht |].
    destruct Hin as [<- | [<- | [<- | [<- | [<- | []]]]]]; vm_compute; lia.
Defined.


Lemma processFeed_delivers_at_most_once_witness :
  no_faults (world (mkDB [row] [] []) (answer 200 rss_doc) no_fault)
  /\ List.length (outbox (exec (@scheduler.processFeed lib feed)
                            (world (mkDB [row] [] []) (answer 200 rss_doc) no_fault))) = 5%nat
  /\ outbox (exec (@scheduler.processFeed lib feed)
               (exec (@scheduler.processFeed lib feed)
                  (world (mkDB [row] [] []) (answer 200 rss_doc) no_fault))) =
     outbox (exec (@scheduler.processFeed lib feed)
               (world (mkDB [row] [] []) (answer 200 rss_doc) no_fault)).
Proof.
  assert (Hnf : no_faults (world (mkDB [row] [] []) (answer 200 rss_doc) no_fault))
    by (intros n; reflexivity).
  split; [exact Hnf |]. split; [reflexivity |].
  exact (proj2 (@dedup_facts.processFeed_delivers_at_most_once lib _ feed rss_feed Hnf eq_refl)).
Defined.

End scenarios.

(** ** The statements on concrete inputs *)

Module examples.

Import sqlite storage crud harness spec fixtures policy text bot_fixtures.

(** The feed of the fixture, created in a new database. *)
Lemma CreateFeed_then_GetFeed_witness :
  CreateFeed empty feed t0
  = (Ok (mkFeed 1 100 "DevOps Weekly" "https://devops.example.com/rss" 15 true None
           (1767225600 * second)),
     mkStore (mkDB [mk_feeds_row 1 100 "DevOps Weekly" "https://devops.example.com/rss" 15 1
                      None 1767225600] [] []) 1 0)
  /\ GetFeed (mkDB [mk_feeds_row 1 100 "DevOps Weekly" "https://devops.example.com/rss" 15 1
                      None 1767225600] [] []) 1
     = Ok (mkFeed 1 100 "DevOps Weekly" "https://devops.example.com/rss" 15 true None
             (1767225600 * second)).
Proof.
  split; [reflexivity |].
  exact (proj1 (crud_facts.CreateFeed_then_GetFeed empty _ feed _ t0 eq_refl)).
Defined.

(** Created, deleted, created again: the table is empty in between and the
    second feed is the feed 2. *)
Lemma feed_IDs_are_not_reused_witness :
  feeds (DeleteFeed (tables (snd (CreateFeed empty feed t0))) 1) = []
  /\ Feed_ID (mkFeed 1 100 "DevOps Weekly" "https://devops.example.com/rss" 15 true None
                (1767225600 * second)) <
     Feed_ID (mkFeed 2 100 "DevOps Weekly" "https://devops.example.com/rss" 15 true None
                (1767225600 * second)).
Proof.
  split; [reflexivity |].
  exact (crud_facts.feed_IDs_are_not_reused empty _ _ feed feed _ _ t0 t0 [1]
           eq_refl eq_refl).
Defined.

(** Of the table of the store's test the feeds 1 and 2 are due; with the
    feed 1 paused the feed 2 still is, and it is not the feed 1. *)
Lemma paused_feed_is_never_due_witness :
  map Feed_ID (ListDueFeeds
                 (UpdateFeed (mkDB due_table [] []) (assign.IsActive (scanFeed row) false)) t0)
  = [2]
  /\ Feed_ID (scanFeed (mk_feeds_row 2 1 "B" "https://b.com" 15 1
                          (Some (1767225600 - 30 * 60)) 1767139200))
     <> Feed_ID (scanFeed row).
Proof.
  split; [reflexivity |].
  apply (crud_facts.paused_feed_is_never_due (mkDB due_table [] []) (scanFeed row) t0).
  left. reflexivity.
Defined.

(** The feed of the fixture, checked at [t0], is due 15 minutes later and
    not one second earlier. *)
Lemma checked_feed_is_due_after_its_interval_witness :
  In 1 (map Feed_ID (ListDueFeeds (UpdateFeed (mkDB [row] [] [])
                                     (assign.LastCheckAt feed t0)) (t0 + 900 * second)))
  /\ ~ In 1 (map Feed_ID (ListDueFeeds (UpdateFeed (mkDB [row] [] [])
                                          (assign.LastCheckAt feed t0)) (t0 + 899 * second))).
Proof.
  assert (H0 : representable (Format t0)) by (vm_compute; split; discriminate).
  assert (H1 : representable (Format (t0 + 900 * second)))
    by (vm_compute; split; discriminate).
  assert (H2 : representable (Format (t0 + 899 * second)))
    by (vm_compute; split; discriminate).
  assert (Hin : In (Feed_ID feed) (map feeds_id (feeds (mkDB [row] [] []))))
    by (left; reflexivity).
  assert (Hint : 0 <= Feed_IntervalMinutes feed) by (vm_compute; discriminate).
  pose proof (crud_facts.checked_feed_is_due_after_its_interval (mkDB [row] [] []) feed t0
                (t0 + 900 * second) Hint H0 H1 Hin) as Ha.
  pose proof (crud_facts.checked_feed_is_due_after_its_interval (mkDB [row] [] []) feed t0
                (t0 + 899 * second) Hint H0 H2 Hin) as Hb.
  split.
  - apply (proj2 Ha). split; [reflexivity | vm_compute; discriminate].
  - intros H. apply (proj1 Hb) in H. destruct H as [_ H]. vm_compute in H. now apply H.
Defined.

(** The store after the first feed is created is reachable, so consistent. *)
Lemma reachable_stores_are_consistent_witness :
  history.reachable (snd (CreateFeed empty feed t0))
  /\ history.consistent (snd (CreateFeed empty feed t0)).
Proof.
  assert (Hr : history.reachable (snd (CreateFeed empty feed t0))).
  { apply (history.reachable_step empty); [apply history.reachable_empty |].
    now apply (history.step_CreateFeed empty _ feed
                 (mkFeed 1 100 "DevOps Weekly" "https://devops.example.com/rss" 15 true None
                    (1767225600 * second)) t0). }
  split; [exact Hr |].
  exact (proj1 (history_facts.reachable_stores_are_consistent _ Hr)).
Defined.

Lemma ParseIntervalArgs_round_trip_witness :
  @bot.ParseIntervalArgs testlib.fmtlib "7 1440" = Ok (7, 1440)
  /\ @bot.ParseIntervalArgs testlib.fmtlib "7 1441"
     = Err "interval must be between 1 and 1440 minutes".
Proof.
  assert (H : forall n, n = 7 \/ n = 1440 \/ n = 1441 -> int64 n).
  { intros n [-> | [-> | ->]]; vm_compute; split; congruence. }
  split.
  - apply (@parse_facts.ParseIntervalArgs_round_trip testlib.fmtlib 7 1440); apply H; auto.
  - apply (@parse_facts.ParseIntervalArgs_round_trip testlib.fmtlib 7 1441); apply H; auto.
Defined.

(** The flag is taken out and the blanks between the words are reduced to
    one. *)
Lemma ParseFilterCommand_normal_form_witness :
  @bot.ParseFilterCommand testlib.fmtlib "  1 -s title  kubernetes   helm "
  = Ok (bot.mkFilterArgs 1 ScopeTitle "kubernetes helm")
  /\ strings.TrimSpace "kubernetes helm" = "kubernetes helm"
  /\ strings.Join (strings.Fields "kubernetes helm") " " = "kubernetes helm".
Proof.
  pose proof (@parse_facts.ParseFilterCommand_normal_form testlib.fmtlib
                "  1 -s title  kubernetes   helm "
                (bot.mkFilterArgs 1 ScopeTitle "kubernetes helm") eq_refl)
    as [_ [_ [_ [_ [Hj Ht]]]]].
  split; [reflexivity |]. split; [exact Ht | exact Hj].
Defined.

Lemma ParseRenameArgs_keeps_name_witness :
  @bot.ParseRenameArgs testlib.fmtlib "12 My  Feed" = Ok (12, "My  Feed").
Proof.
  apply (@parse_facts.ParseRenameArgs_keeps_name testlib.fmtlib 12 "My  Feed").
  - vm_compute. split; congruence.
  - discriminate.
  - reflexivity.
Defined.

Lemma ParseRenameArgs_result_is_trimmed_witness :
  @bot.ParseRenameArgs testlib.fmtlib " 12   My  Feed  " = Ok (12, "My  Feed")
  /\ strings.TrimSpace "My  Feed" = "My  Feed".
Proof.
  split; [reflexivity |].
  exact (proj2 (proj2 (@parse_facts.ParseRenameArgs_result_is_trimmed testlib.fmtlib
                         " 12   My  Feed  " 12 "My  Feed" eq_refl))).
Defined.

Lemma with_filter_store :
  handlers.store with_filter
  = mkStore
      (mkDB [mk_feeds_row 1 100 "DevOps Weekly" "https://devops.example.com/rss" 15 1 None
               1767225600]
            [mk_filters_row 1 1 "include" "title" "kubernetes helm" 1767225600] [])
      1 1.
Proof. vm_compute. reflexivity. Qed.

Lemma with_filter_consistent : history.consistent (handlers.store with_filter).
Proof.
  rewrite with_filter_store. constructor; cbn [tables feeds filters seen_items feeds_seq filters_seq].
  - repeat constructor. intros [].
  - repeat constructor. intros [].
  - repeat constructor.
  - discriminate.
  - discriminate.
  - intros r [<- | []]. split; [reflexivity | discriminate].
  - intros r [<- | []]. split; [reflexivity | discriminate].
  - intros r [<- | []]. split; reflexivity.
  - intros r [<- | []]. right. reflexivity.
Qed.

(** The chat 200 adds a feed and removes the feed 1, which is not its own:
    the chat 100 keeps its feed and its filter. *)
Lemma updates_stay_in_their_chat_witness :
  returns (@handlers.Run_update lib testlib.fmtlib everyone (command 8 200 "remove" "1"))
    with_filter
    (fun _ w' =>
       sent_to 200 with_filter w'
       /\ ListFeeds (db (handlers.base w')) 100 = ListFeeds (db (handlers.base with_filter)) 100
       /\ forall feed, In feed (ListFeeds (db (handlers.base with_filter)) 100) ->
            GetFeed (db (handlers.base w')) (Feed_ID feed) = Ok feed
            /\ ListFilters (db (handlers.base w')) (Feed_ID feed)
               = ListFilters (db (handlers.base with_filter)) (Feed_ID feed)
            /\ forall guid,
                 IsSeen (db (handlers.base w')) (Feed_ID feed) guid
                 = IsSeen (db (handlers.base with_filter)) (Feed_ID feed) guid).
Proof.
  apply (@bot_facts.updates_stay_in_their_chat lib testlib.fmtlib everyone
           (command 8 200 "remove" "1") with_filter 200 100 with_filter_consistent).
  - reflexivity.
  - discriminate.
Defined.

Lemma reachable_worlds_are_sound_witness :
  @reachable lib testlib.fmtlib with_feed /\ @sound lib (handlers.store with_feed).
Proof.
  assert (Hr : @reachable lib testlib.fmtlib with_feed).
  { apply (reachable_step start); [now apply reachable_start |].
    apply (step_update everyone (command 7 100 "add" "https://devops.example.com/rss")).
    vm_compute. reflexivity. }
  split; [exact Hr |].
  exact (proj1 (@bot_facts.reachable_worlds_are_sound lib testlib.fmtlib with_feed Hr)).
Defined.

(** The user 7 is not on the list of [only_42]. *)
Lemma unlisted_user_is_refused_witness :
  returns (@handlers.Run_update lib testlib.fmtlib only_42 (command 7 100 "remove" "1"))
    with_filter
    (fun _ w' =>
       handlers.store w' = handlers.store with_filter
       /\ outbox (handlers.base w')
          = (outbox (handlers.base with_filter) ++ [(100, "Access denied.")])%list).
Proof.
  apply (@bot_facts.unlisted_user_is_refused lib testlib.fmtlib only_42
           (handlers.mkMessage true "remove" "1" 7 100) with_filter); reflexivity.
Defined.

End examples.
